(** * SDEverywhere model analyzer: a shallow embedding of [src/Model.js]
  and of the spec loader of [src/sde-generate.js].

  Module-level JavaScript state (the variable table, the registry of
  non-apply-to-all names, the subscript registry) is threaded explicitly.
  JavaScript arrays of strings are lists, objects used as dictionaries and
  [Map]s are [gmap]s (with a separate key order where iteration order is
  observable), and thrown exceptions are an error result. *)

From Stdlib Require Import ZArith Lia Ascii.
From stdpp Require Import base option list sorting gmap strings pretty.

(** ** JavaScript and Ramda helpers *)
Module Js.

(** [Array.prototype.join]. *)
Definition join (sep : string) (l : list string) : string := String.concat sep l.

(** [R.uniq]: drop every element already seen, keeping first occurrences. *)
Fixpoint uniq_go {A} `{EqDecision A} (seen : list A) (l : list A) : list A :=
  match l with
  | [] => []
  | x :: l' => if decide (x ∈ seen) then uniq_go seen l' else x :: uniq_go (x :: seen) l'
  end.
Definition uniq {A} `{EqDecision A} (l : list A) : list A := uniq_go [] l.

(** A stable insertion sort driven by a JavaScript-style comparator:
    [gt a b] plays the role of [compare(a, b) > 0]. *)
Fixpoint insert_by {A} (gt : A → A → bool) (x : A) (l : list A) : list A :=
  match l with
  | [] => [x]
  | y :: l' => if gt x y then y :: insert_by gt x l' else x :: y :: l'
  end.
Fixpoint sort_by {A} (gt : A → A → bool) (l : list A) : list A :=
  match l with
  | [] => []
  | x :: l' => insert_by gt x (sort_by gt l')
  end.

(** The relational operators [<] and [>] on strings (code-unit order). *)
Definition str_lt (a b : string) : bool := String.ltb a b.
Definition str_gt (a b : string) : bool := String.ltb b a.

(** The order a comparator sorts into: [a] may stand before [b]. *)
Definition le_of {A} (gt : A → A → bool) (a b : A) : Prop := gt a b = false.

(** [Array.prototype.sort()] without a comparator, on strings. *)
Definition sort_strings (l : list string) : list string := sort_by str_gt l.

(** The class [\w] of a regular expression without the unicode flag. *)
Definition is_word_char (c : ascii) : bool :=
  let n := nat_of_ascii c in
  ((48 <=? n) && (n <=? 57)) || ((65 <=? n) && (n <=? 90))
  || ((97 <=? n) && (n <=? 122)) || (n =? 95).

(** [Array.prototype.indexOf]. *)
Fixpoint indexOf {A} `{EqDecision A} (x : A) (l : list A) : option nat :=
  match l with
  | [] => None
  | y :: l' => if decide (y = x) then Some 0 else S <$> indexOf x l'
  end.

(** Assignment [a[i] = x] on an array that may have holes: an index past the
    end extends the array, the skipped positions being holes. *)
Definition array_set {A} (i : nat) (x : A) (a : list (option A)) : list (option A) :=
  if decide (i < length a) then <[i := Some x]> a
  else a ++ replicate (i - length a) None ++ [Some x].

(** What stops a computation short: an exception thrown by the JavaScript
    runtime, or [process.exit(code)] called after a message has been printed
    to the error stream. *)
Inductive JsError :=
| TypeError
| ReferenceError (name : string)
| ProcessExit (code : nat).

Inductive Result (A : Type) :=
| Ok (a : A)
| Throw (e : JsError).
Arguments Ok {A} a.
Arguments Throw {A} e.

#[global] Instance Result_ret : MRet Result := λ A a, Ok a.
#[global] Instance Result_bind : MBind Result :=
  λ A B k r, match r with Ok a => k a | Throw e => Throw e end.

(** An array whose elements must all be defined for the code that reads
    their properties not to throw. *)
Fixpoint requireAll {A} (l : list (option A)) : Result (list A) :=
  match l with
  | [] => Ok []
  | Some x :: l' => l'' ← requireAll l'; Ok (x :: l'')
  | None :: _ => Throw TypeError
  end.

(** [R.map(f, l)] for an [f] that can throw. *)
Fixpoint mapM {A B} (f : A → Result B) (l : list A) : Result (list B) :=
  match l with
  | [] => Ok []
  | x :: l' => y ← f x; l'' ← mapM f l'; Ok (y :: l'')
  end.

(** A loop whose body can throw. *)
Fixpoint foldM {A B} (f : A → B → Result A) (a : A) (l : list B) : Result A :=
  match l with
  | [] => Ok a
  | x :: l' => a' ← f a x; foldM f a' l'
  end.

End Js.

(** ** The subscript registry *)
Module Subscript.

(** Modelled from the spec: [src/Subscript.js] is not part of the sources at
    hand.  A subscript is a named object, either a dimension owning an
    ordered list of subscript names or an index owning its position in its
    family; both carry a size, a family name and a mapping table.  A mapping
    value is a JavaScript array, whose positions can be holes after
    inversion. *)
Inductive SubValue :=
| DimValue (names : list string)
| IndexValue (position : nat).

Record Sub := mkSub {
  value : SubValue;
  size : nat;
  family : string;
  mappings : list (string * list (option string))
}.

#[export] Instance SubValue_eq_dec : EqDecision SubValue.
Proof. solve_decision. Defined.
#[export] Instance Sub_eq_dec : EqDecision Sub.
Proof. solve_decision. Defined.

(** The registry is the [Map] from canonical names to subscripts; [dims]
    lists the names of the dimensions in insertion order, which is the order
    [allDimensions()] returns them in. *)
Record Registry := mkRegistry {
  subs : gmap string Sub;
  dims : list string
}.

(** Modelled from the spec: the lookups [sub(name)], [isDimension(name)] and
    [isIndex(name)]. *)
Definition sub (reg : gmap string Sub) (name : string) : option Sub := reg !! name.

Definition dimValue (reg : gmap string Sub) (name : string) : option (list string) :=
  match reg !! name with
  | Some (mkSub (DimValue v) _ _ _) => Some v
  | _ => None
  end.

Definition isDimension (reg : gmap string Sub) (name : string) : bool :=
  bool_decide (is_Some (dimValue reg name)).

Definition isIndex (reg : gmap string Sub) (name : string) : bool :=
  match reg !! name with
  | Some (mkSub (IndexValue _) _ _ _) => true
  | _ => false
  end.

(** Modelled from the spec: [normalizeSubscripts(list)] sorts a subscript
    list by family in ascending order (a stable sort on the family name of
    each subscript; names the registry does not know compare as ties). *)
Definition family_gt (reg : gmap string Sub) (a b : string) : bool :=
  match reg !! a, reg !! b with
  | Some sa, Some sb => Js.str_gt (family sa) (family sb)
  | _, _ => false
  end.

Definition normalizeSubscripts (reg : gmap string Sub) (l : list string) : list string :=
  Js.sort_by (family_gt reg) l.

End Subscript.

(** ** Reading the subscript ranges ([readSubscriptRanges] of [src/Model.js]) *)
Module Ranges.
Import Subscript.

Definition set_dim_value (v : list string) (d : Sub) : Sub :=
  mkSub (DimValue v) (length v) (family d) (mappings d).

Definition set_family (f : string) (d : Sub) : Sub :=
  mkSub (value d) (size d) f (mappings d).

Definition set_mappings (m : list (string * list (option string))) (d : Sub) : Sub :=
  mkSub (value d) (size d) (family d) m.

(** The dimension objects of [allDims], read through the registry at the time
    of use: the loops below mutate the objects the registry holds. *)
Definition allDimensions (reg : gmap string Sub) (order : list string)
  : list (string * Sub) :=
  omap (λ n, match reg !! n with
             | Some (mkSub (DimValue v) sz f m) => Some (n, mkSub (DimValue v) sz f m)
             | _ => None
             end) order.

(** *** Expansion of dimensions into indices *)

(** [R.flatten(R.map(s => isDimension(s) ? sub(s).value : s, dim.value))]. *)
Definition expandValue (reg : gmap string Sub) (v : list string) : list string :=
  concat ((λ s, match dimValue reg s with Some w => w | None => [s] end) <$> v).

(** The body of [for (let dim of allDims)] in the expansion loop; the boolean
    is [dimFoundInValue]. *)
Definition expandDim (acc : bool * gmap string Sub) (name : string) : bool * gmap string Sub :=
  match acc.2 !! name with
  | Some d =>
      match value d with
      | DimValue v =>
          let v' := expandValue acc.2 v in
          if decide (v' = v) then acc else (true, <[name := set_dim_value v' d]> acc.2)
      | IndexValue _ => acc
      end
  | None => acc
  end.

Definition expandPass (reg : gmap string Sub) (order : list string) : bool * gmap string Sub :=
  foldl expandDim (false, reg) order.

(** The [do ... while (dimFoundInValue)] loop; [None] when the fuel runs out
    before a pass leaves every value unchanged. *)
Fixpoint expandDimensions (fuel : nat) (order : list string) (reg : gmap string Sub)
  : option (gmap string Sub) :=
  match fuel with
  | 0 => None
  | S fuel' =>
      let '(found, reg') := expandPass reg order in
      if found then expandDimensions fuel' order reg' else Some reg'
  end.

(** The dimension-name graph has an edge from a dimension to every dimension
    named in its value; it is acyclic when the dimensions can be ranked so
    that every edge goes down in rank. *)
Definition ranked (rank : string → nat) (reg : gmap string Sub) : Prop :=
  ∀ d v e, dimValue reg d = Some v → e ∈ v → isDimension reg e = true → rank e < rank d.

(** A dimension is expanded when its value names no dimension. *)
Definition expandedDim (reg : gmap string Sub) (n : string) : Prop :=
  ∀ v, dimValue reg n = Some v → ∀ e, e ∈ v → isDimension reg e = false.

Definition sized (reg : gmap string Sub) : Prop :=
  ∀ n v sz f m, reg !! n = Some (mkSub (DimValue v) sz f m) → sz = length v.

(** [order] lists every dimension of the registry. *)
Definition listed (reg : gmap string Sub) (order : list string) : Prop :=
  ∀ n, isDimension reg n = true → n ∈ order.

(** What every step of the expansion keeps true: the set of dimensions of the
    registry [reg0] the loop started from, the ranking and the sizes. *)
Definition expansionInv (rank : string → nat) (reg0 reg : gmap string Sub) : Prop :=
  (∀ n, isDimension reg n = isDimension reg0 n) ∧ ranked rank reg ∧ sized reg.


(** *** Families *)

(** [dimComparator(dim1, dim2) > 0]: size ascending, then name descending. *)
Definition dimComparator_gt (d1 d2 : string * Sub) : bool :=
  if size d1.2 <? size d2.2 then false
  else if size d2.2 <? size d1.2 then true
  else if Js.str_gt d1.1 d2.1 then false
  else if Js.str_lt d1.1 d2.1 then true
  else false.

Definition containsIndex (index : string) (d : string * Sub) : bool :=
  match value d.2 with
  | DimValue v => bool_decide (index ∈ v)
  | IndexValue _ => false
  end.

(** [R.sort(dimComparator, R.filter(thisDim => R.contains(index, thisDim.value), allDims))]
    for [index = dim.value[0]], which is [undefined] for an empty value. *)
Definition familyDims (reg : gmap string Sub) (order : list string) (v : list string)
  : list (string * Sub) :=
  match v !! 0 with
  | Some index => Js.sort_by dimComparator_gt (filter (λ d, containsIndex index d = true)
                                                       (allDimensions reg order))
  | None => []
  end.

(** The spec's [dimensionFamilies], if any, and the truthiness test
    [dimensionFamilies && dimensionFamilies[dim.name]]. *)
Definition familyOverride (dimensionFamilies : option (gmap string string)) (name : string)
  : option string :=
  match dimensionFamilies with
  | Some fams => match fams !! name with
                 | Some f => if decide (f = "") then None else Some f
                 | None => None
                 end
  | None => None
  end.

(** The body of the family loop; with no candidate the code prints
    [No family found for dimension ...] and leaves the family as it is. *)
Definition resolveFamily (dimensionFamilies : option (gmap string string))
    (order : list string) (reg : gmap string Sub) (name : string) : gmap string Sub :=
  match reg !! name with
  | Some d =>
      match value d with
      | DimValue v =>
          match familyOverride dimensionFamilies name with
          | Some f => <[name := set_family f d]> reg
          | None =>
              match last (familyDims reg order v) with
              | Some fd => <[name := set_family fd.1 d]> reg
              | None => reg
              end
          end
      | IndexValue _ => reg
      end
  | None => reg
  end.

Definition resolveFamilies (dimensionFamilies : option (gmap string string))
    (order : list string) (reg : gmap string Sub) : gmap string Sub :=
  foldl (resolveFamily dimensionFamilies order) reg order.

(** The family the loop assigns to the dimension [name], whose record in the
    registry is [d]. *)
Definition familyFor (dimensionFamilies : option (gmap string string)) (order : list string)
    (reg : gmap string Sub) (name : string) (d : Sub) : string :=
  match value d with
  | DimValue v =>
      match familyOverride dimensionFamilies name with
      | Some f => f
      | None => match last (familyDims reg order v) with
                | Some fd => fd.1
                | None => family d
                end
      end
  | IndexValue _ => family d
  end.

(** Sorting and filtering read a dimension only through its name, value and
    size. *)
Definition erase (e : string * Sub) : string * Sub := (e.1, set_family "" e.2).

(** The record the family loop leaves for the dimension [n] of [reg0]. *)
Definition resolved (dimensionFamilies : option (gmap string string)) (order : list string)
    (reg0 : gmap string Sub) (n : string) : option Sub :=
  (λ d, set_family (familyFor dimensionFamilies order reg0 n d) d) <$> reg0 !! n.

(** *** Indices *)

(** Modelled from the spec: [addIndex(name, position, family)] of
    [src/Subscript.js] registers an index with its position in its family. *)
Definition addIndex (name : string) (position : nat) (fam : string) (reg : gmap string Sub)
  : gmap string Sub :=
  <[name := mkSub (IndexValue position) 1 fam []]> reg.

Definition defineIndices (order : list string) (reg : gmap string Sub) : gmap string Sub :=
  foldl (λ reg name,
           match reg !! name with
           | Some (mkSub (DimValue v) _ f _) =>
               if decide (f = name)
               then foldl (λ reg '(i, ind), addIndex ind i f reg) reg (imap pair v)
               else reg
           | _ => reg
           end) reg order.

(** *** Inversion of the mappings *)

(** A mapping table is an object keyed by map-to dimension name. *)
Definition mapping_get (key : string) (m : list (string * list (option string)))
  : option (list (option string)) :=
  snd <$> find (λ e, bool_decide (e.1 = key)) m.

Fixpoint mapping_set (key : string) (v : list (option string))
    (m : list (string * list (option string))) : list (string * list (option string)) :=
  match m with
  | [] => [(key, v)]
  | e :: m' => if decide (e.1 = key) then (key, v) :: m' else e :: mapping_set key v m'
  end.

(** [setMappingValue(toIndNumber, fromIndName)].  [toIndNumber] is the result
    of [indexOf], [None] standing for [-1].  The branch for a position outside
    the map-to dimension builds its message from [toSubName], a variable
    declared inside the loop that calls the closure and so out of the
    closure's scope: evaluating the message throws a [ReferenceError] and
    [console.error] is not reached. *)
Definition setMappingValue (toDim : Sub) (inverted : list (option string))
    (toIndNumber : option nat) (fromIndName : string) : Js.Result (list (option string)) :=
  match toIndNumber with
  | Some n =>
      if decide (n < size toDim) then Js.Ok (Js.array_set n fromIndName inverted)
      else Js.Throw (Js.ReferenceError "toSubName")
  | None => Js.Throw (Js.ReferenceError "toSubName")
  end.

(** [toDim.value.indexOf(name)]; a [TypeError] when [toDim] is [undefined] or
    is an index, whose value is a number. *)
Definition toDimIndexOf (toDim : option Sub) (name : string) : Js.Result (Sub * option nat) :=
  match toDim with
  | Some d =>
      match value d with
      | DimValue tv => Js.Ok (d, Js.indexOf name tv)
      | IndexValue _ => Js.Throw Js.TypeError
      end
  | None => Js.Throw Js.TypeError
  end.

Definition fillIndex (toDim : option Sub) (fromIndName : string)
    (inverted : list (option string)) (toIndName : string) : Js.Result (list (option string)) :=
  r ← toDimIndexOf toDim toIndName;
  setMappingValue r.1 inverted r.2 fromIndName.

(** The body of [for (let i = 0; i < fromDim.value.length; i++)]: [toSubName]
    is [mappingValue[i]], [None] when the mapping value is shorter than the
    map-from dimension. *)
Definition invertStep (reg : gmap string Sub) (toDim : option Sub)
    (inverted : list (option string)) (entry : string * option string)
  : Js.Result (list (option string)) :=
  let '(fromIndName, toSubName) := entry in
  match toSubName with
  | Some name =>
      match reg !! name with
      | Some (mkSub (DimValue tsv) _ _ _) =>
          Js.foldM (fillIndex toDim fromIndName) inverted tsv
      | Some (mkSub (IndexValue _) _ _ _) =>
          fillIndex toDim fromIndName inverted name
      | None => Js.Throw Js.TypeError
      end
  | None => Js.Throw Js.TypeError
  end.

Definition invertMapping (reg : gmap string Sub) (fromValue : list string)
    (toDimName : string) (mappingValue : list (option string))
  : Js.Result (list (option string)) :=
  if decide (mappingValue = []) then Js.Ok (Some <$> fromValue)
  else Js.foldM (invertStep reg (reg !! toDimName)) []
                (imap (λ i fromIndName, (fromIndName, mjoin (mappingValue !! i))) fromValue).

(** The body of [for (let toDimName in fromDim.mappings)]: the map-from
    dimension is read through the registry and its mapping is replaced in
    place. *)
Definition invertDimMapping (fromName : string) (reg : gmap string Sub) (toDimName : string)
  : Js.Result (gmap string Sub) :=
  match reg !! fromName with
  | Some (mkSub (DimValue v) sz f m) =>
      match mapping_get toDimName m with
      | Some mappingValue =>
          inverted ← invertMapping reg v toDimName mappingValue;
          Js.Ok (<[fromName := mkSub (DimValue v) sz f (mapping_set toDimName inverted m)]> reg)
      | None => Js.Ok reg
      end
  | _ => Js.Ok reg
  end.

Definition invertDim (reg : gmap string Sub) (fromName : string) : Js.Result (gmap string Sub) :=
  match reg !! fromName with
  | Some (mkSub (DimValue _) _ _ m) => Js.foldM (invertDimMapping fromName) reg (m.*1)
  | _ => Js.Ok reg
  end.

Definition invertMappings (order : list string) (reg : gmap string Sub)
  : Js.Result (gmap string Sub) :=
  Js.foldM invertDim reg order.

(** The map-to indices a mapping entry stands for: the indices of the
    dimension it names, or the index it names. *)
Definition targets (reg : gmap string Sub) (toSubName : string) : option (list string) :=
  match reg !! toSubName with
  | Some (mkSub (DimValue tsv) _ _ _) => Some tsv
  | Some (mkSub (IndexValue _) _ _ _) => Some [toSubName]
  | None => None
  end.

Definition entryTargets (reg : gmap string Sub) (mappingValue : list (option string))
    (i : nat) : option (list string) :=
  mjoin (mappingValue !! i) ≫= targets reg.

(** A mapping value is well formed for a map-from value when the map-to
    dimension exists and every entry, one per map-from index, stands for
    indices of the map-to dimension. *)
Definition validMapping (reg : gmap string Sub) (fromValue : list string)
    (toDimName : string) (mappingValue : list (option string)) : Prop :=
  ∃ tv sz f m, reg !! toDimName = Some (mkSub (DimValue tv) sz f m)
    ∧ ∀ i, i < length fromValue →
        ∃ ts, entryTargets reg mappingValue i = Some ts
              ∧ ∀ t, t ∈ ts → ∃ p, Js.indexOf t tv = Some p ∧ p < sz.

(** [fromIndName] is the last map-from index with an entry that stands for
    the map-to index at position [p]. *)
Definition mapsOnto (reg : gmap string Sub) (fromValue : list string)
    (toValue : list string) (mappingValue : list (option string))
    (fromIndName : string) (p : nat) : Prop :=
  ∃ i ts t, fromValue !! i = Some fromIndName
    ∧ entryTargets reg mappingValue i = Some ts ∧ t ∈ ts ∧ Js.indexOf t toValue = Some p
    ∧ ∀ j ts' t', i < j → j < length fromValue →
        entryTargets reg mappingValue j = Some ts' → t' ∈ ts' →
        Js.indexOf t' toValue ≠ Some p.

Definition fillAt (toValue : list string) (fromIndName : string)
    (inverted : list (option string)) (toIndName : string) : list (option string) :=
  Js.array_set (default 0 (Js.indexOf toIndName toValue)) fromIndName inverted.

Definition fillEntry (toValue : list string) (inverted : list (option string))
    (e : string * list string) : list (option string) :=
  foldl (fillAt toValue e.1) inverted e.2.

(** The inverted value of one mapping, on the registry the loop starts from. *)
Definition inverted0 (reg0 : gmap string Sub) (v : list string)
    (e : string * list (option string)) : string * list (option string) :=
  (e.1, match invertMapping reg0 v e.1 e.2 with Js.Ok i => i | Js.Throw _ => [] end).

Definition invertible (reg0 : gmap string Sub) (v : list string)
    (m : list (string * list (option string))) : Prop :=
  ∀ e, e ∈ m → ∃ i, invertMapping reg0 v e.1 e.2 = Js.Ok i.

(** The record the inversion loop leaves for the name [n] of [reg0]. *)
Definition stored (reg0 : gmap string Sub) (n : string) : option Sub :=
  (λ d, match value d with
        | DimValue v => set_mappings (inverted0 reg0 v <$> mappings d) d
        | IndexValue _ => d
        end) <$> reg0 !! n.

Definition invertibleDim (reg0 : gmap string Sub) (n : string) : Prop :=
  ∀ v sz f m, reg0 !! n = Some (mkSub (DimValue v) sz f m) →
              NoDup (m.*1) ∧ invertible reg0 v m.

(** [readSubscriptRanges], from the registry as the range reader leaves it. *)
Definition readSubscriptRanges (fuel : nat) (dimensionFamilies : option (gmap string string))
    (r : Registry) : option (Js.Result Registry) :=
  match expandDimensions fuel (dims r) (subs r) with
  | None => None
  | Some reg1 =>
      let reg3 := defineIndices (dims r) (resolveFamilies dimensionFamilies (dims r) reg1) in
      Some (reg4 ← invertMappings (dims r) reg3; Js.Ok (mkRegistry reg4 (dims r)))
  end.

(** *** What the loops leave alone *)

(** The expansion loop writes the value and the size of a dimension and
    nothing else. *)
Definition sameButValue (d d' : Sub) : Prop :=
  family d' = family d ∧ mappings d' = mappings d
  ∧ match value d with
    | DimValue _ => ∃ v', value d' = DimValue v'
    | IndexValue _ => d' = d
    end.

Definition expansionFrame (order : list string) (reg reg' : gmap string Sub) : Prop :=
  ∀ n, (n ∉ order → reg' !! n = reg !! n)
       ∧ match reg !! n with
         | Some d => ∃ d', reg' !! n = Some d' ∧ sameButValue d d'
         | None => reg' !! n = None
         end.

(** *** The indices the index loop defines *)

(** The calls [addIndex(dim.value[i], i, dim.family)] made for one name of
    [allDims], as the pairs of an index name and the subscript registered
    for it. *)
Definition indexDefs (reg : gmap string Sub) (name : string) : list (string * Sub) :=
  match reg !! name with
  | Some (mkSub (DimValue v) _ f _) =>
      if decide (f = name) then imap (λ i ind, (ind, mkSub (IndexValue i) 1 f [])) v else []
  | _ => []
  end.

(** The inversion loop writes the mapping values of the dimensions and
    nothing else. *)
Definition sameButMappings (d d' : Sub) : Prop :=
  value d' = value d ∧ size d' = size d ∧ family d' = family d
  ∧ (mappings d').*1 = (mappings d).*1
  ∧ match value d with
    | DimValue _ => True
    | IndexValue _ => d' = d
    end.

Definition inversionFrame (order : list string) (reg reg' : gmap string Sub) : Prop :=
  ∀ n, (n ∉ order → reg' !! n = reg !! n)
       ∧ match reg !! n with
         | Some d => ∃ d', reg' !! n = Some d' ∧ sameButMappings d d'
         | None => reg' !! n = None
         end.

(** What the filling keeps true of the array: it is no longer than the
    map-to dimension and holds map-from indices only. *)
Definition shapedArray (sz : nat) (names : list string) (a : list (option string)) : Prop :=
  length a ≤ sz ∧ ∀ p y, a !! p = Some (Some y) → y ∈ names.

(** A position of an array holds a value: it is neither a hole nor past the
    end. *)
Definition filled (a : list (option string)) (p : nat) : Prop :=
  ∃ y, a !! p = Some (Some y).

End Ranges.

(** ** The variable table and its analysis ([src/Model.js]) *)
Module Model.
Import Subscript.

(** A variable record.  Only the fields the analysis reads or writes are kept;
    [varType] is the string the code compares against ['const'], ['aux'], ... *)
Record Var := mkVar {
  modelLHS : string;
  varName : string;
  subscripts : list string;
  refId : string;
  varType : string;
  hasInitValue : bool;
  references : list string;
  initReferences : list string
}.

#[export] Instance Var_eq_dec : EqDecision Var.
Proof. solve_decision. Defined.

Definition set_refId (r : string) (v : Var) : Var :=
  mkVar (modelLHS v) (varName v) (subscripts v) r (varType v) (hasInitValue v)
        (references v) (initReferences v).

Definition set_refs (refs initRefs : list string) (v : Var) : Var :=
  mkVar (modelLHS v) (varName v) (subscripts v) (refId v) (varType v) (hasInitValue v)
        refs initRefs.

(** Modelled from the spec: [Variable.hasSubscripts()] ([src/Variable.js] is
    not part of the sources at hand) tells whether the subscript list is
    non-empty. *)
Definition hasSubscripts (v : Var) : bool := negb (bool_decide (subscripts v = [])).

(** The module state: [variables] and [nonAtoANames]. *)
Record State := mkState {
  variables : list Var;
  nonAtoANames : gmap string (list bool)
}.

(** [R.forEach(f, variables)] where [f] mutates the record it is given: the
    records are visited by position and each one is replaced in the table, so
    that [f] sees the updates made for earlier positions. *)
Definition forEachVar (f : list Var → Var → Var) (vars : list Var) : list Var :=
  foldl (λ tbl i, match tbl !! i with
                  | Some v => <[i := f tbl v]> tbl
                  | None => tbl
                  end) vars (seq 0 (length vars)).

Definition varWithName (vars : list Var) (name : string) : option Var :=
  find (λ v, bool_decide (varName v = name)) vars.

Definition varsWithName (vars : list Var) (name : string) : list Var :=
  filter (λ v, varName v = name) vars.

Definition refIdsWithName (vars : list Var) (name : string) : list string :=
  refId <$> varsWithName vars name.

Definition varNames (vars : list Var) : list string :=
  Js.sort_strings (Js.uniq (varName <$> vars)).

(** *** Non-apply-to-all detection *)

(** [areSubsEqual(vars, i)]; reading a subscript past the end of a list gives
    [undefined], here [None]. *)
Definition areSubsEqual (vars : list Var) (i : nat) : bool :=
  match vars with
  | [] => true
  | v0 :: _ =>
      forallb (λ v, bool_decide (subscripts v !! i = subscripts v0 !! i)) vars
  end.

Definition expansionDims (vars : list Var) : list bool :=
  match vars with
  | [] => []
  | v0 :: _ => (λ i, negb (areSubsEqual vars i)) <$> seq 0 (length (subscripts v0))
  end.

Definition findNonAtoAVars (st : State) : State :=
  mkState (variables st)
    (foldl (λ names name,
              let vars := varsWithName (variables st) name in
              if decide (1 < length vars) then <[name := expansionDims vars]> names
              else names)
           (nonAtoANames st) (varNames (variables st))).

Definition addNonAtoAVar (name : string) (flags : list bool) (st : State) : State :=
  mkState (variables st) (<[name := flags]> (nonAtoANames st)).

Definition isNonAtoAName (names : gmap string (list bool)) (name : string) : bool :=
  bool_decide (is_Some (names !! name)).

(** *** Reference identifiers *)

Definition refIdForVar (names : gmap string (list bool)) (v : Var) : string :=
  if hasSubscripts v && isNonAtoAName names (varName v)
  then varName v +:+ "[" +:+ Js.join "," (subscripts v) +:+ "]"
  else varName v.

Definition setRefIds (st : State) : State :=
  mkState (forEachVar (λ _ v, set_refId (refIdForVar (nonAtoANames st) v) v) (variables st))
          (nonAtoANames st).

(** The matches of the global regular expression [/\w+|\[/g], left to right:
    a maximal run of word characters or an opening bracket; any other
    character is skipped.  [cur] is the run being read. *)
Inductive Token := TWord (w : string) | TBracket.

Definition flush (cur : string) : list Token :=
  if decide (cur = "") then [] else [TWord cur].

Fixpoint scan (cur : string) (s : string) : list Token :=
  match s with
  | "" => flush cur
  | String c s' =>
      if Js.is_word_char c then scan (cur +:+ String c "") s'
      else flush cur ++ (if decide (c = "["%char) then [TBracket] else []) ++ scan "" s'
  end.

Record RefIdParts := mkParts { partName : string; partSubscripts : list string }.

(** The body of the [while ((m = re.exec(refId)))] loop of [splitRefId]. *)
Definition splitStep (acc : bool * string * list string) (t : Token)
  : bool * string * list string :=
  let '(inSubs, name, subscripts) := acc in
  match t with
  | TBracket => (true, name, subscripts)
  | TWord w => if inSubs then (inSubs, name, subscripts ++ [w]) else (inSubs, w, subscripts)
  end.

Definition splitRefId (reg : gmap string Sub) (refId : string) : RefIdParts :=
  let '(_, name, subscripts) := foldl splitStep (false, "", []) (scan "" refId) in
  mkParts name (normalizeSubscripts reg subscripts).

(** *** Binding a reference to a record *)

(** One position of the comparison loop of [varWithRefId]: [s] is the
    subscript of the candidate record, [r] the subscript of the reference at
    the same position ([None] when the reference has fewer subscripts). *)
Definition posMatch (reg : gmap string Sub) (s : string) (r : option string) : bool :=
  match r with
  | None => false
  | Some r =>
      if (isIndex reg s && isIndex reg r) || (isDimension reg s && isDimension reg r)
      then bool_decide (s = r)
      else if isDimension reg s && isIndex reg r
      then match dimValue reg s with
           | Some v => bool_decide (r ∈ v)
           | None => false
           end
      else false
  end.

Fixpoint subsMatchFrom (reg : gmap string Sub) (pos : nat)
    (subscripts refSubscripts : list string) : bool :=
  match subscripts with
  | [] => true
  | s :: rest =>
      posMatch reg s (refSubscripts !! pos) && subsMatchFrom reg (S pos) rest refSubscripts
  end.

Definition subsMatch (reg : gmap string Sub) (subscripts refSubscripts : list string) : bool :=
  subsMatchFrom reg 0 subscripts refSubscripts.

Definition findByRefId (vars : list Var) (r : string) : option Var :=
  find (λ v, bool_decide (refId v = r)) vars.

Definition varWithRefId (reg : gmap string Sub) (vars : list Var) (r : string) : option Var :=
  match findByRefId vars r with
  | Some v => Some v
  | None =>
      let parts := splitRefId reg r in
      match find (λ varRefId,
                    subsMatch reg (partSubscripts (splitRefId reg varRefId))
                              (partSubscripts parts))
                 (refIdsWithName vars (partName parts)) with
      | Some varRefId => findByRefId vars varRefId
      | None => None
      end
  end.

(** A record is a candidate for a reference when it has the reference's refId,
    or when it has the reference's varName and the subscripts of its refId
    subsume those of the reference. *)
Definition candidate (reg : gmap string Sub) (r : string) (c : Var) : Prop :=
  refId c = r
  ∨ (varName c = partName (splitRefId reg r)
     ∧ subsMatch reg (partSubscripts (splitRefId reg (refId c)))
                 (partSubscripts (splitRefId reg r)) = true).

(** *** Constant-reference pruning *)

Definition isConstType (t : string) : bool :=
  bool_decide (t = "const") || bool_decide (t = "data") || bool_decide (t = "lookup").

Definition refIsConst (reg : gmap string Sub) (vars : list Var) (r : string) : bool :=
  match varWithRefId reg vars r with
  | Some v => isConstType (varType v)
  | None => false
  end.

Definition pruneRefs (reg : gmap string Sub) (vars : list Var) (v : Var) : Var :=
  set_refs (filter (λ r, refIsConst reg vars r = false) (references v))
           (filter (λ r, refIsConst reg vars r = false) (initReferences v)) v.

Definition removeConstRefs (reg : gmap string Sub) (st : State) : State :=
  mkState (forEachVar (pruneRefs reg) (variables st)) (nonAtoANames st).

(** Binding a reference reads only the refId, varName and varType of the
    records, which pruning leaves alone. *)
Definition key (v : Var) : string * string * string := (refId v, varName v, varType v).

(** *** Evaluation orders *)

(** [varsOfType(varType, vars)]. *)
Definition varsOfType (type : string) (vars : list Var) : list Var :=
  filter (λ v, varType v = type ∧ varName v ≠ "_time") vars.

(** Modelled from the spec: [vsort] of [src/Helpers.js], which is not part of
    the sources at hand, sorts variables by refId. *)
Definition vsort (vars : list Var) : list Var :=
  Js.sort_by (λ a b, Js.str_gt (refId a) (refId b)) vars.

(** The dependency pair for a reference [ref] of [v]. *)
Definition depPair (v ref : Var) : string * string :=
  if bool_decide (varType v = "level") && bool_decide (varType ref = "level")
  then (refId ref, refId v)
  else (refId v, refId ref).

(** [refs(v)] of [sortVarsOfType]; filtering on the varType of a reference
    that binds to no record reads a property of [undefined]. *)
Definition refPairs (reg : gmap string Sub) (vars : list Var) (type : string) (v : Var)
  : Js.Result (list (string * string)) :=
  refs ← Js.requireAll (varWithRefId reg vars <$> references v);
  Js.Ok (depPair v <$> Js.uniq (filter (λ ref, varType ref = type) refs)).

Definition depGraph (reg : gmap string Sub) (vars : list Var) (type : string)
  : Js.Result (list (string * string)) :=
  pairs ← Js.mapM (refPairs reg vars type) (varsOfType type vars);
  Js.Ok (concat pairs).


Definition nodes (graph : list (string * string)) : list string :=
  graph.*1 ++ graph.*2.


(** The references followed at init time. *)
Definition initRefs (v : Var) : list string :=
  if hasInitValue v then initReferences v else references v.

(** [depsMap], a [Map] from refIds to reference lists in insertion order. *)
Definition deps_has (key : string) (m : list (string * list string)) : bool :=
  bool_decide (key ∈ m.*1).

Fixpoint deps_set (key : string) (x : list string) (m : list (string * list string))
  : list (string * list string) :=
  match m with
  | [] => [(key, x)]
  | e :: m' => if decide (e.1 = key) then (key, x) :: m' else e :: deps_set key x m'
  end.

Section sorter.
(** [toposort(graph)]; [None] when it throws on a cyclic graph. *)
Variable toposort : list (string * string) → option (list string).

(** [sortVarsOfType(varType)]. *)
Definition sortVarsOfType (reg : gmap string Sub) (vars : list Var) (type : string)
  : Js.Result (list Var) :=
  graph ← depGraph reg vars type;
  match toposort graph with
  | None => Js.Throw (Js.ProcessExit 1)
  | Some order =>
      let deps := reverse order in
      found ← Js.requireAll (varWithRefId reg vars <$> deps);
      let sortedVars := varsOfType type found in
      let nodepVars := vsort (filter (λ v, v ∉ sortedVars) (varsOfType type vars)) in
      Js.Ok (nodepVars ++ sortedVars)
  end.

(** The body of [R.forEach] in [addDepsToMap]: the queue [vars] is kept with
    its last element first, so that [push] adds at the head and [pop] takes
    the head. *)
Definition enqueueRef (reg : gmap string Sub) (vars : list Var)
    (depsMap : list (string * list string)) (queue : list Var) (r : string) : list Var :=
  if deps_has r depsMap then queue
  else match varWithRefId reg vars r with
       | Some refVar =>
           if negb (bool_decide (varType refVar = "const")) && bool_decide (refVar ∉ queue)
           then refVar :: queue
           else queue
       | None => queue
       end.

(** [addDepsToMap(v)]. *)
Definition addDepsToMap (reg : gmap string Sub) (vars : list Var) (v : Var)
    (st : list Var * list (string * list string)) : list Var * list (string * list string) :=
  let refIds := initRefs v in
  if decide (refIds = []) then st
  else
    let depsMap := deps_set (refId v) refIds st.2 in
    (foldl (enqueueRef reg vars depsMap) st.1 refIds, depsMap).

(** The [while (vars.length > 0)] loop. *)
Fixpoint collectDeps (fuel : nat) (reg : gmap string Sub) (vars : list Var)
    (st : list Var * list (string * list string)) : option (list (string * list string)) :=
  match fuel with
  | 0 => None
  | S fuel' =>
      match st.1 with
      | [] => Some st.2
      | v :: queue => collectDeps fuel' reg vars (addDepsToMap reg vars v (queue, st.2))
      end
  end.

Definition initVarsOf (vars : list Var) : list Var :=
  filter (λ v, hasInitValue v = true) vars.

(** The edge list built from [depsMap]. *)
Definition depEdges (depsMap : list (string * list string)) : list (string * string) :=
  concat ((λ e : string * list string, (λ dep, (e.1, dep)) <$> e.2) <$> depsMap).

Definition initGraph (fuel : nat) (reg : gmap string Sub) (vars : list Var)
  : option (list (string * string)) :=
  depEdges <$> collectDeps fuel reg vars (reverse (initVarsOf vars), []).

(** [sortInitVars()]; [None] when the fuel runs out in the queue loop. *)
Definition sortInitVars (fuel : nat) (reg : gmap string Sub) (vars : list Var)
  : option (Js.Result (list Var)) :=
  (λ graph,
     match toposort graph with
     | None => Js.Throw (Js.ProcessExit 1)
     | Some order =>
         let deps := reverse order in
         found ← Js.requireAll (varWithRefId reg vars <$> deps);
         let sortedVars :=
           filter (λ v, ¬ (varType v = "const" ∨ varType v = "lookup")) found in
         let nodepVars := vsort (filter (λ v, v ∉ sortedVars) (initVarsOf vars)) in
         Js.Ok (nodepVars ++ sortedVars)
     end) <$> initGraph fuel reg vars.
End sorter.






(** Strings made of word characters, as the varNames and subscript names of a
    model in canonical form are. *)
Fixpoint all_word_chars (s : string) : bool :=
  match s with
  | "" => true
  | String c s' => Js.is_word_char c && all_word_chars s'
  end.

Definition is_word (s : string) : Prop := s ≠ "" ∧ all_word_chars s = true.

(** *** The lists of variables handed to the code generator *)

(** [expansionFlags(varName)]; [None] is [undefined]. *)
Definition expansionFlags (names : gmap string (list bool)) (name : string)
  : option (list bool) := names !! name.

(** [addVariable(v)]. *)
Definition addVariable (v : Var) (st : State) : State :=
  mkState (variables st ++ [v]) (nonAtoANames st).

(** [allVars()]: every record but the placeholder for Time. *)
Definition allVars (vars : list Var) : list Var :=
  filter (λ v, varName v ≠ "_time") vars.

(** [constVars()], [lookupVars()] and [dataVars()]. *)
Definition constVars (vars : list Var) : list Var := vsort (varsOfType "const" vars).
Definition lookupVars (vars : list Var) : list Var := vsort (varsOfType "lookup" vars).
Definition dataVars (vars : list Var) : list Var := vsort (varsOfType "data" vars).

(** The first stages of [analyze()]: [findNonAtoAVars()], then [setRefIds()]. *)
Definition assignRefIds (st : State) : State := setRefIds (findNonAtoAVars st).

(** A token of the scanner is an opening bracket or a non-empty word. *)
Definition word_token (t : Token) : Prop :=
  match t with TWord w => is_word w | TBracket => True end.

(** *** Diagnostics *)

(** What the diagnostics print: a call [vlog(title, value)] of
    [src/Helpers.js], a line given to [console.log], a line given to
    [console.error]. *)
Inductive Event :=
| Vlog (title value : string)
| ConsoleLog (line : string)
| ConsoleError (line : string).

(** A loop whose body prints and can throw: the events printed so far are
    kept when an exception ends the loop. *)
Fixpoint forEachLog {A} (f : A → list Event * option Js.JsError) (l : list A)
  : list Event * option Js.JsError :=
  match l with
  | [] => ([], None)
  | x :: l' =>
      match f x with
      | (events, Some e) => (events, Some e)
      | (events, None) => let '(events', err) := forEachLog f l' in (events ++ events', err)
      end
  end.

(** The body of the first loop of [printRefIdTest].  [printVars] is neither
    defined in the module nor imported into it: the calls throw a
    [ReferenceError]. *)
Definition checkInstances (st : State) (v : Var) : list Event * option Js.JsError :=
  let vars := varsWithName (variables st) (varName v) in
  if hasSubscripts v then
    if isNonAtoAName (nonAtoANames st) (varName v) then
      if decide (length vars < 2)
      then ([Vlog "ERROR: only one instance of non-apply-to-all array" (varName v)], None)
      else ([], None)
    else
      if decide (1 < length vars)
      then ([Vlog "ERROR: more than one instance of apply-to-all array" (varName v)],
            Some (Js.ReferenceError "printVars"))
      else ([], None)
  else
    if decide (1 < length vars)
    then ([Vlog "ERROR: more than one instance of scalar var" (varName v)],
          Some (Js.ReferenceError "printVars"))
    else ([], None).

(** [checkRefVar(refId)]. *)
Definition checkRefVar (vars : list Var) (r : string) : list Event :=
  match findByRefId vars r with
  | Some _ => []
  | None => [Vlog "ERROR: no var for refId" r]
  end.

(** [printRefIdTest()]. *)
Definition printRefIdTest (st : State) : list Event * option Js.JsError :=
  match forEachLog (checkInstances st) (variables st) with
  | (events, Some e) => (events, Some e)
  | (events, None) =>
      (events ++ concat ((λ v, concat (checkRefVar (variables st) <$> references v)
                               ++ concat (checkRefVar (variables st) <$> initReferences v))
                         <$> variables st), None)
  end.


(** [printRefs(v, indent, stack)] of [printRefGraph]; [None] when the fuel
    runs out.  The record looked up for a reference is [undefined] when no
    record has that refId, and reading its references throws. *)
Fixpoint printRefs (fuel : nat) (vars : list Var) (v : option Var) (indent : nat)
    (stack : list string) : option (list Event * option Js.JsError) :=
  match fuel with
  | 0 => None
  | S fuel' =>
      match v with
      | None => Some ([], Some Js.TypeError)
      | Some v =>
          (fix loop (refs : list string) : option (list Event * option Js.JsError) :=
             match refs with
             | [] => Some ([], None)
             | r :: refs' =>
                 if decide (r ∈ stack) then loop refs'
                 else
                   let line := ConsoleLog (String.concat "" (replicate indent "  ") +:+ r) in
                   match printRefs fuel' vars (findByRefId vars r) (S indent) (stack ++ [r]) with
                   | None => None
                   | Some (events, Some e) => Some (line :: events, Some e)
                   | Some (events, None) =>
                       match loop refs' with
                       | None => None
                       | Some (events', err) => Some (line :: events ++ events', err)
                       end
                   end
             end) (references v)
      end
  end.

(** The body of [for (let v of varsWithName(varName))] in [printRefGraph]. *)
Fixpoint printRefGraphs (fuel : nat) (vars : list Var) (roots : list Var)
  : option (list Event * option Js.JsError) :=
  match roots with
  | [] => Some ([], None)
  | v :: roots' =>
      match printRefs fuel vars (Some v) 1 [] with
      | None => None
      | Some (events, Some e) => Some (ConsoleLog (varName v) :: events, Some e)
      | Some (events, None) =>
          match printRefGraphs fuel vars roots' with
          | None => None
          | Some (events', err) => Some (ConsoleLog (varName v) :: events ++ events', err)
          end
      end
  end.

(** [printRefGraph(varName)]. *)
Definition printRefGraph (fuel : nat) (vars : list Var) (name : string)
  : option (list Event * option Js.JsError) :=
  printRefGraphs fuel vars (varsWithName vars name).

(** Every reference of every record, and those not yet on the stack of the
    walk. *)
Definition allRefs (vars : list Var) : list string := concat (references <$> vars).

Definition unvisited (vars : list Var) (stack : list string) : list string :=
  filter (λ r, r ∉ stack) (allRefs vars).
(** *** Checking the variables of the spec *)

(** The var lists of the I/O spec, arrays of names in canonical form; [None]
    stands for a list the spec does not give. *)
Record SpecVars := mkSpecVars {
  inputVars : option (list string);
  outputVars : option (list string)
}.

(** [R.contains('[', varName)]. *)
Definition has_bracket (s : string) : bool :=
  bool_decide ("["%char ∈ String.list_ascii_of_string s).

Section checkSpecVars.
(** The collaborators of [checkSpecVars]: the text [R.reduce] builds with
    [listConcat] from the points of an external data series,
    [decanonicalize] of [src/Helpers.js], and [addEquation], which runs the
    parser and the readers on the equation and can throw. *)
Context {Points : Type}.
Variable lookupText : Points → string.
Variable decanonicalize : string → string.
Variable addEquation : string → State → Js.Result State.

(** The body of [for (let varName of varNames)] in [check]; the lines given
    to [console.error] are collected beside the state. *)
Definition checkVar (extData : gmap string Points) (specType : string)
    (acc : State * list Event) (name : string) : Js.Result (State * list Event) :=
  if has_bracket name then Js.Ok acc
  else
    match findByRefId (variables acc.1) name with
    | Some _ => Js.Ok acc
    | None =>
        match extData !! name with
        | Some points =>
            st ← addEquation (decanonicalize name +:+ " = WITH LOOKUP(Time, ("
                              +:+ lookupText points +:+ "))") acc.1;
            Js.Ok (st, acc.2)
        | None =>
            Js.Ok (acc.1, acc.2 ++ [ConsoleError (specType +:+ " variable " +:+ name
                      +:+ " not found in the model or external data sources")])
        end
    end.

(** [check(varNames, specType)]. *)
Definition check (extData : gmap string Points) (names : option (list string))
    (specType : string) (acc : State * list Event) : Js.Result (State * list Event) :=
  match names with
  | Some l => Js.foldM (checkVar extData specType) acc l
  | None => Js.Ok acc
  end.

(** [checkSpecVars(spec, extData)]; [None] is a spec that is not given. *)
Definition checkSpecVars (spec : option SpecVars) (extData : gmap string Points) (st : State)
  : Js.Result (State * list Event) :=
  match spec with
  | Some spec =>
      acc ← check extData (inputVars spec) "input" (st, []);
      check extData (outputVars spec) "output" acc
  | None => Js.Ok (st, [])
  end.
End checkSpecVars.

(** The names of a spec list that are looked for in the table and not found:
    those without an opening bracket that are the refId of no record. *)
Definition missingVars (vars : list Var) (names : option (list string)) : list string :=
  filter (λ n, has_bracket n = false ∧ findByRefId vars n = None) (default [] names).

Definition notFound (specType name : string) : Event :=
  ConsoleError (specType +:+ " variable " +:+ name
                +:+ " not found in the model or external data sources").

End Model.

(** ** Loading the I/O spec ([src/sde-generate.js]) *)
Module Generate.

(** Parsed JSON.  An object lists its properties in insertion order. *)
#[local] Unset Elimination Schemes.
Inductive Json :=
| JNull
| JBool (b : bool)
| JNumber (n : Z)
| JString (s : string)
| JArray (elements : list Json)
| JObject (properties : list (string * Json)).
#[local] Set Elimination Schemes.

(** The read [o[name]] of a property; [None] is [undefined]. *)
Definition getProp (name : string) (o : Json) : option Json :=
  match o with
  | JObject properties => snd <$> find (λ p, bool_decide (p.1 = name)) properties
  | _ => None
  end.

(** The assignment [o[name] = x] on an object. *)
Fixpoint setField (name : string) (x : Json) (properties : list (string * Json))
  : list (string * Json) :=
  match properties with
  | [] => [(name, x)]
  | p :: rest => if decide (p.1 = name) then (name, x) :: rest
                 else p :: setField name x rest
  end.

Definition setProp (name : string) (x : Json) (o : Json) : Json :=
  match o with
  | JObject properties => JObject (setField name x properties)
  | _ => o
  end.

(** Truthiness of a value read from a property. *)
Definition truthy (x : option Json) : bool :=
  match x with
  | None | Some JNull | Some (JBool false) | Some (JNumber 0) | Some (JString "") => false
  | Some _ => true
  end.

(** The properties a [for ... in] loop enumerates, with their values. *)
Definition enumerate (x : Json) : list (string * Json) :=
  match x with
  | JObject properties => properties
  | JArray elements => imap (λ i e, (pretty i, e)) elements
  | JString s => imap (λ i c, (pretty i, JString (String c ""))) (String.list_ascii_of_string s)
  | _ => []
  end.

Section load.
(** The collaborators of the loader: [B.read], which throws when the file
    cannot be read, the host's [JSON.parse], which throws on text that is not
    JSON, and [canonicalName] of [src/Helpers.js]; [None] stands for a thrown
    exception. *)
Variable read : string → option string.
Variable JSON_parse : string → option Json.
Variable canonicalName : Json → option string.

(** [parseJsonFile]: whatever is thrown inside the [try] block is caught and
    dropped, and the initial value [{}] of [result] is returned. *)
Definition parseJsonFile (filename : string) : Json :=
  match read filename with
  | Some json =>
      match JSON_parse json with
      | Some result => result
      | None => JObject []
      end
  | None => JObject []
  end.

(** The loop of [parseSpec] filling [f]. *)
Definition canonicalFamilies (families : Json) : Js.Result (list (string * Json)) :=
  Js.foldM (λ f p,
              match canonicalName (JString p.1), canonicalName p.2 with
              | Some dimName, Some family => Js.Ok (setField dimName (JString family) f)
              | _, _ => Js.Throw Js.TypeError
              end) [] (enumerate families).

(** [parseSpec]; reading a property of [null] throws. *)
Definition parseSpec (specFilename : string) : Js.Result Json :=
  let spec := parseJsonFile specFilename in
  match spec with
  | JNull => Js.Throw Js.TypeError
  | _ =>
      if truthy (getProp "dimensionFamilies" spec) then
        f ← canonicalFamilies (default JNull (getProp "dimensionFamilies" spec));
        Js.Ok (setProp "dimensionFamilies" (JObject f) spec)
      else Js.Ok spec
  end.
End load.

(** An uncaught exception ends the process with a non-zero exit code after it
    has been printed to the error stream; the loader itself calls neither
    [console.error] nor [process.exit]. *)
Definition exitsWithDiagnostic {A} (r : Js.Result A) : Prop := ∃ e, r = Js.Throw e.

End Generate.

(** ** Sample models, used to instantiate the statements below *)
Module Ex.
Import Subscript Ranges Model.

Definition dimSub (v : list string) (fam : string) : Sub :=
  mkSub (DimValue v) (length v) fam [].
Definition indexSub (i : nat) (fam : string) : Sub :=
  mkSub (IndexValue i) 1 fam [].

(** DimA: A1, A2, A3; SubA: A2, A3; DimB: B1, B2. *)
Definition subs1 : gmap string Sub :=
  list_to_map
    [ ("_dima", dimSub ["_a1"; "_a2"; "_a3"] "_dima");
      ("_suba", dimSub ["_a2"; "_a3"] "_dima");
      ("_dimb", dimSub ["_b1"; "_b2"] "_dimb");
      ("_a1", indexSub 0 "_dima"); ("_a2", indexSub 1 "_dima"); ("_a3", indexSub 2 "_dima");
      ("_b1", indexSub 0 "_dimb"); ("_b2", indexSub 1 "_dimb") ].

(** x[A1] = 1, x[A2] = 2, y[DimA] = 3, before refIds are assigned. *)
Definition raw (lhs name : string) (subscripts : list string) : Var :=
  mkVar lhs name subscripts "" "" false [] [].

Definition table1 : State :=
  mkState [ raw "x[A1]" "_x" ["_a1"]; raw "x[A2]" "_x" ["_a2"];
            raw "y[DimA]" "_y" ["_dima"]; raw "Time" "_time" [] ] ∅.


Definition z_a1_b1 : Var := mkVar "z[A1,B1]" "_z" ["_a1"; "_b1"] "" "" false [] [].

(** c = 5 (const), b = 2 * Time, a = b + c, w[A1] = 1, w[SubA] = a, with refIds
    assigned and the references as the equation reader leaves them. *)
Definition table2 : State :=
  mkState [ mkVar "c" "_c" [] "_c" "const" false [] [];
            mkVar "b" "_b" [] "_b" "aux" false ["_time"] [];
            mkVar "a" "_a" [] "_a" "aux" false ["_b"; "_c"] [];
            mkVar "w[A1]" "_w" ["_a1"] "_w[_a1]" "const" false [] [];
            mkVar "w[SubA]" "_w" ["_suba"] "_w[_suba]" "aux" false ["_a"] [];
            mkVar "Time" "_time" [] "_time" "" false [] [] ]
          {[ "_w" := [true] ]}.

Definition a_pruned : Var := mkVar "a" "_a" [] "_a" "aux" false ["_b"] [].
Definition b_var : Var := mkVar "b" "_b" [] "_b" "aux" false ["_time"] [].

(** Declared ranges: All: North, South; North: N1, N2; South: S1; and the
    cyclic pair A: B, B: A. *)
Definition dimDecl (v : list string) (name : string)
    (m : list (string * list (option string))) : Sub :=
  mkSub (DimValue v) (length v) name m.

Definition nested : gmap string Sub :=
  list_to_map [ ("_all", dimDecl ["_north"; "_south"] "_all" []);
                ("_north", dimDecl ["_n1"; "_n2"] "_north" []);
                ("_south", dimDecl ["_s1"] "_south" []) ].

Definition nested_rank (n : string) : nat := if decide (n = "_all") then 1 else 0.

Definition cyclic : gmap string Sub :=
  list_to_map [ ("_a", dimDecl ["_b"] "_a" []); ("_b", dimDecl ["_a"] "_b" []) ].

(** DimA: A1, A2, A3; SubA: A2, A3; DimC: A2, C1, C2; DimB: B1, B2, as
    declared and expanded, before families are resolved. *)
Definition ranges1 : gmap string Sub :=
  list_to_map [ ("_dima", dimDecl ["_a1"; "_a2"; "_a3"] "_dima" []);
                ("_suba", dimDecl ["_a2"; "_a3"] "_suba" []);
                ("_dimc", dimDecl ["_a2"; "_c1"; "_c2"] "_dimc" []);
                ("_dimb", dimDecl ["_b1"; "_b2"] "_dimb" []) ].

Definition order1 : list string := ["_dima"; "_suba"; "_dimc"; "_dimb"].

(** F: F1, F2 -> (T: T2, T1); T: T1, T2; X: X1, X2, as declared, and the
    registry when the mappings are inverted. *)
Definition order2 : list string := ["_f"; "_t"; "_x"].

Definition declared2 : Registry :=
  mkRegistry
    (list_to_map [ ("_f", dimDecl ["_f1"; "_f2"] "_f" [("_t", [Some "_t2"; Some "_t1"])]);
                   ("_t", dimDecl ["_t1"; "_t2"] "_t" []);
                   ("_x", dimDecl ["_x1"; "_x2"] "_x" []) ])
    order2.

Definition indexed2 : gmap string Sub :=
  defineIndices order2 (resolveFamilies None order2 (subs declared2)).

(** The same ranges with the mapping F -> (T: T1, X1), whose second entry is
    an index of X and not of T, and with the mapping F -> (T: T1, Nowhere),
    whose second entry is no subscript at all. *)
Definition declared_foreign : Registry :=
  mkRegistry
    (list_to_map [ ("_f", dimDecl ["_f1"; "_f2"] "_f" [("_t", [Some "_t1"; Some "_x1"])]);
                   ("_t", dimDecl ["_t1"; "_t2"] "_t" []);
                   ("_x", dimDecl ["_x1"; "_x2"] "_x" []) ])
    order2.

Definition declared_unknown : Registry :=
  mkRegistry
    (list_to_map [ ("_f", dimDecl ["_f1"; "_f2"] "_f" [("_t", [Some "_t1"; Some "_nowhere"])]);
                   ("_t", dimDecl ["_t1"; "_t2"] "_t" []);
                   ("_x", dimDecl ["_x1"; "_x2"] "_x" []) ])
    order2.

(** A reader of JSON text, standing in for the host's [JSON.parse] on sample
    files: objects, arrays, strings without escapes, integers, [true],
    [false] and [null], separated by JSON white space. *)
Definition json_space (c : ascii) : bool :=
  match c with
  | " "%char | "009"%char | "010"%char | "013"%char => true
  | _ => false
  end.

Fixpoint skip_space (l : list ascii) : list ascii :=
  match l with
  | c :: l' => if json_space c then skip_space l' else l
  | [] => []
  end.

(** The double quote, and a string between double quotes. *)
Local Abbreviation DQUOTE := (Ascii false true false false false true false false).

Definition quoted (s : string) : string := String DQUOTE (s +:+ String DQUOTE "").

Fixpoint read_string (l : list ascii) : option (string * list ascii) :=
  match l with
  | [] => None
  | c :: l' =>
      if nat_of_ascii c =? 34 then Some ("", l')
      else if nat_of_ascii c =? 92 then None
      else if nat_of_ascii c <? 32 then None
      else '(s, rest) ← read_string l'; Some (String c s, rest)
  end.

Definition digit (c : ascii) : option Z :=
  let n := nat_of_ascii c in
  if (48 <=? n) && (n <=? 57) then Some (Z.of_nat (n - 48)) else None.

Fixpoint read_digits (acc : Z) (l : list ascii) : Z * list ascii :=
  match l with
  | c :: l' => match digit c with
               | Some d => read_digits (10 * acc + d) l'
               | None => (acc, l)
               end
  | [] => (acc, [])
  end.

Definition read_number (l : list ascii) : option (Generate.Json * list ascii) :=
  match l with
  | c :: l' =>
      match digit c with
      | Some 0%Z => Some (Generate.JNumber 0, l')
      | Some d => let '(n, rest) := read_digits d l' in Some (Generate.JNumber n, rest)
      | None => None
      end
  | [] => None
  end.

Fixpoint read_value (fuel : nat) (l : list ascii) : option (Generate.Json * list ascii) :=
  match fuel with
  | 0 => None
  | S fuel' =>
      match skip_space l with
      | "{"%char :: r =>
          match skip_space r with
          | "}"%char :: r' => Some (Generate.JObject [], r')
          | _ =>
              (fix members (n : nat) (r : list ascii) (acc : list (string * Generate.Json)) :=
                 match n with
                 | 0 => None
                 | S n' =>
                     match skip_space r with
                     | DQUOTE :: r1 =>
                         '(k, r2) ← read_string r1;
                         match skip_space r2 with
                         | ":"%char :: r3 =>
                             '(v, r4) ← read_value fuel' r3;
                             match skip_space r4 with
                             | ","%char :: r5 => members n' r5 (Generate.setField k v acc)
                             | "}"%char :: r5 =>
                                 Some (Generate.JObject (Generate.setField k v acc), r5)
                             | _ => None
                             end
                         | _ => None
                         end
                     | _ => None
                     end
                 end) fuel' r []
          end
      | "["%char :: r =>
          match skip_space r with
          | "]"%char :: r' => Some (Generate.JArray [], r')
          | _ =>
              (fix elements (n : nat) (r : list ascii) (acc : list Generate.Json) :=
                 match n with
                 | 0 => None
                 | S n' =>
                     '(v, r1) ← read_value fuel' r;
                     match skip_space r1 with
                     | ","%char :: r2 => elements n' r2 (acc ++ [v])
                     | "]"%char :: r2 => Some (Generate.JArray (acc ++ [v]), r2)
                     | _ => None
                     end
                 end) fuel' r []
          end
      | DQUOTE :: r => '(s, r') ← read_string r; Some (Generate.JString s, r')
      | "t"%char :: "r"%char :: "u"%char :: "e"%char :: r => Some (Generate.JBool true, r)
      | "f"%char :: "a"%char :: "l"%char :: "s"%char :: "e"%char :: r =>
          Some (Generate.JBool false, r)
      | "n"%char :: "u"%char :: "l"%char :: "l"%char :: r => Some (Generate.JNull, r)
      | "-"%char :: r =>
          '(v, r') ← read_number r;
          match v with
          | Generate.JNumber n => Some (Generate.JNumber (- n), r')
          | _ => None
          end
      | r => read_number r
      end
  end.

Definition sample_parse (text : string) : option Generate.Json :=
  let l := String.list_ascii_of_string text in
  '(v, rest) ← read_value (S (length l)) l;
  match skip_space rest with
  | [] => Some v
  | _ => None
  end.

(** Canonical names as the glossary has them: lower case, a leading
    underscore, and an underscore for every character that is not a letter
    or a digit; only strings have one. *)
Definition canonical_char (c : ascii) : ascii :=
  let n := nat_of_ascii c in
  if (65 <=? n) && (n <=? 90) then ascii_of_nat (n + 32)
  else if ((97 <=? n) && (n <=? 122)) || ((48 <=? n) && (n <=? 57)) then c
  else "_"%char.

Definition sample_canonicalName (x : Generate.Json) : option string :=
  match x with
  | Generate.JString s =>
      Some (String "_"%char
              (String.string_of_list_ascii
                 (canonical_char <$> String.list_ascii_of_string s)))
  | _ => None
  end.

(** A directory with a spec file cut off in the middle, a well-formed one,
    and nothing else. *)
Definition sample_files (filename : string) : option string :=
  if decide (filename = "broken_spec.json")
  then Some ("{ " +:+ quoted "outputVars" +:+ ": [" +:+ quoted "y")
  else if decide (filename = "spec.json")
  then Some ("{ " +:+ quoted "outputVars" +:+ ": [" +:+ quoted "y" +:+ "], "
             +:+ quoted "dimensionFamilies" +:+ ": { "
             +:+ quoted "Sub A" +:+ ": " +:+ quoted "Dim A" +:+ " } }")
  else None.

(** A stand-in for [toposort] on sample graphs: the nodes in order of first
    appearance, each taken once no remaining node has an edge to it; [None]
    when that gets stuck on a cycle. *)
Fixpoint sample_toposort_go (fuel : nat) (graph : list (string * string))
    (remaining : list string) : option (list string) :=
  match remaining with
  | [] => Some []
  | _ =>
      match fuel with
      | 0 => None
      | S fuel' =>
          match find (λ x, forallb (λ e : string * string,
                                      negb (bool_decide (e.2 = x ∧ e.1 ∈ remaining)))
                                   graph) remaining with
          | Some x => (x ::.) <$> sample_toposort_go fuel' graph (filter (.≠ x) remaining)
          | None => None
          end
      end
  end.

Definition sample_toposort (graph : list (string * string)) : option (list string) :=
  sample_toposort_go (length (nodes graph)) graph (Js.uniq (nodes graph)).

(** d = 7 - Time, b = 2 * Time, a = b + c with c a constant, after analysis. *)
Definition table3 : list Var :=
  [ mkVar "d" "_d" [] "_d" "aux" false ["_time"] [];
    mkVar "a" "_a" [] "_a" "aux" false ["_b"] [];
    mkVar "c" "_c" [] "_c" "const" false [] [];
    mkVar "b" "_b" [] "_b" "aux" false ["_time"] [];
    mkVar "Time" "_time" [] "_time" "" false [] [] ].

(** Two stocks, the first fed by the second: s1 = INTEG(s2 / 10, 0) and
    s2 = INTEG(5, 100). *)
Definition table4 : list Var :=
  [ mkVar "s1" "_s1" [] "_s1" "level" true ["_s2"] [];
    mkVar "s2" "_s2" [] "_s2" "level" true [] [];
    mkVar "Time" "_time" [] "_time" "" false [] [] ].

(** A stock whose initial value is computed from another variable:
    stock = INTEG(inflow, init stock), init stock = base * 2, base = Time + 1
    and inflow = stock / 10, after analysis. *)
Definition table5 : list Var :=
  [ mkVar "stock" "_stock" [] "_stock" "level" true ["_inflow"] ["_init_stock"];
    mkVar "inflow" "_inflow" [] "_inflow" "aux" false ["_stock"] [];
    mkVar "init stock" "_init_stock" [] "_init_stock" "aux" false ["_base"] [];
    mkVar "base" "_base" [] "_base" "aux" false ["_time"] [];
    mkVar "Time" "_time" [] "_time" "" false [] [] ].

(** Two records with init values, each initialised from the other. *)
Definition table6 : list Var :=
  [ mkVar "p" "_p" [] "_p" "level" true [] ["_q"];
    mkVar "q" "_q" [] "_q" "level" true [] ["_p"] ].

End Ex.

(* ===================================================================== *)
(** * Properties *)
(* ===================================================================== *)

(** ** Sorting and duplicate removal *)
Section sort_facts.
Context {A : Type} (gt : A → A → bool).

Lemma insert_by_perm (x : A) (l : list A) : Js.insert_by gt x l ≡ₚ x :: l.
Proof.
  induction l as [|y l IH]; simpl; [done|].
  destruct (gt x y); [|done].
  rewrite IH. apply Permutation_swap.
Qed.

Lemma sort_by_perm (l : list A) : Js.sort_by gt l ≡ₚ l.
Proof.
  induction l as [|x l IH]; simpl; [done|].
  by rewrite insert_by_perm, IH.
Qed.

Lemma sort_by_elem (x : A) (l : list A) : x ∈ Js.sort_by gt l ↔ x ∈ l.
Proof. by rewrite sort_by_perm. Qed.

Lemma sort_by_length (l : list A) : length (Js.sort_by gt l) = length l.
Proof. by rewrite sort_by_perm. Qed.

(** A total and transitive comparator yields a sorted list. *)
Hypothesis gt_total : ∀ a b, gt a b = true → gt b a = false.
Hypothesis gt_trans : ∀ a b c, gt a b = false → gt b c = false → gt a c = false.

Lemma insert_by_sorted (x : A) (l : list A) :
  StronglySorted (Js.le_of gt) l → StronglySorted (Js.le_of gt) (Js.insert_by gt x l).
Proof.
  induction 1 as [|y l Hl IH Hy]; simpl.
  - repeat constructor.
  - destruct (gt x y) eqn:Hxy.
    + constructor; [done|].
      rewrite insert_by_perm. constructor; [|done].
      by apply gt_total.
    + constructor; [by constructor|].
      constructor; [done|].
      eapply Forall_impl; [exact Hy|]. intros z Hz. by eapply gt_trans.
Qed.

Lemma sort_by_sorted (l : list A) : StronglySorted (Js.le_of gt) (Js.sort_by gt l).
Proof. induction l; simpl; [constructor|by apply insert_by_sorted]. Qed.

(** Sorting a sorted list changes nothing. *)
Lemma insert_by_head (x : A) (l : list A) :
  Forall ((Js.le_of gt) x) l → Js.insert_by gt x l = x :: l.
Proof. destruct 1 as [|y l Hy _]; simpl; [done|]. by rewrite Hy. Qed.

Lemma sort_by_id (l : list A) : StronglySorted (Js.le_of gt) l → Js.sort_by gt l = l.
Proof.
  induction 1 as [|x l Hl IH Hx]; simpl; [done|].
  rewrite IH. by apply insert_by_head.
Qed.
End sort_facts.

Lemma uniq_go_elem {A} `{EqDecision A} (x : A) (seen l : list A) :
  x ∈ Js.uniq_go seen l ↔ x ∈ l ∧ x ∉ seen.
Proof.
  revert seen. induction l as [|y l IH]; intros seen; simpl.
  - set_solver.
  - destruct (decide (y ∈ seen)) as [Hy|Hy].
    + rewrite IH. set_solver.
    + rewrite elem_of_cons, IH. destruct (decide (x = y)) as [->|]; set_solver.
Qed.

Lemma uniq_elem {A} `{EqDecision A} (x : A) (l : list A) : x ∈ Js.uniq l ↔ x ∈ l.
Proof. unfold Js.uniq. rewrite uniq_go_elem. set_solver. Qed.

Import Subscript Ranges Model.

(** ** In-place iteration over the variable table *)
Section forEach.
Context (f : list Var → Var → Var) (g : Var → Var) (I : list Var → Prop).
Hypothesis I_step : ∀ tbl i v, I tbl → tbl !! i = Some v → I (<[i := g v]> tbl).
Hypothesis f_g : ∀ tbl v, I tbl → f tbl v = g v.

Lemma forEachVar_go (vars : list Var) (n k : nat) :
  k + n = length vars →
  I (take k (g <$> vars) ++ drop k vars) →
  foldl (λ tbl i, match tbl !! i with
                  | Some v => <[i := f tbl v]> tbl
                  | None => tbl
                  end) (take k (g <$> vars) ++ drop k vars) (seq k n) = g <$> vars.
Proof.
  revert k. induction n as [|n IH]; intros k Hk HI; simpl.
  - rewrite take_ge, drop_ge by (rewrite ?length_fmap; lia). by rewrite app_nil_r.
  - destruct (lookup_lt_is_Some_2 vars k) as [v Hv]; [lia|].
    assert (Hlen : length (take k (g <$> vars)) = k).
    { rewrite length_take, length_fmap. lia. }
    assert (Hlk : (take k (g <$> vars) ++ drop k vars) !! k = Some v).
    { rewrite lookup_app_r by lia. rewrite Hlen, Nat.sub_diag, lookup_drop.
      by rewrite Nat.add_0_r. }
    rewrite Hlk, f_g by done.
    assert (Hnext : <[k := g v]> (take k (g <$> vars) ++ drop k vars)
                    = take (S k) (g <$> vars) ++ drop (S k) vars).
    { rewrite insert_app_r_alt by lia. rewrite Hlen, Nat.sub_diag.
      rewrite (drop_S _ _ _ Hv). simpl.
      erewrite take_S_r by (rewrite list_lookup_fmap, Hv; done).
      by rewrite <- app_assoc. }
    rewrite Hnext. apply IH; [lia|]. rewrite <- Hnext. by eapply I_step.
Qed.

Lemma forEachVar_fmap (vars : list Var) : I vars → forEachVar f vars = g <$> vars.
Proof.
  intros HI. unfold forEachVar.
  apply (forEachVar_go vars (length vars) 0); [done|]. by rewrite take_0, drop_0.
Qed.
End forEach.

(** ** Non-apply-to-all detection and reference identifiers *)

Lemma varNames_elem (vars : list Var) (n : string) :
  n ∈ varNames vars ↔ ∃ v, v ∈ vars ∧ varName v = n.
Proof.
  unfold varNames, Js.sort_strings. rewrite sort_by_elem, uniq_elem, list_elem_of_fmap.
  naive_solver.
Qed.

Lemma varsWithName_nonempty (vars : list Var) (n : string) :
  0 < length (varsWithName vars n) → n ∈ varNames vars.
Proof.
  intros Hlen. apply varNames_elem.
  destruct (varsWithName vars n) as [|v l] eqn:E; simpl in Hlen; [lia|].
  assert (Hv : v ∈ varsWithName vars n) by (rewrite E; left).
  apply list_elem_of_filter in Hv. naive_solver.
Qed.

Lemma findNonAtoA_fold (vars : list Var) (names : gmap string (list bool))
    (l : list string) (n : string) :
  is_Some (foldl (λ names name,
                    let vs := varsWithName vars name in
                    if decide (1 < length vs) then <[name := expansionDims vs]> names
                    else names) names l !! n)
  ↔ is_Some (names !! n) ∨ (n ∈ l ∧ 1 < length (varsWithName vars n)).
Proof.
  revert names. induction l as [|m l IH]; intros names; simpl.
  - set_solver.
  - rewrite IH. destruct (decide (1 < length (varsWithName vars m))) as [Hm|Hm].
    + rewrite lookup_insert_is_Some. rewrite elem_of_cons.
      destruct (decide (m = n)) as [->|]; naive_solver.
    + rewrite elem_of_cons. naive_solver.
Qed.

Lemma findNonAtoAVars_spec (st : State) (n : string) :
  isNonAtoAName (nonAtoANames (findNonAtoAVars st)) n = true
  ↔ is_Some (nonAtoANames st !! n) ∨ 1 < length (varsWithName (variables st) n).
Proof.
  unfold isNonAtoAName. rewrite bool_decide_eq_true. simpl.
  rewrite findNonAtoA_fold. split; [naive_solver|].
  intros [?|Hn]; [by left|right]. split; [|done].
  apply varsWithName_nonempty. lia.
Qed.

Lemma setRefIds_variables (st : State) :
  variables (setRefIds st) = (λ v, set_refId (refIdForVar (nonAtoANames st) v) v) <$> variables st.
Proof.
  simpl. by apply (forEachVar_fmap _ _ (λ _, True)).
Qed.

Lemma varsWithName_fmap (g : Var → Var) (vars : list Var) (n : string) :
  (∀ v, varName (g v) = varName v) →
  varsWithName (g <$> vars) n = g <$> varsWithName vars n.
Proof.
  intros Hg. unfold varsWithName. induction vars as [|v vars IH]; [done|].
  rewrite fmap_cons, !filter_cons, Hg. destruct (decide (varName v = n)); simpl; by rewrite IH.
Qed.



(** ** Splitting a reference identifier *)

Lemma string_app_nil_r (s : string) : s +:+ "" = s.
Proof. induction s as [|c s IH]; [done|]. change (String c (s +:+ "") = String c s). by rewrite IH. Qed.

Lemma string_app_assoc (a b c : string) : (a +:+ b) +:+ c = a +:+ (b +:+ c).
Proof.
  induction a as [|x a IH]; [done|].
  change (String x ((a +:+ b) +:+ c) = String x (a +:+ (b +:+ c))). by rewrite IH.
Qed.

Lemma scan_word (cur w rest : string) :
  all_word_chars w = true → scan cur (w +:+ rest) = scan (cur +:+ w) rest.
Proof.
  revert cur. induction w as [|c w IH]; intros cur Hw.
  - by rewrite string_app_nil_r.
  - simpl in Hw. apply andb_prop in Hw as [Hc Hw].
    change (String c w +:+ rest) with (String c (w +:+ rest)). simpl. rewrite Hc.
    rewrite IH by done. rewrite string_app_assoc. done.
Qed.

Lemma scan_subscripts (l : list string) :
  Forall is_word l → scan "" (Js.join "," l +:+ "]") = TWord <$> l.
Proof.
  induction 1 as [|s l [Hne Hs] Hl IH]; [done|].
  destruct l as [|s' l].
  - simpl. rewrite scan_word by done. simpl. unfold flush. by rewrite decide_False.
  - change (Js.join "," (s :: s' :: l)) with (s +:+ "," +:+ Js.join "," (s' :: l)).
    rewrite !string_app_assoc. rewrite scan_word by done.
    change ("," +:+ Js.join "," (s' :: l) +:+ "]")
      with (String ","%char (Js.join "," (s' :: l) +:+ "]")).
    cbn [scan]. change (Js.is_word_char ","%char) with false. cbn iota.
    rewrite IH. unfold flush. rewrite decide_False by done.
    rewrite decide_False by done. done.
Qed.

Lemma splitStep_words (name : string) (acc l : list string) :
  foldl splitStep (true, name, acc) (TWord <$> l) = (true, name, acc ++ l).
Proof.
  revert acc. induction l as [|s l IH]; intros acc; simpl.
  - by rewrite app_nil_r.
  - rewrite IH. by rewrite <- app_assoc.
Qed.

Lemma splitStep_name (name : string) :
  foldl splitStep (false, "", []) (flush name) = (false, name, []).
Proof. unfold flush. by destruct (decide (name = "")) as [->|]. Qed.

(** C10. Parsing the refId built for a record gives back the record's
    varName, together with its subscripts when the varName is registered as
    non-apply-to-all and with no subscripts otherwise; the varName is made of
    word characters, the subscript names are non-empty words, and the
    subscripts are in normal order (normalisation leaves them as they are). *)
Theorem splitRefId_refIdForVar (reg : gmap string Sub) (names : gmap string (list bool))
    (v : Var) :
  all_word_chars (varName v) = true →
  Forall is_word (subscripts v) →
  normalizeSubscripts reg (subscripts v) = subscripts v →
  splitRefId reg (refIdForVar names v)
  = mkParts (varName v) (if isNonAtoAName names (varName v) then subscripts v else []).
Proof.
  intros Hname Hsubs Hnorm. unfold refIdForVar, hasSubscripts, splitRefId.
  destruct (decide (subscripts v = [])) as [Hnil|Hnil].
  - rewrite bool_decide_eq_true_2 by done. simpl.
    rewrite <- (string_app_nil_r (varName v)) at 1. rewrite scan_word by done.
    simpl. rewrite splitStep_name. rewrite Hnil. by destruct (isNonAtoAName _ _).
  - rewrite bool_decide_eq_false_2 by done. simpl.
    destruct (isNonAtoAName names (varName v)).
    + rewrite scan_word by done.
      change ("[" +:+ Js.join "," (subscripts v) +:+ "]")
        with (String "["%char (Js.join "," (subscripts v) +:+ "]")).
      cbn [scan]. change (Js.is_word_char "["%char) with false. cbn iota.
      rewrite decide_True by done. rewrite scan_subscripts by done.
      rewrite foldl_app, splitStep_name. simpl. rewrite splitStep_words. simpl.
      by rewrite Hnorm.
    + rewrite <- (string_app_nil_r (varName v)) at 1. rewrite scan_word by done.
      simpl. by rewrite splitStep_name.
Qed.

Lemma splitRefId_refIdForVar_witness :
  all_word_chars (varName Ex.z_a1_b1) = true
  ∧ Forall is_word (subscripts Ex.z_a1_b1)
  ∧ normalizeSubscripts Ex.subs1 (subscripts Ex.z_a1_b1) = subscripts Ex.z_a1_b1
  ∧ splitRefId Ex.subs1 (refIdForVar {[ "_z" := [true; true] ]} Ex.z_a1_b1)
    = mkParts "_z" ["_a1"; "_b1"].
Proof.
  assert (H1 : all_word_chars (varName Ex.z_a1_b1) = true) by reflexivity.
  assert (H2 : Forall is_word (subscripts Ex.z_a1_b1)).
  { repeat constructor; discriminate. }
  assert (H3 : normalizeSubscripts Ex.subs1 (subscripts Ex.z_a1_b1)
               = subscripts Ex.z_a1_b1) by (vm_compute; reflexivity).
  split; [exact H1|]. split; [exact H2|]. split; [exact H3|].
  refine (eq_trans
    (splitRefId_refIdForVar Ex.subs1 {[ "_z" := [true; true] ]} Ex.z_a1_b1 H1 H2 H3) _).
  vm_compute. reflexivity.
Defined.

(** ** Constant-reference pruning *)

Lemma findByRefId_keys (t1 t2 : list Var) (r : string) :
  key <$> t1 = key <$> t2 → key <$> findByRefId t1 r = key <$> findByRefId t2 r.
Proof.
  revert t2. induction t1 as [|v1 t1 IH]; intros [|v2 t2] Hk; try done.
  rewrite !fmap_cons in Hk. injection Hk as Hr Hn Hty Ht.
  unfold findByRefId in *. cbn [find].
  do 2 case_bool_decide; simpl; try congruence.
  - unfold key. congruence.
  - by apply IH.
Qed.

Lemma refIdsWithName_keys (t1 t2 : list Var) (n : string) :
  key <$> t1 = key <$> t2 → refIdsWithName t1 n = refIdsWithName t2 n.
Proof.
  revert t2. induction t1 as [|v1 t1 IH]; intros [|v2 t2] Hk; try done.
  rewrite !fmap_cons in Hk. injection Hk as Hr Hn Hty Ht.
  unfold refIdsWithName, varsWithName in *. rewrite !filter_cons.
  do 2 case_decide; try congruence; rewrite ?fmap_cons, ?Hr; by erewrite IH.
Qed.

Lemma varWithRefId_keys (reg : gmap string Sub) (t1 t2 : list Var) (r : string) :
  key <$> t1 = key <$> t2 →
  key <$> varWithRefId reg t1 r = key <$> varWithRefId reg t2 r.
Proof.
  intros Hk. unfold varWithRefId.
  pose proof (findByRefId_keys t1 t2 r Hk) as Hd.
  destruct (findByRefId t1 r), (findByRefId t2 r); try done.
  rewrite (refIdsWithName_keys t1 t2 _ Hk).
  destruct (find _ _); [|done]. by apply findByRefId_keys.
Qed.

Lemma refIsConst_keys (reg : gmap string Sub) (t1 t2 : list Var) (r : string) :
  key <$> t1 = key <$> t2 → refIsConst reg t1 r = refIsConst reg t2 r.
Proof.
  intros Hk. unfold refIsConst.
  pose proof (varWithRefId_keys reg t1 t2 r Hk) as Hv.
  destruct (varWithRefId reg t1 r) as [w1|], (varWithRefId reg t2 r) as [w2|]; try done.
  simpl in Hv. unfold key in Hv. by replace (varType w1) with (varType w2) by congruence.
Qed.

Lemma pruneRefs_keys (reg : gmap string Sub) (t1 t2 : list Var) (v : Var) :
  key <$> t1 = key <$> t2 → pruneRefs reg t1 v = pruneRefs reg t2 v.
Proof.
  intros Hk. unfold pruneRefs.
  f_equal; apply list_filter_iff; intros r; by rewrite (refIsConst_keys reg t1 t2 r Hk).
Qed.

Lemma removeConstRefs_variables (reg : gmap string Sub) (st : State) :
  variables (removeConstRefs reg st) = pruneRefs reg (variables st) <$> variables st.
Proof.
  simpl. apply (forEachVar_fmap _ _ (λ tbl, key <$> tbl = key <$> variables st)); [| |done].
  - intros tbl i v Hk Hv. rewrite list_fmap_insert, <- Hk.
    apply list_insert_id. by rewrite list_lookup_fmap, Hv.
  - intros tbl v Hk. by apply pruneRefs_keys.
Qed.

(** C8. After constant-reference pruning no entry of the references or of the
    initReferences of a record binds to a record of varType const, data or
    lookup. *)
Theorem removeConstRefs_pruned (reg : gmap string Sub) (st : State) (v w : Var) (r : string) :
  v ∈ variables (removeConstRefs reg st) →
  r ∈ references v ∨ r ∈ initReferences v →
  varWithRefId reg (variables (removeConstRefs reg st)) r = Some w →
  varType w ≠ "const" ∧ varType w ≠ "data" ∧ varType w ≠ "lookup".
Proof.
  rewrite removeConstRefs_variables.
  intros (v0 & -> & Hv0)%list_elem_of_fmap Hr Hw.
  assert (Hkeep : refIsConst reg (variables st) r = false).
  { unfold pruneRefs, set_refs in Hr; cbn [references initReferences] in Hr.
    destruct Hr as [Hr|Hr]; apply list_elem_of_filter in Hr; tauto. }
  assert (Hk : key <$> (pruneRefs reg (variables st) <$> variables st)
               = key <$> variables st).
  { rewrite <- list_fmap_compose. by apply list_fmap_ext. }
  pose proof (varWithRefId_keys reg _ _ r Hk) as Hb. rewrite Hw in Hb.
  unfold refIsConst in Hkeep.
  destruct (varWithRefId reg (variables st) r) as [w0|]; [|done].
  simpl in Hb. unfold key in Hb.
  assert (varType w = varType w0) as -> by congruence.
  unfold isConstType in Hkeep.
  apply orb_false_elim in Hkeep as [Hkeep Hl]. apply orb_false_elim in Hkeep as [Hc Hd].
  apply bool_decide_eq_false in Hc, Hd, Hl. done.
Qed.

Lemma removeConstRefs_pruned_witness :
  Ex.a_pruned ∈ variables (removeConstRefs Ex.subs1 Ex.table2)
  ∧ ("_b" ∈ references Ex.a_pruned ∨ "_b" ∈ initReferences Ex.a_pruned)
  ∧ varWithRefId Ex.subs1 (variables (removeConstRefs Ex.subs1 Ex.table2)) "_b"
    = Some Ex.b_var
  ∧ (varType Ex.b_var ≠ "const" ∧ varType Ex.b_var ≠ "data" ∧ varType Ex.b_var ≠ "lookup").
Proof.
  assert (H1 : Ex.a_pruned ∈ variables (removeConstRefs Ex.subs1 Ex.table2)).
  { apply (bool_decide_unpack _). vm_compute. exact I. }
  assert (H2 : "_b" ∈ references Ex.a_pruned ∨ "_b" ∈ initReferences Ex.a_pruned).
  { left. apply (bool_decide_unpack _). vm_compute. exact I. }
  assert (H3 : varWithRefId Ex.subs1 (variables (removeConstRefs Ex.subs1 Ex.table2)) "_b"
               = Some Ex.b_var) by (vm_compute; reflexivity).
  split; [exact H1|]. split; [exact H2|]. split; [exact H3|].
  exact (removeConstRefs_pruned Ex.subs1 Ex.table2 Ex.a_pruned Ex.b_var "_b" H1 H2 H3).
Defined.

(** ** Binding references to records *)


Lemma isDimension_value (reg : gmap string Sub) (x : string) :
  isDimension reg x = true → ∃ v, dimValue reg x = Some v.
Proof.
  unfold isDimension. intros H. apply bool_decide_eq_true in H as [v Hv]. eauto.
Qed.


Lemma subsMatchFrom_spec (reg : gmap string Sub) (subscripts refSubscripts : list string)
    (k : nat) :
  subsMatchFrom reg k subscripts refSubscripts = true
  ↔ ∀ pos s, subscripts !! pos = Some s → posMatch reg s (refSubscripts !! (k + pos)) = true.
Proof.
  revert k. induction subscripts as [|s0 l IH]; intros k; simpl.
  - split; [|done]. intros _ pos s. by rewrite lookup_nil.
  - rewrite andb_true_iff, IH. split.
    + intros [H0 Hl] [|pos] s; simpl.
      * intros [= <-]. by rewrite Nat.add_0_r.
      * intros Hs. replace (k + S pos) with (S k + pos) by lia. by apply Hl.
    + intros H. split.
      * specialize (H 0 s0 eq_refl). by rewrite Nat.add_0_r in H.
      * intros pos s Hs. replace (S k + pos) with (k + S pos) by lia. by apply H.
Qed.

Lemma find_Some_elem {A} (f : A → bool) (l : list A) (x : A) :
  find f l = Some x → x ∈ l ∧ f x = true.
Proof. intros [H ?]%find_some. by apply list_elem_of_In in H. Qed.

Lemma find_None_elem {A} (f : A → bool) (l : list A) (x : A) :
  find f l = None → x ∈ l → f x = false.
Proof. intros H Hx%list_elem_of_In. by eapply find_none in H. Qed.

Lemma findByRefId_Some (vars : list Var) (r : string) (v : Var) :
  findByRefId vars r = Some v → v ∈ vars ∧ refId v = r.
Proof.
  unfold findByRefId. intros [H Hr]%find_Some_elem.
  by apply bool_decide_eq_true in Hr.
Qed.

Lemma findByRefId_None (vars : list Var) (r : string) (c : Var) :
  findByRefId vars r = None → c ∈ vars → refId c ≠ r.
Proof.
  unfold findByRefId. intros H Hc Hr.
  eapply find_None_elem in H; [|exact Hc].
  simpl in H. by rewrite bool_decide_eq_true_2 in H.
Qed.

Lemma findByRefId_is_Some (vars : list Var) (c : Var) :
  c ∈ vars → is_Some (findByRefId vars (refId c)).
Proof.
  intros Hc. destruct (findByRefId vars (refId c)) eqn:E; [eauto|].
  by eapply findByRefId_None in E.
Qed.



(** ** Expansion of dimensions *)

Lemma isDimension_false (reg : gmap string Sub) (n : string) :
  isDimension reg n = false ↔ dimValue reg n = None.
Proof.
  unfold isDimension. rewrite bool_decide_eq_false.
  destruct (dimValue reg n); split; try done.
  intros H. exfalso. apply H. eauto.
Qed.

Lemma isDimension_true (reg : gmap string Sub) (n : string) :
  isDimension reg n = true ↔ ∃ v, dimValue reg n = Some v.
Proof. unfold isDimension. by rewrite bool_decide_eq_true. Qed.

Lemma dimValue_Some (reg : gmap string Sub) (n : string) (v : list string) :
  dimValue reg n = Some v ↔ ∃ sz f m, reg !! n = Some (mkSub (DimValue v) sz f m).
Proof.
  unfold dimValue. destruct (reg !! n) as [[[w|i] sz f m]|]; split;
    try done; try (intros (? & ? & ? & ?); congruence); try naive_solver.
Qed.

Lemma dimValue_insert (reg : gmap string Sub) (n m : string) (v : list string) (d : Sub) :
  dimValue (<[n := set_dim_value v d]> reg) m
  = if decide (n = m) then Some v else dimValue reg m.
Proof.
  unfold dimValue. rewrite lookup_insert. by destruct (decide (n = m)).
Qed.

Lemma expandValue_cons (reg : gmap string Sub) (s : string) (v : list string) :
  expandValue reg (s :: v)
  = match dimValue reg s with Some w => w | None => [s] end ++ expandValue reg v.
Proof. done. Qed.

Lemma expandValue_elem (reg : gmap string Sub) (v : list string) (e : string) :
  e ∈ expandValue reg v
  ↔ ∃ s, s ∈ v ∧ ((dimValue reg s = None ∧ e = s) ∨ ∃ w, dimValue reg s = Some w ∧ e ∈ w).
Proof.
  induction v as [|s v IH].
  - unfold expandValue. simpl. split; [by intros ?%elem_of_nil|].
    by intros (? & ?%elem_of_nil & _).
  - rewrite expandValue_cons, elem_of_app, IH. split.
    + intros [He|(s' & Hs' & H)].
      * exists s. split; [left|].
        destruct (dimValue reg s) as [w|]; [right; eauto|left].
        apply list_elem_of_singleton in He. done.
      * exists s'. split; [by right|done].
    + intros (s' & [->|Hs']%elem_of_cons & H).
      * left. destruct H as [[-> ->]|(w & -> & He)]; [|done]. by left.
      * right. eauto.
Qed.

Lemma expandValue_id (reg : gmap string Sub) (v : list string) :
  (∀ e, e ∈ v → isDimension reg e = false) → expandValue reg v = v.
Proof.
  induction v as [|s v IH]; intros Hv; [done|].
  rewrite expandValue_cons, IH by (intros; apply Hv; by right).
  assert (dimValue reg s = None) as ->; [|done].
  apply isDimension_false, Hv. by left.
Qed.

(** One step of a pass either leaves the registry alone or replaces the value
    of the visited dimension by its expansion. *)
Lemma expandDim_cases (found : bool) (reg : gmap string Sub) (name : string) :
  (expandDim (found, reg) name = (found, reg)
   ∧ ∀ v, dimValue reg name = Some v → expandValue reg v = v)
  ∨ ∃ d v, reg !! name = Some d ∧ value d = DimValue v
           ∧ expandValue reg v ≠ v
           ∧ expandDim (found, reg) name
             = (true, <[name := set_dim_value (expandValue reg v) d]> reg).
Proof.
  unfold expandDim, dimValue. simpl.
  destruct (reg !! name) as [[[v|i] sz f m]|] eqn:E; simpl; [|left; by split..].
  destruct (decide (expandValue reg v = v)) as [Hv|Hv].
  - left. split; [done|]. by intros ? [= <-].
  - right. eexists _, v. by repeat split.
Qed.

Section expansion.
Context (rank : string → nat) (reg0 : gmap string Sub).

Local Abbreviation Inv := (expansionInv rank reg0).

Lemma expandDim_dimValue (found : bool) (reg : gmap string Sub) (name m : string) :
  m ≠ name → dimValue (expandDim (found, reg) name).2 m = dimValue reg m.
Proof.
  intros Hm. destruct (expandDim_cases found reg name) as [[-> _]|(d & v & Hd & Hv & _ & ->)];
    [done|]. simpl. rewrite dimValue_insert. by rewrite decide_False.
Qed.

Lemma expandDim_isDimension (found : bool) (reg : gmap string Sub) (name m : string) :
  isDimension (expandDim (found, reg) name).2 m = isDimension reg m.
Proof.
  destruct (expandDim_cases found reg name) as [[-> _]|(d & v & Hd & Hv & _ & ->)];
    [done|]. simpl. unfold isDimension. rewrite dimValue_insert.
  destruct (decide (name = m)) as [<-|]; [|done].
  assert (dimValue reg name = Some v) as ->.
  { apply dimValue_Some. destruct d; simpl in *; subst; eauto. }
  apply bool_decide_ext. split; eauto.
Qed.

Lemma expandDim_Inv (found : bool) (reg : gmap string Sub) (name : string) :
  Inv reg → Inv (expandDim (found, reg) name).2.
Proof.
  intros (Hdom & Hrank & Hsize). split; [|split].
  - intros n. by rewrite expandDim_isDimension.
  - intros d w e Hd He Hdim. rewrite expandDim_isDimension in Hdim.
    destruct (decide (d = name)) as [->|Hne];
      [|rewrite expandDim_dimValue in Hd by done; by eapply Hrank].
    destruct (expandDim_cases found reg name) as [[Heq _]|(d0 & v & Hd0 & Hv & _ & Heq)];
      rewrite Heq in Hd; simpl in Hd; [by eapply Hrank|].
    rewrite dimValue_insert, decide_True in Hd by done. injection Hd as <-.
    assert (Hname : dimValue reg name = Some v).
    { apply dimValue_Some. destruct d0; simpl in *; subst; eauto. }
    apply expandValue_elem in He as (s & Hs & [[_ ->]|(w & Hw & He)]).
    + by eapply Hrank.
    + transitivity (rank s).
      * by eapply Hrank.
      * eapply Hrank; [exact Hname|done|]. apply isDimension_true. eauto.
  - intros n w sz f m Hn.
    destruct (expandDim_cases found reg name) as [[Heq _]|(d0 & v & Hd0 & Hv & _ & Heq)];
      rewrite Heq in Hn; simpl in Hn; [by eapply Hsize|].
    rewrite lookup_insert in Hn. destruct (decide (name = n)) as [<-|].
    + unfold set_dim_value in Hn. by injection Hn as <- <- _ _.
    + by eapply Hsize.
Qed.

Lemma expandDim_expanded (found : bool) (reg : gmap string Sub) (name m : string) :
  expandedDim reg m → expandedDim (expandDim (found, reg) name).2 m.
Proof.
  intros Hm w Hw e He. rewrite expandDim_isDimension.
  destruct (decide (m = name)) as [->|Hne];
    [|rewrite expandDim_dimValue in Hw by done; by eapply Hm].
  destruct (expandDim_cases found reg name) as [[Heq _]|(d0 & v & Hd0 & Hv & Hch & Heq)];
    rewrite Heq in Hw; simpl in Hw; [by eapply Hm|].
  exfalso. apply Hch, expandValue_id.
  apply Hm, dimValue_Some. destruct d0; simpl in *; subst; eauto.
Qed.

Lemma expandDim_expands (found : bool) (reg : gmap string Sub) (name : string) :
  (∀ v e, dimValue reg name = Some v → e ∈ v → expandedDim reg e) →
  expandedDim (expandDim (found, reg) name).2 name.
Proof.
  intros Hmem w Hw e He. rewrite expandDim_isDimension.
  assert (Hexp : ∀ v, dimValue reg name = Some v →
                      ∀ e, e ∈ expandValue reg v → isDimension reg e = false).
  { intros v Hv e' (s & Hs & [[Hnone ->]|(w' & Hw' & He')])%expandValue_elem.
    - by apply isDimension_false.
    - by eapply (Hmem v s). }
  destruct (expandDim_cases found reg name) as [[Heq Hid]|(d0 & v & Hd0 & Hv & Hch & Heq)];
    rewrite Heq in Hw; simpl in Hw.
  - eapply Hexp; [done|]. by rewrite (Hid _ Hw).
  - rewrite dimValue_insert, decide_True in Hw by done. injection Hw as <-.
    eapply Hexp; [|done]. apply dimValue_Some. destruct d0; simpl in *; subst; eauto.
Qed.

Lemma pass_Inv (l : list string) (acc : bool * gmap string Sub) :
  Inv acc.2 → Inv (foldl expandDim acc l).2.
Proof.
  revert acc. induction l as [|n l IH]; intros [found reg] H; [done|].
  simpl. apply IH. by apply expandDim_Inv.
Qed.

Lemma pass_expanded (l : list string) (acc : bool * gmap string Sub) (m : string) :
  expandedDim acc.2 m → expandedDim (foldl expandDim acc l).2 m.
Proof.
  revert acc. induction l as [|n l IH]; intros [found reg] H; [done|].
  simpl. apply IH. by apply expandDim_expanded.
Qed.

Lemma pass_progress (k : nat) (l : list string) (acc : bool * gmap string Sub) (m : string) :
  Inv acc.2 → (∀ n, rank n < k → expandedDim acc.2 n) →
  m ∈ l → rank m < S k → expandedDim (foldl expandDim acc l).2 m.
Proof.
  revert acc. induction l as [|n l IH]; intros [found reg] HI Hk Hm Hr;
    [by apply elem_of_nil in Hm|].
  simpl in *. apply elem_of_cons in Hm as [->|Hm].
  - apply pass_expanded, expandDim_expands. intros v e Hv He.
    destruct (isDimension reg e) eqn:Hdim.
    + apply Hk. destruct HI as (_ & Hrank & _).
      specialize (Hrank n v e Hv He Hdim). lia.
    + intros w Hw. apply isDimension_false in Hdim. congruence.
  - apply IH; [by apply expandDim_Inv| |done|done].
    intros n' Hn'. by apply expandDim_expanded, Hk.
Qed.

Lemma pass_flag_true (l : list string) (reg : gmap string Sub) :
  (foldl expandDim (true, reg) l).1 = true.
Proof.
  revert reg. induction l as [|n l IH]; intros reg; [done|]. simpl.
  destruct (expandDim_cases true reg n) as [[-> _]|(d & v & _ & _ & _ & ->)]; apply IH.
Qed.

Lemma pass_unchanged (l : list string) (reg reg' : gmap string Sub) :
  foldl expandDim (false, reg) l = (false, reg') →
  reg' = reg ∧ ∀ n v, n ∈ l → dimValue reg n = Some v → expandValue reg v = v.
Proof.
  revert reg'. induction l as [|n l IH]; intros reg' H.
  - simpl in H. injection H as <-. split; [done|]. by intros ?? ?%elem_of_nil.
  - simpl in H.
    destruct (expandDim_cases false reg n) as [[Heq Hid]|(d & v & _ & _ & _ & Heq)];
      rewrite Heq in H.
    + apply IH in H as [-> Hl]. split; [done|].
      intros n' v' [->|Hn']%elem_of_cons Hv'; eauto.
    + pose proof (pass_flag_true l (<[n:=set_dim_value (expandValue reg v) d]> reg)) as Ht.
      rewrite H in Ht. done.
Qed.

Lemma pass_all_expanded (l : list string) (found : bool) (reg : gmap string Sub) :
  (∀ n, expandedDim reg n) → foldl expandDim (found, reg) l = (found, reg).
Proof.
  intros Hall. induction l as [|n l IH]; [done|]. simpl.
  destruct (expandDim_cases found reg n) as [[-> _]|(d & v & Hd & Hv & Hch & _)]; [done|].
  exfalso. apply Hch, expandValue_id, (Hall n).
  apply dimValue_Some. destruct d; simpl in *; subst; eauto.
Qed.

Lemma stable_expanded (reg : gmap string Sub) :
  ranked rank reg →
  (∀ n v, dimValue reg n = Some v → expandValue reg v = v) →
  ∀ n, expandedDim reg n.
Proof.
  intros Hrank Hst.
  assert (H : ∀ k n, rank n < k → expandedDim reg n); [|by eauto].
  induction k as [|k IH]; intros n Hn; [lia|].
  intros v Hv e He.
  rewrite <- (Hst n v Hv) in He.
  apply expandValue_elem in He as (s & Hs & [[Hnone ->]|(w & Hw & He)]).
  - by apply isDimension_false.
  - eapply (IH s); [|exact Hw|exact He].
    assert (rank s < rank n); [|lia].
    eapply Hrank; [exact Hv|done|]. apply isDimension_true. eauto.
Qed.

Lemma expandDimensions_loop (order : list string) (j k : nat) (reg : gmap string Sub) :
  listed reg0 order →
  (∀ n, isDimension reg0 n = true → rank n < k + j) →
  Inv reg → (∀ n, rank n < k → expandedDim reg n) →
  ∃ fuel reg', expandDimensions fuel order reg = Some reg'
               ∧ Inv reg' ∧ ∀ n, expandedDim reg' n.
Proof.
  intros Hlisted. revert k reg. induction j as [|j IH]; intros k reg Hbound HI Hk.
  - assert (Hall : ∀ n, expandedDim reg n).
    { intros n v Hv. apply (Hk n); [|done]. rewrite Nat.add_0_r in Hbound. apply Hbound.
      destruct HI as (Hdom & _). rewrite <- Hdom. apply isDimension_true. eauto. }
    exists 1, reg. simpl. unfold expandPass. by rewrite pass_all_expanded.
  - destruct (expandPass reg order) as [found reg'] eqn:Hpass.
    assert (HI' : Inv reg').
    { change reg' with (found, reg').2. rewrite <- Hpass. by apply pass_Inv. }
    destruct found.
    + destruct (IH (S k) reg') as (fuel & reg'' & Hrun & Hres); [|done| |].
      * intros n Hn. specialize (Hbound n Hn). lia.
      * intros n Hn. destruct (isDimension reg' n) eqn:Hd.
        -- assert (Hin : n ∈ order).
           { apply Hlisted. destruct HI' as (Hdom & _). by rewrite <- Hdom. }
           change reg' with (true, reg').2. rewrite <- Hpass.
           by apply (pass_progress k).
        -- intros v Hv. apply isDimension_false in Hd. congruence.
      * exists (S fuel), reg''. simpl. by rewrite Hpass.
    + unfold expandPass in Hpass. apply pass_unchanged in Hpass as [-> Hst].
      exists 1, reg. simpl.
      assert (Hall : ∀ n, expandedDim reg n).
      { apply stable_expanded; [by destruct HI as (_ & ? & _)|].
        intros n v Hv. apply (Hst n); [|done]. apply Hlisted.
        destruct HI as (Hdom & _). rewrite <- Hdom. apply isDimension_true. eauto. }
      unfold expandPass. by rewrite pass_all_expanded.
Qed.
End expansion.

(** C6 (as amended).  When the dimension-name graph is acyclic, the expansion
    loop terminates; afterwards no dimension's value names a dimension and
    every dimension's size is the length of its value.  [order] lists the
    dimensions and sizes are those of the declared values to begin with. *)
Theorem expandDimensions_terminates (rank : string → nat) (order : list string)
    (reg : gmap string Sub) :
  ranked rank reg → listed reg order → sized reg →
  ∃ fuel reg', expandDimensions fuel order reg = Some reg'
    ∧ (∀ n, isDimension reg' n = isDimension reg n)
    ∧ (∀ n v e, dimValue reg' n = Some v → e ∈ v → isDimension reg' e = false)
    ∧ (∀ n v sz f m, reg' !! n = Some (mkSub (DimValue v) sz f m) → sz = length v).
Proof.
  intros Hrank Hlisted Hsized.
  destruct (expandDimensions_loop rank reg order (S (max_list (rank <$> order))) 0 reg)
    as (fuel & reg' & Hrun & (Hdom & _ & Hsz) & Hexp); try done.
  - intros n Hn. simpl. apply Nat.lt_succ_r, max_list_elem_of_le.
    apply list_elem_of_fmap. exists n. split; [done|]. by apply Hlisted.
  - intros n Hn. lia.
  - exists fuel, reg'. split; [done|]. split; [done|]. split; [|done].
    intros n v e Hv He. by eapply Hexp.
Qed.

(** Checkers for the hypotheses on a concrete registry. *)
Lemma check_entries (P : string * Sub → bool) (reg : gmap string Sub) :
  forallb P (map_to_list reg) = true →
  ∀ n d, reg !! n = Some d → P (n, d) = true.
Proof.
  intros H n d Hn. rewrite forallb_forall in H.
  apply (H (n, d)). apply list_elem_of_In. by apply elem_of_map_to_list.
Qed.

Lemma ranked_check (rank : string → nat) (reg : gmap string Sub) :
  forallb (λ e, match value e.2 with
                | DimValue v =>
                    forallb (λ x, negb (isDimension reg x) || (rank x <? rank e.1)) v
                | IndexValue _ => true
                end) (map_to_list reg) = true →
  ranked rank reg.
Proof.
  intros H d v e Hd He Hdim. apply dimValue_Some in Hd as (sz & f & m & Hd).
  apply (check_entries _ _ H) in Hd. simpl in Hd. rewrite forallb_forall in Hd.
  apply list_elem_of_In, Hd in He. rewrite Hdim in He. simpl in He.
  by apply Nat.ltb_lt.
Qed.

Lemma listed_check (order : list string) (reg : gmap string Sub) :
  forallb (λ e, match value e.2 with
                | DimValue v => bool_decide (e.1 ∈ order)
                | IndexValue _ => true
                end) (map_to_list reg) = true →
  listed reg order.
Proof.
  intros H n (v & (sz & f & m & Hd)%dimValue_Some)%isDimension_true.
  apply (check_entries _ _ H) in Hd. simpl in Hd. by apply bool_decide_eq_true in Hd.
Qed.

Lemma sized_check (reg : gmap string Sub) :
  forallb (λ e, match value e.2 with
                | DimValue v => size e.2 =? length v
                | IndexValue _ => true
                end) (map_to_list reg) = true →
  sized reg.
Proof.
  intros H n v sz f m Hd.
  apply (check_entries _ _ H) in Hd. simpl in Hd. by apply Nat.eqb_eq in Hd.
Qed.

Lemma expandDimensions_terminates_witness :
  ranked Ex.nested_rank Ex.nested
  ∧ listed Ex.nested ["_all"; "_north"; "_south"]
  ∧ sized Ex.nested
  ∧ ∃ fuel reg', expandDimensions fuel ["_all"; "_north"; "_south"] Ex.nested = Some reg'
    ∧ (∀ n, isDimension reg' n = isDimension Ex.nested n)
    ∧ (∀ n v e, dimValue reg' n = Some v → e ∈ v → isDimension reg' e = false)
    ∧ (∀ n v sz f m, reg' !! n = Some (mkSub (DimValue v) sz f m) → sz = length v).
Proof.
  assert (H1 : ranked Ex.nested_rank Ex.nested) by (apply ranked_check; vm_compute; reflexivity).
  assert (H2 : listed Ex.nested ["_all"; "_north"; "_south"])
    by (apply listed_check; vm_compute; reflexivity).
  assert (H3 : sized Ex.nested) by (apply sized_check; vm_compute; reflexivity).
  split; [exact H1|]. split; [exact H2|]. split; [exact H3|].
  exact (expandDimensions_terminates Ex.nested_rank _ Ex.nested H1 H2 H3).
Defined.

(** C6 (counterexample).  A: B and B: A form a cycle, yet the expansion loop
    ends normally after two passes, with values that still name the
    dimension A: the code has no failure for Ex.cyclic definitions. *)
Lemma expandDimensions_cycle_counterexample :
  (∀ rank, ¬ ranked rank Ex.cyclic)
  ∧ ∃ reg', expandDimensions 2 ["_a"; "_b"] Ex.cyclic = Some reg'
            ∧ dimValue reg' "_a" = Some ["_a"]
            ∧ dimValue reg' "_b" = Some ["_a"]
            ∧ isDimension reg' "_a" = true.
Proof.
  split.
  - intros rank H.
    assert (rank "_b" < rank "_a") by (apply (H "_a" ["_b"] "_b"); [done|left|done]).
    assert (rank "_a" < rank "_b") by (apply (H "_b" ["_a"] "_a"); [done|left|done]).
    lia.
  - eexists. split; [vm_compute; reflexivity|]. by vm_compute.
Qed.

(** ** Families *)

Lemma str_lt_false (a b : string) : Js.str_lt a b = false ↔ String.le b a.
Proof.
  unfold Js.str_lt, String.le, String.ltb, String.leb.
  rewrite (String.compare_antisym a b).
  destruct (String.compare b a); simpl; split; done.
Qed.

Lemma str_lt_true (a b : string) : Js.str_lt a b = true ↔ ¬ String.le b a.
Proof. rewrite <- str_lt_false. destruct (Js.str_lt a b); split; done. Qed.

Lemma dimComparator_gt_spec (a b : string * Sub) :
  dimComparator_gt a b = true
  ↔ size b.2 < size a.2 ∨ (size a.2 = size b.2 ∧ ¬ String.le b.1 a.1).
Proof.
  unfold dimComparator_gt.
  change (Js.str_gt a.1 b.1) with (Js.str_lt b.1 a.1).
  destruct (Nat.ltb_spec (size a.2) (size b.2)); simpl.
  { split; [intros ?; discriminate|]. intros [?|[? _]]; lia. }
  destruct (Nat.ltb_spec (size b.2) (size a.2)); simpl; [split; [by left|done]|].
  destruct (Js.str_lt b.1 a.1) eqn:Hba; simpl.
  - split; [done|]. intros [?|[_ Hle]]; [lia|].
    apply str_lt_true in Hba. exfalso. apply Hba.
    destruct (total String.le a.1 b.1); [done|]. done.
  - destruct (Js.str_lt a.1 b.1) eqn:Hab.
    + split; [|done]. intros _. right. split; [lia|]. by apply str_lt_true.
    + split; [done|]. intros [?|[_ Hle]]; [lia|]. by apply str_lt_false in Hab.
Qed.

Lemma dimComparator_le_spec (a b : string * Sub) :
  Js.le_of dimComparator_gt a b
  ↔ size a.2 < size b.2 ∨ (size a.2 = size b.2 ∧ String.le b.1 a.1).
Proof.
  unfold Js.le_of. rewrite <- not_true_iff_false, dimComparator_gt_spec. split.
  - intros H. destruct (lt_eq_lt_dec (size a.2) (size b.2)) as [[?|?]|?].
    + by left.
    + right. split; [done|]. destruct (decide (String.le b.1 a.1)); [done|].
      exfalso. apply H. by right.
    + exfalso. apply H. by left.
  - intros [?|[? ?]] [?|[? ?]]; try lia. done.
Qed.

Lemma dimComparator_total (a b : string * Sub) :
  dimComparator_gt a b = true → dimComparator_gt b a = false.
Proof.
  rewrite dimComparator_gt_spec. intros H. apply not_true_iff_false.
  rewrite dimComparator_gt_spec. intros H'.
  destruct H as [?|[? Hab]], H' as [?|[? Hba]]; try lia.
  destruct (total String.le a.1 b.1); tauto.
Qed.

Lemma dimComparator_trans (a b c : string * Sub) :
  dimComparator_gt a b = false → dimComparator_gt b c = false →
  dimComparator_gt a c = false.
Proof.
  intros H1 H2. apply dimComparator_le_spec in H1, H2. apply dimComparator_le_spec.
  destruct H1 as [?|[? Hba]], H2 as [?|[? Hcb]]; try (left; lia).
  right. split; [lia|]. by etrans.
Qed.

Lemma sorted_last {A} (R : A → A → Prop) (l : list A) (x y : A) :
  StronglySorted R l → last l = Some x → y ∈ l → y = x ∨ R y x.
Proof.
  intros Hs (l' & ->)%last_Some Hy.
  apply elem_of_app in Hy as [Hy|Hy%list_elem_of_singleton]; [|by left].
  right. eapply StronglySorted_app_1_elem_of; [exact Hs|done|left].
Qed.


Lemma insert_by_fmap {A} (gt : A → A → bool) (f : A → A) (x : A) (l : list A) :
  (∀ a b, gt (f a) (f b) = gt a b) →
  f <$> Js.insert_by gt x l = Js.insert_by gt (f x) (f <$> l).
Proof.
  intros Hf. induction l as [|y l IH]; [done|]. simpl. rewrite Hf.
  destruct (gt x y); [|done]. by rewrite fmap_cons, IH.
Qed.

Lemma sort_by_fmap {A} (gt : A → A → bool) (f : A → A) (l : list A) :
  (∀ a b, gt (f a) (f b) = gt a b) →
  f <$> Js.sort_by gt l = Js.sort_by gt (f <$> l).
Proof.
  intros Hf. induction l as [|x l IH]; [done|]. simpl.
  by rewrite insert_by_fmap, IH.
Qed.

Lemma filter_fmap_comm {A} (f : A → A) (P : A → Prop) `{!∀ x, Decision (P x)}
    (l : list A) :
  (∀ x, P (f x) ↔ P x) → f <$> filter P l = filter P (f <$> l).
Proof.
  intros Hf. induction l as [|x l IH]; [done|].
  rewrite fmap_cons, !filter_cons.
  destruct (decide (P x)), (decide (P (f x))); rewrite ?fmap_cons, ?IH; try done;
    exfalso; naive_solver.
Qed.

Lemma allDimensions_erase (reg reg0 : gmap string Sub) (order : list string) :
  (∀ n, set_family "" <$> reg !! n = set_family "" <$> reg0 !! n) →
  erase <$> allDimensions reg order = erase <$> allDimensions reg0 order.
Proof.
  intros Heq. unfold allDimensions. induction order as [|n l IH]; [done|].
  simpl. specialize (Heq n).
  destruct (reg !! n) as [[[v|i] sz f m]|], (reg0 !! n) as [[[v0|i0] sz0 f0 m0]|];
    simplify_eq/=; try done.
  by rewrite IH.
Qed.

Lemma familyDims_erase (reg reg0 : gmap string Sub) (order v : list string) :
  (∀ n, set_family "" <$> reg !! n = set_family "" <$> reg0 !! n) →
  erase <$> familyDims reg order v = erase <$> familyDims reg0 order v.
Proof.
  intros Heq. unfold familyDims. destruct (v !! 0) as [index|]; [|done].
  rewrite !(sort_by_fmap dimComparator_gt erase) by done.
  f_equal.
  assert (Hf : ∀ l : list (string * Sub),
                 erase <$> filter (λ d, containsIndex index d = true) l
                 = filter (λ d, containsIndex index d = true) (erase <$> l)).
  { intros l. apply filter_fmap_comm. intros [n [[w|i] ? ? ?]]; done. }
  rewrite !Hf. f_equal. by apply allDimensions_erase.
Qed.

Lemma familyDims_last (reg reg0 : gmap string Sub) (order v : list string) :
  (∀ n, set_family "" <$> reg !! n = set_family "" <$> reg0 !! n) →
  fst <$> last (familyDims reg order v) = fst <$> last (familyDims reg0 order v).
Proof.
  intros Heq. pose proof (familyDims_erase reg reg0 order v Heq) as H.
  apply (f_equal last) in H. rewrite !fmap_last in H.
  destruct (last (familyDims reg order v)), (last (familyDims reg0 order v));
    simpl in *; try done.
  unfold erase in H. injection H as H1 H2. by rewrite H1.
Qed.

Lemma resolveFamily_self (dimensionFamilies : option (gmap string string))
    (order : list string) (reg : gmap string Sub) (name : string) (d : Sub) :
  reg !! name = Some d →
  resolveFamily dimensionFamilies order reg name !! name
  = Some (set_family (familyFor dimensionFamilies order reg name d) d).
Proof.
  intros Hd. unfold resolveFamily, familyFor. rewrite Hd.
  destruct d as [[v|i] sz f m]; simpl; [|done].
  destruct (familyOverride dimensionFamilies name); [by rewrite lookup_insert_eq|].
  destruct (last (familyDims reg order v)); [by rewrite lookup_insert_eq|done].
Qed.

Lemma resolveFamily_other (dimensionFamilies : option (gmap string string))
    (order : list string) (reg : gmap string Sub) (name n : string) :
  n ≠ name → resolveFamily dimensionFamilies order reg name !! n = reg !! n.
Proof.
  intros Hn. unfold resolveFamily.
  destruct (reg !! name) as [d|]; [|done]. destruct (value d); [|done].
  destruct (familyOverride _ _); [by rewrite lookup_insert_ne|].
  destruct (last _); [by rewrite lookup_insert_ne|done].
Qed.

Lemma resolveFamily_None (dimensionFamilies : option (gmap string string))
    (order : list string) (reg : gmap string Sub) (name : string) :
  reg !! name = None → resolveFamily dimensionFamilies order reg name = reg.
Proof. intros Hd. unfold resolveFamily. by rewrite Hd. Qed.

Section families.
Context (dimensionFamilies : option (gmap string string)) (order : list string)
        (reg0 : gmap string Sub).


Lemma familyFor_again (reg : gmap string Sub) (name : string) (d0 : Sub) :
  (∀ n, set_family "" <$> reg !! n = set_family "" <$> reg0 !! n) →
  familyFor dimensionFamilies order reg name
    (set_family (familyFor dimensionFamilies order reg0 name d0) d0)
  = familyFor dimensionFamilies order reg0 name d0.
Proof.
  intros Herase. unfold familyFor at 1. simpl.
  destruct (value d0) as [v|i] eqn:Hv; [|done].
  unfold familyFor. rewrite Hv.
  destruct (familyOverride dimensionFamilies name); [done|].
  pose proof (familyDims_last reg reg0 order v Herase) as Hlast.
  destruct (last (familyDims reg order v)) as [fd|],
           (last (familyDims reg0 order v)) as [fd0|]; simplify_eq/=; done.
Qed.

Lemma familyFor_first (reg : gmap string Sub) (name : string) (d0 : Sub) :
  (∀ n, set_family "" <$> reg !! n = set_family "" <$> reg0 !! n) →
  familyFor dimensionFamilies order reg name d0
  = familyFor dimensionFamilies order reg0 name d0.
Proof.
  intros Herase. unfold familyFor.
  destruct (value d0) as [v|i] eqn:Hv; [|done].
  destruct (familyOverride dimensionFamilies name); [done|].
  pose proof (familyDims_last reg reg0 order v Herase) as Hlast.
  destruct (last (familyDims reg order v)) as [fd|],
           (last (familyDims reg0 order v)) as [fd0|]; simplify_eq/=; done.
Qed.

Lemma resolveFamily_step (visited : list string) (reg : gmap string Sub) (name : string) :
  (∀ n, reg !! n = if decide (n ∈ visited) then resolved dimensionFamilies order reg0 n else reg0 !! n) →
  ∀ n, resolveFamily dimensionFamilies order reg name !! n
       = if decide (n ∈ name :: visited) then resolved dimensionFamilies order reg0 n else reg0 !! n.
Proof.
  intros HJ.
  assert (Herase : ∀ n, set_family "" <$> reg !! n = set_family "" <$> reg0 !! n).
  { intros n. rewrite HJ. destruct (decide (n ∈ visited)); [|done].
    unfold resolved. by destruct (reg0 !! n). }
  assert (Hres : resolveFamily dimensionFamilies order reg name !! name = resolved dimensionFamilies order reg0 name).
  { pose proof (HJ name) as Hname. unfold resolved in *.
    destruct (reg0 !! name) as [d0|] eqn:Hd0.
    - destruct (decide (name ∈ visited)); simpl in Hname.
      + rewrite (resolveFamily_self _ _ _ _ _ Hname), familyFor_again by done. done.
      + rewrite (resolveFamily_self _ _ _ _ _ Hname), familyFor_first by done. done.
    - rewrite resolveFamily_None; [|by destruct (decide (name ∈ visited))].
      by destruct (decide (name ∈ visited)). }
  intros n. destruct (decide (n = name)) as [->|Hn].
  - rewrite Hres. rewrite decide_True; [done|left].
  - rewrite resolveFamily_other, HJ by done.
    destruct (decide (n ∈ visited)), (decide (n ∈ name :: visited)); try done.
    + exfalso. set_solver.
    + exfalso. set_solver.
Qed.

Lemma resolveFamilies_fold (l visited : list string) (reg : gmap string Sub) :
  (∀ n, reg !! n = if decide (n ∈ visited) then resolved dimensionFamilies order reg0 n else reg0 !! n) →
  ∀ n, foldl (resolveFamily dimensionFamilies order) reg l !! n
       = if decide (n ∈ l ∨ n ∈ visited) then resolved dimensionFamilies order reg0 n else reg0 !! n.
Proof.
  revert visited reg. induction l as [|name l IH]; intros visited reg HJ n.
  - simpl. rewrite HJ. destruct (decide (n ∈ visited)), (decide _); try done.
    + exfalso. tauto.
    + exfalso. destruct o as [?%elem_of_nil|]; done.
  - simpl. rewrite (IH (name :: visited)); [|by apply resolveFamily_step].
    destruct (decide (n ∈ l ∨ n ∈ name :: visited)), (decide (n ∈ name :: l ∨ n ∈ visited));
      try done; exfalso; set_solver.
Qed.

Lemma resolveFamilies_lookup (n : string) :
  resolveFamilies dimensionFamilies order reg0 !! n
  = if decide (n ∈ order) then resolved dimensionFamilies order reg0 n else reg0 !! n.
Proof.
  unfold resolveFamilies. rewrite (resolveFamilies_fold order [] reg0).
  - destruct (decide (n ∈ order ∨ n ∈ [])), (decide (n ∈ order)); try done; exfalso.
    + destruct o as [?|?%elem_of_nil]; done.
    + tauto.
  - intros m. by rewrite decide_False by apply not_elem_of_nil.
Qed.
End families.

Lemma allDimensions_elem (reg : gmap string Sub) (order : list string) (n : string) (d : Sub) :
  (n, d) ∈ allDimensions reg order
  ↔ n ∈ order ∧ reg !! n = Some d ∧ ∃ v, value d = DimValue v.
Proof.
  unfold allDimensions. rewrite list_elem_of_omap. split.
  - intros (n' & Hn' & H). destruct (reg !! n') as [[[v|i] sz f m]|] eqn:E; try done.
    injection H as <- <-. split; [done|]. split; [done|]. by exists v.
  - intros (Hn & Hd & v & Hv). exists n. split; [done|]. rewrite Hd.
    destruct d as [[w|i] sz f m]; simpl in *; [done|congruence].
Qed.

(** C5. After family resolution, the family of a dimension D is the entry the
    spec's dimensionFamilies gives for D when there is one (a non-empty
    name); otherwise it is the name of the last dimension in the order "size
    ascending, name descending" among the dimensions whose value contains D's
    first index: a dimension of greatest size and, among those of that size,
    the one whose name comes first. *)
Theorem resolveFamilies_family (dimensionFamilies : option (gmap string string))
    (order : list string) (reg : gmap string Sub) (name : string)
    (v : list string) (sz : nat) (f : string) (m : list (string * list (option string))) :
  name ∈ order →
  reg !! name = Some (mkSub (DimValue v) sz f m) →
  ∃ f', resolveFamilies dimensionFamilies order reg !! name
        = Some (mkSub (DimValue v) sz f' m)
    ∧ (∀ fams o, dimensionFamilies = Some fams → fams !! name = Some o → o ≠ "" → f' = o)
    ∧ (familyOverride dimensionFamilies name = None →
       ∀ index, v !! 0 = Some index →
       ∃ vF szF fF mF,
         f' ∈ order ∧ reg !! f' = Some (mkSub (DimValue vF) szF fF mF) ∧ index ∈ vF
         ∧ ∀ g vG szG fG mG,
             g ∈ order → reg !! g = Some (mkSub (DimValue vG) szG fG mG) → index ∈ vG →
             szG < szF ∨ (szG = szF ∧ String.le f' g)).
Proof.
  intros Hin Hd.
  exists (familyFor dimensionFamilies order reg name (mkSub (DimValue v) sz f m)).
  split; [|split].
  - rewrite resolveFamilies_lookup, decide_True by done. unfold resolved. by rewrite Hd.
  - intros fams o -> Ho Hne. unfold familyFor, familyOverride. simpl.
    by rewrite Ho, decide_False.
  - intros Hover index Hindex. unfold familyFor. simpl. rewrite Hover.
    unfold familyDims. rewrite Hindex.
    set (L := filter (λ d, containsIndex index d = true) (allDimensions reg order)).
    assert (HL : ∀ n d, (n, d) ∈ L ↔ n ∈ order ∧ reg !! n = Some d
                                      ∧ ∃ w, value d = DimValue w ∧ index ∈ w).
    { intros n d. unfold L. rewrite list_elem_of_filter, allDimensions_elem.
      unfold containsIndex. simpl. split.
      - intros (Hc & Hn & Hdn & w & Hw). rewrite Hw in Hc.
        apply bool_decide_eq_true in Hc. eauto 10.
      - intros (Hn & Hdn & w & Hw & Hi). rewrite Hw.
        split; [by apply bool_decide_eq_true|]. eauto. }
    assert (Hself : (name, mkSub (DimValue v) sz f m) ∈ L).
    { apply HL. split; [done|]. split; [done|]. exists v. split; [done|].
      by eapply list_elem_of_lookup_2. }
    destruct (last (Js.sort_by dimComparator_gt L)) as [[nF dF]|] eqn:Hlast.
    + assert (HF : (nF, dF) ∈ L).
      { rewrite <- (sort_by_elem dimComparator_gt). by apply last_Some_elem_of. }
      apply HL in HF as (HnF & HdF & w & Hw & Hi).
      destruct dF as [vF szF fF mF]. simpl in Hw. subst vF. simpl.
      exists w, szF, fF, mF. split; [done|]. split; [done|]. split; [done|].
      intros g vG szG fG mG Hg HdG HiG.
      assert (HG : (g, mkSub (DimValue vG) szG fG mG) ∈ Js.sort_by dimComparator_gt L).
      { apply sort_by_elem, HL. eauto 10. }
      destruct (sorted_last (Js.le_of dimComparator_gt) _ _ _
                  (sort_by_sorted _ dimComparator_total dimComparator_trans L) Hlast HG)
        as [Heq|Hle].
      * injection Heq as -> -> -> -> ->. right. done.
      * apply dimComparator_le_spec in Hle. done.
    + apply last_None in Hlast. apply (f_equal length) in Hlast.
      rewrite sort_by_length in Hlast. destruct L; [|done]. by apply elem_of_nil in Hself.
Qed.

Lemma resolveFamilies_family_witness :
  "_suba" ∈ Ex.order1
  ∧ Ex.ranges1 !! "_suba" = Some (mkSub (DimValue ["_a2"; "_a3"]) 2 "_suba" [])
  ∧ ∃ f', resolveFamilies None Ex.order1 Ex.ranges1 !! "_suba"
          = Some (mkSub (DimValue ["_a2"; "_a3"]) 2 f' [])
    ∧ (∀ (fams : gmap string string) o,
         None = Some fams → fams !! "_suba" = Some o → o ≠ "" → f' = o)
    ∧ (familyOverride None "_suba" = None →
       ∀ index, ["_a2"; "_a3"] !! 0 = Some index →
       ∃ vF szF fF mF,
         f' ∈ Ex.order1 ∧ Ex.ranges1 !! f' = Some (mkSub (DimValue vF) szF fF mF)
         ∧ index ∈ vF
         ∧ ∀ g vG szG fG mG,
             g ∈ Ex.order1 → Ex.ranges1 !! g = Some (mkSub (DimValue vG) szG fG mG) →
             index ∈ vG → szG < szF ∨ (szG = szF ∧ String.le f' g)).
Proof.
  assert (H1 : "_suba" ∈ Ex.order1) by (apply (bool_decide_unpack _); vm_compute; exact I).
  assert (H2 : Ex.ranges1 !! "_suba" = Some (mkSub (DimValue ["_a2"; "_a3"]) 2 "_suba" []))
    by (vm_compute; reflexivity).
  split; [exact H1|]. split; [exact H2|].
  exact (resolveFamilies_family None Ex.order1 Ex.ranges1 "_suba" _ _ _ _ H1 H2).
Defined.

Example resolveFamilies_tie :
  family <$> resolveFamilies None Ex.order1 Ex.ranges1 !! "_suba" = Some "_dima".
Proof. vm_compute. reflexivity. Qed.

(** ** Inversion of the mappings *)

Lemma array_set_eq {A} (i : nat) (x : A) (a : list (option A)) :
  Js.array_set i x a !! i = Some (Some x).
Proof.
  unfold Js.array_set. destruct (decide (i < length a)).
  - by apply list_lookup_insert_eq.
  - rewrite lookup_app_r by lia. rewrite lookup_app_r by (rewrite length_replicate; lia).
    rewrite length_replicate. by replace (i - length a - (i - length a)) with 0 by lia.
Qed.

Lemma array_set_keep {A} (i j : nat) (x y : A) (a : list (option A)) :
  i ≠ j → a !! j = Some (Some y) → Js.array_set i x a !! j = Some (Some y).
Proof.
  intros Hij Hj. unfold Js.array_set. destruct (decide (i < length a)).
  - by rewrite list_lookup_insert_ne.
  - by apply lookup_app_l_Some.
Qed.

Lemma foldM_Ok {A B} (f : A → B → Js.Result A) (g : A → B → A) (l : list B) (a : A) :
  (∀ x a, x ∈ l → f a x = Js.Ok (g a x)) → Js.foldM f a l = Js.Ok (foldl g a l).
Proof.
  revert a. induction l as [|x l IH]; intros a Hf; [done|].
  simpl. rewrite Hf by left. simpl. apply IH. intros y b Hy. apply Hf. by right.
Qed.

Lemma foldM_Ok_lookup {A B} (f : A → B → Js.Result A) (g : A → B → A) (l : list B) (a : A) :
  (∀ i x a, l !! i = Some x → f a x = Js.Ok (g a x)) → Js.foldM f a l = Js.Ok (foldl g a l).
Proof.
  intros Hf. apply foldM_Ok. intros x b (i & Hi)%list_elem_of_lookup. by eapply Hf.
Qed.

Section one_mapping.
Context (toValue : list string).

Lemma fillEntry_keep (inverted : list (option string)) (e : string * list string)
    (p : nat) (f0 : string) :
  inverted !! p = Some (Some f0) →
  (∀ t, t ∈ e.2 → Js.indexOf t toValue = Some p → e.1 = f0) →
  (∀ t, t ∈ e.2 → is_Some (Js.indexOf t toValue)) →
  fillEntry toValue inverted e !! p = Some (Some f0).
Proof.
  destruct e as [f ts]. unfold fillEntry. simpl. revert inverted.
  induction ts as [|t ts IH]; intros inverted Hp Hsame Hdef; [done|].
  simpl. apply IH.
  - unfold fillAt. destruct (Hdef t) as [q Hq]; [left|]. rewrite Hq. simpl.
    destruct (decide (q = p)) as [->|Hne].
    + rewrite (Hsame t) by (done || left). apply array_set_eq.
    + by apply array_set_keep.
  - intros t' Ht'. apply Hsame. by right.
  - intros t' Ht'. apply Hdef. by right.
Qed.

Lemma fillEntry_set (inverted : list (option string)) (f : string) (ts : list string)
    (t : string) (p : nat) :
  t ∈ ts → Js.indexOf t toValue = Some p →
  (∀ t, t ∈ ts → is_Some (Js.indexOf t toValue)) →
  fillEntry toValue inverted (f, ts) !! p = Some (Some f).
Proof.
  intros (l1 & l2 & ->)%list_elem_of_split Hp Hdef.
  unfold fillEntry. simpl. rewrite foldl_app. simpl.
  apply (fillEntry_keep _ (f, l2)); simpl.
  - unfold fillAt at 1. rewrite Hp. apply array_set_eq.
  - done.
  - intros t' Ht'. apply Hdef. rewrite elem_of_app. right. by right.
Qed.

Lemma fillEntries_keep (entries : list (string * list string))
    (inverted : list (option string)) (p : nat) (f0 : string) :
  inverted !! p = Some (Some f0) →
  (∀ e t, e ∈ entries → t ∈ e.2 → Js.indexOf t toValue ≠ Some p) →
  (∀ e t, e ∈ entries → t ∈ e.2 → is_Some (Js.indexOf t toValue)) →
  foldl (fillEntry toValue) inverted entries !! p = Some (Some f0).
Proof.
  revert inverted. induction entries as [|e entries IH]; intros inverted Hp Hno Hdef; [done|].
  simpl. apply IH.
  - apply fillEntry_keep; [done| |].
    + intros t Ht Hpt. exfalso. by apply (Hno e t); [left|..].
    + intros t Ht. apply (Hdef e); [left|done].
  - intros e' t He'. apply Hno. by right.
  - intros e' t He'. apply Hdef. by right.
Qed.

Lemma fillEntries_last (entries : list (string * list string)) (i : nat)
    (f : string) (ts : list string) (t : string) (p : nat) :
  entries !! i = Some (f, ts) → t ∈ ts → Js.indexOf t toValue = Some p →
  (∀ j e t', i < j → entries !! j = Some e → t' ∈ e.2 → Js.indexOf t' toValue ≠ Some p) →
  (∀ e t, e ∈ entries → t ∈ e.2 → is_Some (Js.indexOf t toValue)) →
  foldl (fillEntry toValue) [] entries !! p = Some (Some f).
Proof.
  intros Hi Ht Hp Hlater Hdef.
  rewrite <- (take_drop_middle _ _ _ Hi), foldl_app. simpl.
  assert (Hsub : ∀ e, e ∈ drop (S i) entries → ∃ j, i < j ∧ entries !! j = Some e).
  { intros e (k & Hk)%list_elem_of_lookup. rewrite lookup_drop in Hk.
    exists (S i + k). split; [lia|done]. }
  apply fillEntries_keep.
  - apply (fillEntry_set _ _ _ t); [done|done|].
    intros t' Ht'. apply (Hdef (f, ts)); [|done]. by eapply list_elem_of_lookup_2.
  - intros e t' He Ht'. destruct (Hsub e He) as (j & Hj & Hej). by eapply Hlater.
  - intros e t' He Ht'. destruct (Hsub e He) as (j & Hj & Hej).
    apply (Hdef e); [|done]. by eapply list_elem_of_lookup_2.
Qed.
End one_mapping.

Lemma fillIndex_Ok (tv : list string) (sz : nat) (fam : string)
    (m : list (string * list (option string))) (f : string)
    (inverted : list (option string)) (t : string) (p : nat) :
  Js.indexOf t tv = Some p → p < sz →
  fillIndex (Some (mkSub (DimValue tv) sz fam m)) f inverted t
  = Js.Ok (fillAt tv f inverted t).
Proof.
  intros Hp Hlt. unfold fillIndex, fillAt. simpl. rewrite Hp. simpl.
  by rewrite decide_True.
Qed.

Lemma targets_Some (reg : gmap string Sub) (e : string) (ts : list string) :
  targets reg e = Some ts →
  (∃ sz f m, reg !! e = Some (mkSub (DimValue ts) sz f m))
  ∨ (∃ i sz f m, reg !! e = Some (mkSub (IndexValue i) sz f m) ∧ ts = [e]).
Proof.
  unfold targets. destruct (reg !! e) as [[[v|i] sz f m]|]; intros [= <-]; eauto 10.
Qed.

Lemma invertStep_Ok (reg : gmap string Sub) (tv : list string) (sz : nat) (fam : string)
    (m : list (string * list (option string))) (f : string) (osub : option string)
    (ts : list string) (inverted : list (option string)) :
  osub ≫= targets reg = Some ts →
  (∀ t, t ∈ ts → ∃ p, Js.indexOf t tv = Some p ∧ p < sz) →
  invertStep reg (Some (mkSub (DimValue tv) sz fam m)) inverted (f, osub)
  = Js.Ok (fillEntry tv inverted (f, ts)).
Proof.
  intros Hts Hvalid. destruct osub as [e|]; [|done]. simpl in Hts.
  unfold invertStep, fillEntry. simpl.
  destruct (targets_Some _ _ _ Hts) as [(sz' & f' & m' & He)|(i & sz' & f' & m' & He & ->)];
    rewrite He.
  - apply foldM_Ok. intros t a Ht. destruct (Hvalid t Ht) as (p & Hp & Hlt).
    by eapply fillIndex_Ok.
  - simpl. destruct (Hvalid e) as (p & Hp & Hlt); [left|]. by eapply fillIndex_Ok.
Qed.

(** The inverted mapping of a well-formed mapping value. *)
Lemma invertMapping_valid (reg : gmap string Sub) (fromValue : list string)
    (toDimName : string) (mappingValue : list (option string))
    (tv : list string) (sz : nat) (fam : string) (m : list (string * list (option string))) :
  reg !! toDimName = Some (mkSub (DimValue tv) sz fam m) →
  (∀ i, i < length fromValue →
        ∃ ts, entryTargets reg mappingValue i = Some ts
              ∧ ∀ t, t ∈ ts → ∃ p, Js.indexOf t tv = Some p ∧ p < sz) →
  mappingValue ≠ [] →
  invertMapping reg fromValue toDimName mappingValue
  = Js.Ok (foldl (fillEntry tv) []
             (imap (λ i f, (f, default [] (entryTargets reg mappingValue i))) fromValue)).
Proof.
  intros HtoDim Hvalid Hne. unfold invertMapping. rewrite decide_False by done.
  rewrite HtoDim.
  set (entries := imap (λ i f, (f, mjoin (mappingValue !! i))) fromValue).
  set (g := λ (a : list (option string)) (x : string * option string),
              fillEntry tv a (x.1, default [] (x.2 ≫= targets reg))).
  rewrite (foldM_Ok_lookup _ g).
  - f_equal. unfold g.
    replace (imap (λ i f, (f, default [] (entryTargets reg mappingValue i))) fromValue)
      with ((λ x : string * option string, (x.1, default [] (x.2 ≫= targets reg)))
              <$> entries).
    + generalize (@nil (option string)). induction entries as [|x l IH]; intros a; [done|].
      simpl. by rewrite IH.
    + unfold entries. by rewrite fmap_imap.
  - intros i [f osub] a Hi. unfold entries in Hi.
    apply list_lookup_imap_Some in Hi as (f' & Hf' & [= -> ->]).
    destruct (Hvalid i) as (ts & Hts & Hpos); [by eapply lookup_lt_Some|].
    unfold g. cbn [fst snd]. unfold entryTargets in Hts. rewrite Hts. cbn [default].
    by eapply invertStep_Ok.
Qed.

Lemma invertMapping_spec (reg : gmap string Sub) (fromValue : list string)
    (toDimName : string) (mappingValue : list (option string)) :
  (mappingValue = [] →
   invertMapping reg fromValue toDimName mappingValue = Js.Ok (Some <$> fromValue))
  ∧ (mappingValue ≠ [] → validMapping reg fromValue toDimName mappingValue →
     ∃ inverted tv, invertMapping reg fromValue toDimName mappingValue = Js.Ok inverted
       ∧ dimValue reg toDimName = Some tv
       ∧ ∀ fromIndName p, mapsOnto reg fromValue tv mappingValue fromIndName p →
                          inverted !! p = Some (Some fromIndName)).
Proof.
  split.
  - intros ->. unfold invertMapping. by rewrite decide_True.
  - intros Hne (tv & sz & fam & m & HtoDim & Hvalid).
    eexists _, tv. split; [by eapply invertMapping_valid|]. split.
    { unfold dimValue. by rewrite HtoDim. }
    intros f p (i & ts & t & Hi & Hts & Ht & Hp & Hlater).
    eapply (fillEntries_last tv _ i f ts t p); try done.
    + rewrite list_lookup_imap, Hi. simpl. by rewrite Hts.
    + intros j [f' ts'] t' Hj He Ht'. simpl in Ht'.
      apply list_lookup_imap_Some in He as (f'' & Hf'' & [= -> ->]).
      destruct (Hvalid j) as (ts'' & Hts'' & _); [by eapply lookup_lt_Some|].
      rewrite Hts'' in Ht'. simpl in Ht'.
      eapply Hlater; [done|by eapply lookup_lt_Some|done|done].
    + intros [f' ts'] t' (j & He)%list_elem_of_lookup Ht'. simpl in Ht'.
      apply list_lookup_imap_Some in He as (f'' & Hf'' & [= -> ->]).
      destruct (Hvalid j) as (ts'' & Hts'' & Hpos); [by eapply lookup_lt_Some|].
      rewrite Hts'' in Ht'. simpl in Ht'. destruct (Hpos t' Ht') as (q & -> & _). eauto.
Qed.

(** *** Storing the inverted mappings *)

Lemma foldM_ext {A B} (f g : A → B → Js.Result A) (l : list B) (a : A) :
  (∀ a x, f a x = g a x) → Js.foldM f a l = Js.foldM g a l.
Proof.
  intros Hfg. revert a. induction l as [|x l IH]; intros a; [done|].
  simpl. rewrite Hfg. destruct (g a x); simpl; [apply IH|done].
Qed.

Lemma fillIndex_erase (o1 o2 : option Sub) (f : string) (inverted : list (option string))
    (t : string) :
  set_mappings [] <$> o1 = set_mappings [] <$> o2 →
  fillIndex o1 f inverted t = fillIndex o2 f inverted t.
Proof.
  destruct o1 as [[v1 s1 f1 m1]|], o2 as [[v2 s2 f2 m2]|]; intros [=]; subst; try done.
  unfold fillIndex, toDimIndexOf. simpl. by destruct v2.
Qed.

Lemma invertStep_erase (reg reg0 : gmap string Sub) (o1 o2 : option Sub)
    (inverted : list (option string)) (e : string * option string) :
  (∀ n, set_mappings [] <$> reg !! n = set_mappings [] <$> reg0 !! n) →
  set_mappings [] <$> o1 = set_mappings [] <$> o2 →
  invertStep reg o1 inverted e = invertStep reg0 o2 inverted e.
Proof.
  intros Hreg Ho. destruct e as [f [name|]]; [|done]. unfold invertStep.
  specialize (Hreg name).
  destruct (reg !! name) as [[[v|i] s1 f1 m1]|], (reg0 !! name) as [[[v0|i0] s2 f2 m2]|];
    simplify_eq/=; try done.
  - apply foldM_ext. intros a x. by apply fillIndex_erase.
  - by apply fillIndex_erase.
Qed.

Lemma invertMapping_erase (reg reg0 : gmap string Sub) (fromValue : list string)
    (toDimName : string) (mappingValue : list (option string)) :
  (∀ n, set_mappings [] <$> reg !! n = set_mappings [] <$> reg0 !! n) →
  invertMapping reg fromValue toDimName mappingValue
  = invertMapping reg0 fromValue toDimName mappingValue.
Proof.
  intros Hreg. unfold invertMapping. destruct (decide (mappingValue = [])); [done|].
  apply foldM_ext. intros a x. by apply invertStep_erase.
Qed.

Lemma mapping_get_app_r (k : string) (l1 l2 : list (string * list (option string))) :
  k ∉ l1.*1 → mapping_get k (l1 ++ l2) = mapping_get k l2.
Proof.
  unfold mapping_get. induction l1 as [|[k' x] l1 IH]; intros Hk; [done|].
  simpl in *. rewrite bool_decide_eq_false_2 by set_solver. apply IH. set_solver.
Qed.

Lemma mapping_set_app_r (k : string) (x : list (option string))
    (l1 l2 : list (string * list (option string))) :
  k ∉ l1.*1 → mapping_set k x (l1 ++ l2) = l1 ++ mapping_set k x l2.
Proof.
  induction l1 as [|[k' y] l1 IH]; intros Hk; [done|].
  simpl in *. rewrite decide_False by set_solver. f_equal. apply IH. set_solver.
Qed.

Lemma mapping_get_elem (k : string) (x : list (option string))
    (m : list (string * list (option string))) :
  NoDup (m.*1) → (k, x) ∈ m → mapping_get k m = Some x.
Proof.
  induction m as [|[k' y] m IH]; intros Hnd Hin; [by apply elem_of_nil in Hin|].
  simpl in Hnd. apply NoDup_cons in Hnd as [Hk' Hnd].
  unfold mapping_get. simpl. apply elem_of_cons in Hin as [[= <- <-]|Hin].
  - by rewrite bool_decide_eq_true_2.
  - rewrite bool_decide_eq_false_2; [by apply IH|].
    intros ->. apply Hk', list_elem_of_fmap. by exists (k, x).
Qed.

Lemma mapping_get_Some (k : string) (x : list (option string))
    (m : list (string * list (option string))) :
  mapping_get k m = Some x → (k, x) ∈ m.
Proof.
  unfold mapping_get. destruct (find _ m) as [[k' y]|] eqn:E; [|done].
  intros [= <-]. apply find_Some_elem in E as [Hin Hk].
  apply bool_decide_eq_true in Hk. simpl in Hk. by subst.
Qed.

Section store.
Context (reg0 : gmap string Sub).


Lemma inverted0_keys (v : list string) (m : list (string * list (option string))) :
  (inverted0 reg0 v <$> m).*1 = m.*1.
Proof. rewrite <- list_fmap_compose. by apply list_fmap_ext. Qed.

Lemma invertDimMapping_Ok (fromName : string) (reg : gmap string Sub) (k : string)
    (v : list string) (sz : nat) (f : string) (m : list (string * list (option string)))
    (mv i : list (option string)) :
  reg !! fromName = Some (mkSub (DimValue v) sz f m) →
  mapping_get k m = Some mv →
  invertMapping reg v k mv = Js.Ok i →
  invertDimMapping fromName reg k
  = Js.Ok (<[fromName := mkSub (DimValue v) sz f (mapping_set k i m)]> reg).
Proof. intros Hfrom Hget Hi. unfold invertDimMapping. by rewrite Hfrom, Hget, Hi. Qed.

Lemma invertDim_fold (fromName : string) (v : list string) (sz : nat) (f : string)
    (suffix done_ : list (string * list (option string))) (reg : gmap string Sub) :
  NoDup ((done_ ++ suffix).*1) → invertible reg0 v suffix →
  (∀ n, set_mappings [] <$> reg !! n = set_mappings [] <$> reg0 !! n) →
  reg !! fromName = Some (mkSub (DimValue v) sz f ((inverted0 reg0 v <$> done_) ++ suffix)) →
  Js.foldM (invertDimMapping fromName) reg (suffix.*1)
  = Js.Ok (<[fromName := mkSub (DimValue v) sz f (inverted0 reg0 v <$> (done_ ++ suffix))]> reg).
Proof.
  revert done_ reg. induction suffix as [|[k mv] suffix IH]; intros done_ reg Hnd Hinv Hreg Hfrom.
  - simpl. rewrite app_nil_r in *. by rewrite insert_id.
  - rewrite fmap_cons. cbn [Js.foldM fst].
    assert (Hk : k ∉ (inverted0 reg0 v <$> done_).*1).
    { rewrite inverted0_keys. rewrite fmap_app in Hnd. apply NoDup_app in Hnd as (_ & Hnd & _).
      intros Hk. apply (Hnd k Hk). left. }
    destruct (Hinv (k, mv)) as [i Hi]; [left|]. simpl in Hi.
    erewrite invertDimMapping_Ok; [|exact Hfrom| |].
    2: { rewrite mapping_get_app_r by done.
         unfold mapping_get. simpl. by rewrite bool_decide_eq_true_2. }
    2: { by rewrite (invertMapping_erase reg reg0). }
    rewrite mapping_set_app_r by done. simpl. rewrite decide_True by done.
    rewrite (IH (done_ ++ [(k, mv)])).
    + rewrite insert_insert_eq. by rewrite <- app_assoc.
    + by rewrite <- app_assoc.
    + intros e He. apply Hinv. by right.
    + intros n. rewrite lookup_insert. destruct (decide (fromName = n)) as [<-|]; [|done].
      rewrite <- Hreg, Hfrom. done.
    + assert (Hi0 : inverted0 reg0 v (k, mv) = (k, i)).
      { unfold inverted0. simpl. by rewrite Hi. }
      by rewrite lookup_insert_eq, fmap_app, <- app_assoc, fmap_cons, Hi0.
Qed.

Lemma invertDim_Ok (reg : gmap string Sub) (fromName : string) (v : list string)
    (sz : nat) (f : string) (m : list (string * list (option string))) :
  NoDup (m.*1) → invertible reg0 v m →
  (∀ n, set_mappings [] <$> reg !! n = set_mappings [] <$> reg0 !! n) →
  reg !! fromName = Some (mkSub (DimValue v) sz f m) →
  invertDim reg fromName
  = Js.Ok (<[fromName := mkSub (DimValue v) sz f (inverted0 reg0 v <$> m)]> reg).
Proof.
  intros Hnd Hinv Hreg Hfrom. unfold invertDim. rewrite Hfrom.
  by apply (invertDim_fold fromName v sz f m []).
Qed.


Lemma invertMappings_fold (l visited : list string) (reg : gmap string Sub) :
  NoDup (visited ++ l) → (∀ n, n ∈ l → invertibleDim reg0 n) →
  (∀ n, reg !! n = if decide (n ∈ visited) then stored reg0 n else reg0 !! n) →
  ∃ reg', Js.foldM invertDim reg l = Js.Ok reg'
          ∧ ∀ n, reg' !! n = if decide (n ∈ visited ++ l) then stored reg0 n else reg0 !! n.
Proof.
  revert visited reg. induction l as [|name l IH]; intros visited reg Hnd Hinv HJ.
  - exists reg. split; [done|]. intros n. by rewrite app_nil_r.
  - assert (Herase : ∀ n, set_mappings [] <$> reg !! n = set_mappings [] <$> reg0 !! n).
    { intros n. rewrite HJ. destruct (decide (n ∈ visited)); [|done].
      unfold stored. destruct (reg0 !! n) as [[[v|i] ? ? ?]|]; done. }
    assert (Hfresh : name ∉ visited).
    { apply NoDup_app in Hnd as (_ & Hnd & _). intros Hv. apply (Hnd name Hv). left. }
    assert (Hname : reg !! name = reg0 !! name) by (by rewrite HJ, decide_False).
    assert (Hstep : ∃ reg1, invertDim reg name = Js.Ok reg1
              ∧ ∀ n, reg1 !! n
                     = if decide (n ∈ visited ++ [name]) then stored reg0 n else reg0 !! n).
    { destruct (reg0 !! name) as [[[v|i] sz f m]|] eqn:Hd0.
      - destruct (Hinv name) with v sz f m as [Hnd' Hinv']; [left|done|].
        exists (<[name := mkSub (DimValue v) sz f (inverted0 reg0 v <$> m)]> reg).
        split; [by apply invertDim_Ok|].
        intros n. rewrite lookup_insert. destruct (decide (name = n)) as [<-|Hne].
        + rewrite decide_True by (apply elem_of_app; right; left).
          unfold stored. by rewrite Hd0.
        + rewrite HJ. destruct (decide (n ∈ visited)), (decide (n ∈ visited ++ [name]));
            try done; exfalso; set_solver.
      - exists reg. split; [unfold invertDim; by rewrite Hname|].
        intros n. rewrite HJ.
        destruct (decide (n ∈ visited)), (decide (n ∈ visited ++ [name])); try done.
        + exfalso; set_solver.
        + assert (n = name) as -> by set_solver. unfold stored. by rewrite Hd0.
      - exists reg. split; [unfold invertDim; by rewrite Hname|].
        intros n. rewrite HJ.
        destruct (decide (n ∈ visited)), (decide (n ∈ visited ++ [name])); try done.
        + exfalso; set_solver.
        + assert (n = name) as -> by set_solver. unfold stored. by rewrite Hd0. }
    destruct Hstep as (reg1 & Hrun1 & HJ1).
    destruct (IH (visited ++ [name]) reg1) as (reg' & Hrun & HJ').
    + by rewrite <- app_assoc.
    + intros n Hn. apply Hinv. by right.
    + done.
    + exists reg'. simpl. rewrite Hrun1. simpl. split; [done|].
      intros n. rewrite HJ'. by rewrite <- app_assoc.
Qed.
End store.

(** C7 (as amended).  When the dimensions are listed once and every mapping
    value is empty or well formed, the inversion loop ends normally and
    stores, for every map-from dimension and every map-to name, the inverted
    value: the map-from dimension's own index list when the declared value
    was empty, and otherwise an array whose position [p] holds the last
    map-from index with an entry standing for the map-to index at [p]. *)
Theorem invertMappings_stores (order : list string) (reg : gmap string Sub) :
  NoDup order →
  (∀ fromName v sz f m, fromName ∈ order →
     reg !! fromName = Some (mkSub (DimValue v) sz f m) →
     NoDup (m.*1) ∧ ∀ k mv, (k, mv) ∈ m → mv = [] ∨ validMapping reg v k mv) →
  ∃ reg', invertMappings order reg = Js.Ok reg'
    ∧ ∀ fromName v sz f m, fromName ∈ order →
        reg !! fromName = Some (mkSub (DimValue v) sz f m) →
        ∃ m', reg' !! fromName = Some (mkSub (DimValue v) sz f m')
          ∧ m'.*1 = m.*1
          ∧ ∀ toDimName mv, mapping_get toDimName m = Some mv →
              ∃ inverted, mapping_get toDimName m' = Some inverted
                ∧ (mv = [] → inverted = Some <$> v)
                ∧ (mv ≠ [] →
                   ∃ tv, dimValue reg toDimName = Some tv
                     ∧ ∀ fromIndName p, mapsOnto reg v tv mv fromIndName p →
                                        inverted !! p = Some (Some fromIndName)).
Proof.
  intros Hnd Hvalid.
  assert (Hinv : ∀ n, n ∈ order → invertibleDim reg n).
  { intros n Hn v sz f m Hd. destruct (Hvalid n v sz f m Hn Hd) as [Hkeys Hm].
    split; [done|]. intros [k mv] He. simpl.
    destruct (invertMapping_spec reg v k mv) as [Hempty Hfull].
    destruct (Hm k mv He) as [->|Hv]; [eauto|].
    destruct (decide (mv = [])) as [->|Hne]; [eauto|].
    destruct (Hfull Hne Hv) as (i & _ & Hi & _). eauto. }
  assert (H0 : ∀ n, reg !! n = if decide (n ∈ []) then stored reg n else reg !! n).
  { intros n. by rewrite decide_False by apply not_elem_of_nil. }
  destruct (invertMappings_fold reg order [] reg Hnd Hinv H0) as (reg' & Hrun & Hreg').
  exists reg'. split; [done|].
  intros fromName v sz f m Hfrom Hd.
  destruct (Hinv fromName Hfrom v sz f m Hd) as [Hkeys Hok].
  exists (inverted0 reg v <$> m). split; [|split].
  - rewrite Hreg', decide_True by done. unfold stored. by rewrite Hd.
  - apply inverted0_keys.
  - intros k mv Hget. apply mapping_get_Some in Hget as Hin.
    destruct (Hok (k, mv) Hin) as [i Hi]. simpl in Hi.
    exists i. split; [|split].
    + apply mapping_get_elem; [by rewrite inverted0_keys|].
      apply list_elem_of_fmap. exists (k, mv). split; [|done].
      unfold inverted0. simpl. by rewrite Hi.
    + intros ->. destruct (invertMapping_spec reg v k []) as [Hempty _].
      rewrite Hempty in Hi by done. by injection Hi as <-.
    + intros Hne. destruct (invertMapping_spec reg v k mv) as [_ Hfull].
      destruct (Hvalid fromName v sz f m Hfrom Hd) as [_ Hm].
      destruct (Hm k mv Hin) as [->|Hv]; [done|].
      destruct (Hfull Hne Hv) as (i' & tv & Hi' & Htv & Hpos).
      rewrite Hi in Hi'. injection Hi' as <-. eauto.
Qed.



Lemma invertMappings_stores_witness :
  NoDup Ex.order2
  ∧ (∀ fromName v sz f m, fromName ∈ Ex.order2 →
       Ex.indexed2 !! fromName = Some (mkSub (DimValue v) sz f m) →
       NoDup (m.*1) ∧ ∀ k mv, (k, mv) ∈ m → mv = [] ∨ validMapping Ex.indexed2 v k mv)
  ∧ ∃ reg', invertMappings Ex.order2 Ex.indexed2 = Js.Ok reg'
      ∧ ∀ fromName v sz f m, fromName ∈ Ex.order2 →
          Ex.indexed2 !! fromName = Some (mkSub (DimValue v) sz f m) →
          ∃ m', reg' !! fromName = Some (mkSub (DimValue v) sz f m')
            ∧ m'.*1 = m.*1
            ∧ ∀ toDimName mv, mapping_get toDimName m = Some mv →
                ∃ inverted, mapping_get toDimName m' = Some inverted
                  ∧ (mv = [] → inverted = Some <$> v)
                  ∧ (mv ≠ [] →
                     ∃ tv, dimValue Ex.indexed2 toDimName = Some tv
                       ∧ ∀ fromIndName p, mapsOnto Ex.indexed2 v tv mv fromIndName p →
                                          inverted !! p = Some (Some fromIndName)).
Proof.
  assert (H1 : NoDup Ex.order2) by (apply (bool_decide_unpack _); vm_compute; exact I).
  assert (H2 : ∀ fromName v sz f m, fromName ∈ Ex.order2 →
       Ex.indexed2 !! fromName = Some (mkSub (DimValue v) sz f m) →
       NoDup (m.*1) ∧ ∀ k mv, (k, mv) ∈ m → mv = [] ∨ validMapping Ex.indexed2 v k mv).
  { intros fromName v sz f m Hin Hd. unfold Ex.order2 in Hin.
    repeat (apply elem_of_cons in Hin as [->|Hin]); [| | |by apply elem_of_nil in Hin];
      vm_compute in Hd; injection Hd as <- <- <- <-.
    - split; [apply NoDup_singleton|].
      intros k mv [= -> ->]%list_elem_of_singleton. right.
      exists ["_t1"; "_t2"], 2, "_t", []. split; [vm_compute; reflexivity|].
      intros [|[|i]] Hi; [..|simpl in Hi; lia].
      + exists ["_t2"]. split; [vm_compute; reflexivity|].
        intros t ->%list_elem_of_singleton. exists 1. split; [vm_compute; reflexivity|lia].
      + exists ["_t1"]. split; [vm_compute; reflexivity|].
        intros t ->%list_elem_of_singleton. exists 0. split; [vm_compute; reflexivity|lia].
    - split; [apply NoDup_nil_2|]. by intros k mv ?%elem_of_nil.
    - split; [apply NoDup_nil_2|]. by intros k mv ?%elem_of_nil. }
  split; [exact H1|]. split; [exact H2|].
  exact (invertMappings_stores Ex.order2 Ex.indexed2 H1 H2).
Defined.

Example invertMappings_swap :
  ∃ reg', invertMappings Ex.order2 Ex.indexed2 = Js.Ok reg'
          ∧ mappings <$> reg' !! "_f" = Some [("_t", [Some "_f2"; Some "_f1"])].
Proof. eexists. split; vm_compute; reflexivity. Qed.

(** C7 (counterexample).  The mapping F -> (T: T1, X1) names X1, an index that
    is not one of T: reading the ranges ends in the [ReferenceError] on
    [toSubName] thrown while the message is built, not in a mapping error,
    and nothing has been printed.  The mapping F -> (T: T1, Nowhere) names no
    subscript: the read of [toSub.name] throws a [TypeError]. *)
Lemma invertMappings_unknown_index_counterexample :
  isIndex Ex.indexed2 "_x1" = true
  ∧ dimValue Ex.indexed2 "_t" = Some ["_t1"; "_t2"]
  ∧ readSubscriptRanges 5 None Ex.declared_foreign
    = Some (Js.Throw (Js.ReferenceError "toSubName"))
  ∧ readSubscriptRanges 5 None Ex.declared_unknown = Some (Js.Throw Js.TypeError).
Proof. repeat split; vm_compute; reflexivity. Qed.

(** ** Loading the I/O spec *)

(** C9 (as amended).  When the contents of the spec file are not parseable
    JSON, the loader returns the empty spec: the exception of the parser is
    caught and dropped, nothing is printed, and the pipeline continues with
    the default. *)
Theorem parseSpec_unparseable (read : string → option string)
    (JSON_parse : string → option Generate.Json)
    (canonicalName : Generate.Json → option string) (specFilename text : string) :
  read specFilename = Some text → JSON_parse text = None →
  Generate.parseJsonFile read JSON_parse specFilename = Generate.JObject []
  ∧ Generate.parseSpec read JSON_parse canonicalName specFilename
    = Js.Ok (Generate.JObject []).
Proof.
  intros Hread Hparse.
  assert (H : Generate.parseJsonFile read JSON_parse specFilename = Generate.JObject []).
  { unfold Generate.parseJsonFile. by rewrite Hread, Hparse. }
  split; [done|]. unfold Generate.parseSpec. by rewrite H.
Qed.

Lemma parseSpec_unparseable_witness :
  Ex.sample_files "broken_spec.json"
  = Some ("{ " +:+ Ex.quoted "outputVars" +:+ ": [" +:+ Ex.quoted "y")
  ∧ Ex.sample_parse ("{ " +:+ Ex.quoted "outputVars" +:+ ": [" +:+ Ex.quoted "y") = None
  ∧ Generate.parseJsonFile Ex.sample_files Ex.sample_parse "broken_spec.json"
    = Generate.JObject []
  ∧ Generate.parseSpec Ex.sample_files Ex.sample_parse Ex.sample_canonicalName
      "broken_spec.json" = Js.Ok (Generate.JObject []).
Proof.
  assert (H1 : Ex.sample_files "broken_spec.json"
               = Some ("{ " +:+ Ex.quoted "outputVars" +:+ ": [" +:+ Ex.quoted "y"))
    by reflexivity.
  assert (H2 : Ex.sample_parse ("{ " +:+ Ex.quoted "outputVars" +:+ ": [" +:+ Ex.quoted "y")
               = None) by (vm_compute; reflexivity).
  split; [exact H1|]. split; [exact H2|].
  exact (parseSpec_unparseable Ex.sample_files Ex.sample_parse Ex.sample_canonicalName
           "broken_spec.json" _ H1 H2).
Defined.

(** C9 (counterexample).  The file broken_spec.json holds JSON text cut off in
    the middle; loading it does not end the process: the loader hands the
    empty spec to the rest of the pipeline. *)
Lemma parseSpec_unparseable_counterexample :
  (Ex.sample_files "broken_spec.json" ≫= Ex.sample_parse) = None
  ∧ ¬ Generate.exitsWithDiagnostic
        (Generate.parseSpec Ex.sample_files Ex.sample_parse Ex.sample_canonicalName
           "broken_spec.json")
  ∧ Generate.parseSpec Ex.sample_files Ex.sample_parse Ex.sample_canonicalName
      "broken_spec.json" = Js.Ok (Generate.JObject []).
Proof.
  split; [vm_compute; reflexivity|]. split; [|vm_compute; reflexivity].
  intros [e He]. vm_compute in He. discriminate.
Qed.

Example parseSpec_well_formed :
  Generate.parseSpec Ex.sample_files Ex.sample_parse Ex.sample_canonicalName "spec.json"
  = Js.Ok (Generate.JObject
             [("outputVars", Generate.JArray [Generate.JString "y"]);
              ("dimensionFamilies",
               Generate.JObject [("_sub_a", Generate.JString "_dim_a")])]).
Proof. vm_compute. reflexivity. Qed.

(** ** Evaluation orders *)





Lemma requireAll_Ok {A} (l : list (option A)) (l' : list A) :
  Js.requireAll l = Js.Ok l' ↔ l = Some <$> l'.
Proof.
  split.
  - revert l'. induction l as [|[x|] l IH]; intros l' H; simpl in H.
    + by injection H as <-.
    + destruct (Js.requireAll l) as [k|e]; simpl in H; [|done].
      injection H as <-. by rewrite (IH k).
    + done.
  - intros ->. induction l' as [|y l' IH]; [done|].
    rewrite fmap_cons. simpl. by rewrite IH.
Qed.

Lemma requireAll_fmap {A B} (f : A → option B) (l : list A) (l' : list B) :
  Js.requireAll (f <$> l) = Js.Ok l' ↔ Forall2 (λ x y, f x = Some y) l l'.
Proof.
  rewrite requireAll_Ok. split.
  - revert l'. induction l as [|x l IH]; intros [|y l'] H; simplify_eq/=; constructor; eauto.
  - induction 1 as [|x y l l' Hx _ IH]; [done|]. rewrite !fmap_cons. congruence.
Qed.

Lemma mapM_Ok {A B} (f : A → Js.Result B) (l : list A) (l' : list B) :
  Js.mapM f l = Js.Ok l' ↔ Forall2 (λ x y, f x = Js.Ok y) l l'.
Proof.
  split.
  - revert l'. induction l as [|x l IH]; intros l' H; simpl in H.
    + injection H as <-. constructor.
    + destruct (f x) as [y|e] eqn:Hx; simpl in H; [|done].
      destruct (Js.mapM f l) as [k|e]; simpl in H; [|done].
      injection H as <-. constructor; eauto.
  - induction 1 as [|x y l l' Hx _ IH]; [done|]. simpl. by rewrite Hx, IH.
Qed.

Section table.
Context (reg : gmap string Sub) (vars : list Var).
Hypothesis refIds_unique : NoDup (refId <$> vars).





End table.

Lemma elem_of_concat {A} (x : A) (ls : list (list A)) :
  x ∈ concat ls ↔ ∃ l, x ∈ l ∧ l ∈ ls.
Proof.
  induction ls as [|l ls IH]; simpl.
  - split; [by intros ?%elem_of_nil|]. by intros (? & _ & ?%elem_of_nil).
  - rewrite elem_of_app, IH. split.
    + intros [?|(l' & ? & ?)]; [exists l; split; [done|left]|exists l'; split; [done|by right]].
    + intros (l' & Hx & [->|?]%elem_of_cons); [by left|right; eauto].
Qed.

Lemma Forall2_elem_r {A B} (R : A → B → Prop) (l : list A) (l' : list B) (y : B) :
  Forall2 R l l' → y ∈ l' → ∃ x, x ∈ l ∧ R x y.
Proof.
  intros HF (i & Hi)%list_elem_of_lookup.
  destruct (Forall2_lookup_r _ _ _ _ _ HF Hi) as (x & Hx & HR).
  exists x. split; [by eapply list_elem_of_lookup_2|done].
Qed.


Lemma Forall2_total {A B} (R : A → B → Prop) (l : list A) :
  (∀ x, x ∈ l → ∃ y, R x y) → ∃ l', Forall2 R l l'.
Proof.
  induction l as [|x l IH]; intros H; [exists []; constructor|].
  destruct (H x) as [y Hy]; [left|]. destruct IH as [l' Hl'].
  { intros x' Hx'. apply H. by right. }
  exists (y :: l'). by constructor.
Qed.


Lemma StronglySorted_weaken {A} (R Q : A → A → Prop) (l : list A) :
  StronglySorted R l → (∀ x y, R x y → Q x y) → StronglySorted Q l.
Proof.
  intros Hs HRQ. induction Hs as [|x l _ IH Hx]; constructor; [done|].
  eapply Forall_impl; [exact Hx|]. intros y. apply HRQ.
Qed.


Section step_order.
Context (reg : gmap string Sub) (vars : list Var) (type : string).



End step_order.





Example sortVarsOfType_aux :
  sortVarsOfType Ex.sample_toposort ∅ Ex.table3 "aux"
  = Js.Ok [ mkVar "d" "_d" [] "_d" "aux" false ["_time"] [];
            mkVar "b" "_b" [] "_b" "aux" false ["_time"] [];
            mkVar "a" "_a" [] "_a" "aux" false ["_b"] [] ].
Proof. vm_compute. reflexivity. Qed.

Example sortVarsOfType_level :
  depGraph ∅ Ex.table4 "level" = Js.Ok [("_s2", "_s1")]
  ∧ sortVarsOfType Ex.sample_toposort ∅ Ex.table4 "level"
    = Js.Ok [ mkVar "s1" "_s1" [] "_s1" "level" true ["_s2"] [];
              mkVar "s2" "_s2" [] "_s2" "level" true [] [] ].
Proof. split; vm_compute; reflexivity. Qed.

(** ** The init-time order *)
(** ** The init-time order *)




Section enqueue.
Context (reg : gmap string Sub) (vars : list Var) (depsMap : list (string * list string)).



End enqueue.


Section queue_loop.
Context (reg : gmap string Sub) (vars : list Var).
Hypothesis refIds_unique : NoDup (refId <$> vars).
Hypothesis refs_direct : ∀ v r, v ∈ vars → r ∈ initRefs v → ∃ w, w ∈ vars ∧ refId w = r.
Hypothesis refs_not_const :
  ∀ v r w, v ∈ vars → r ∈ initRefs v → w ∈ vars → refId w = r → varType w ≠ "const".




End queue_loop.




Section init_order.
Context (reg : gmap string Sub) (vars : list Var).
Hypothesis refIds_unique : NoDup (refId <$> vars).
Hypothesis refs_direct : ∀ v r, v ∈ vars → r ∈ initRefs v → ∃ w, w ∈ vars ∧ refId w = r.
Hypothesis refs_not_const :
  ∀ v r w, v ∈ vars → r ∈ initRefs v → w ∈ vars → refId w = r → varType w ≠ "const".




End init_order.





Example sortInitVars_stock :
  initGraph 5 ∅ Ex.table5
  = Some [("_stock", "_init_stock"); ("_init_stock", "_base"); ("_base", "_time")]
  ∧ sortInitVars Ex.sample_toposort 5 ∅ Ex.table5
    = Some (Js.Ok [ mkVar "Time" "_time" [] "_time" "" false [] [];
                    mkVar "base" "_base" [] "_base" "aux" false ["_time"] [];
                    mkVar "init stock" "_init_stock" [] "_init_stock" "aux" false ["_base"] [];
                    mkVar "stock" "_stock" [] "_stock" "level" true ["_inflow"]
                          ["_init_stock"] ]).
Proof. split; vm_compute; reflexivity. Qed.

Example sortInitVars_cycle :
  initGraph 3 ∅ Ex.table6 = Some [("_q", "_p"); ("_p", "_q")]
  ∧ Ex.sample_toposort [("_q", "_p"); ("_p", "_q")] = None
  ∧ sortInitVars Ex.sample_toposort 3 ∅ Ex.table6 = Some (Js.Throw (Js.ProcessExit 1)).
Proof. repeat split; vm_compute; reflexivity. Qed.

(** ** The variable table read by name *)

Lemma uniq_go_NoDup {A} `{EqDecision A} (seen l : list A) : NoDup (Js.uniq_go seen l).
Proof.
  revert seen. induction l as [|x l IH]; intros seen; simpl; [constructor|].
  destruct (decide (x ∈ seen)); [done|].
  constructor; [|done]. rewrite uniq_go_elem. set_solver.
Qed.

Lemma sort_strings_sorted (l : list string) : StronglySorted String.le (Js.sort_strings l).
Proof.
  unfold Js.sort_strings.
  eapply (StronglySorted_weaken (Js.le_of Js.str_gt)).
  - apply sort_by_sorted.
    + intros a b. unfold Js.str_gt. intros Hab.
      apply str_lt_false. apply str_lt_true in Hab.
      destruct (total String.le a b); tauto.
    + intros a b c. unfold Js.str_gt. rewrite !str_lt_false. intros. by etrans.
  - intros x y. unfold Js.le_of, Js.str_gt. by rewrite str_lt_false.
Qed.

(** X1. [varNames()] lists the varNames of the table, each once, in
    ascending order. *)
Theorem varNames_sorted_once (vars : list Var) :
  NoDup (varNames vars)
  ∧ StronglySorted String.le (varNames vars)
  ∧ ∀ n, n ∈ varNames vars ↔ ∃ v, v ∈ vars ∧ varName v = n.
Proof.
  split; [|split].
  - unfold varNames, Js.sort_strings. rewrite sort_by_perm. apply uniq_go_NoDup.
  - apply sort_strings_sorted.
  - apply varNames_elem.
Qed.

(** X2. [varWithName(n)] is the first of the records [varsWithName(n)] returns
    in table order, and it is [undefined] exactly when [n] is not one of
    [varNames()]; [refIdsWithName(n)] lists the refIds of [varsWithName(n)],
    which are the records of the table with that name. *)
Theorem varWithName_first (vars : list Var) (n : string) :
  varWithName vars n = head (varsWithName vars n)
  ∧ (varWithName vars n = None ↔ n ∉ varNames vars)
  ∧ (∀ v, v ∈ varsWithName vars n ↔ v ∈ vars ∧ varName v = n)
  ∧ length (refIdsWithName vars n) = length (varsWithName vars n).
Proof.
  assert (Hhead : varWithName vars n = head (varsWithName vars n)).
  { unfold varWithName, varsWithName. induction vars as [|v vars IH]; [done|].
    rewrite filter_cons. cbn [find]. case_bool_decide; [by rewrite decide_True|].
    by rewrite decide_False. }
  split; [done|]. split; [|split].
  - rewrite Hhead, varNames_elem. split.
    + intros Hnone (v & Hv & Hn).
      assert (Hin : v ∈ varsWithName vars n) by (by apply list_elem_of_filter).
      destruct (varsWithName vars n); [by apply elem_of_nil in Hin|done].
    + intros Hno. destruct (varsWithName vars n) as [|v l] eqn:E; [done|].
      exfalso. apply Hno. exists v.
      assert (Hin : v ∈ varsWithName vars n) by (rewrite E; left).
      apply list_elem_of_filter in Hin. tauto.
  - intros v. unfold varsWithName. rewrite list_elem_of_filter. tauto.
  - unfold refIdsWithName. by rewrite length_fmap.
Qed.

(** ** Non-apply-to-all flags *)

Lemma findNonAtoA_fold_value (vars : list Var) (names : gmap string (list bool))
    (l : list string) (n : string) :
  foldl (λ names name,
           let vs := varsWithName vars name in
           if decide (1 < length vs) then <[name := expansionDims vs]> names
           else names) names l !! n
  = if decide (n ∈ l ∧ 1 < length (varsWithName vars n))
    then Some (expansionDims (varsWithName vars n))
    else names !! n.
Proof.
  revert names. induction l as [|m l IH]; intros names; simpl.
  - done.
  - rewrite IH. destruct (decide (n ∈ l ∧ 1 < length (varsWithName vars n))) as [[Hl Hn]|Hno].
    + rewrite decide_True; [done|]. split; [by right|done].
    + destruct (decide (1 < length (varsWithName vars m))) as [Hm|Hm].
      * destruct (decide (m = n)) as [->|Hmn].
        -- rewrite lookup_insert_eq. rewrite decide_True; [done|]. split; [left|done].
        -- rewrite lookup_insert_ne by done. rewrite decide_False; [done|].
           intros [[->|?]%elem_of_cons ?]; tauto.
      * rewrite decide_False; [done|].
        intros [[->|?]%elem_of_cons ?]; tauto.
Qed.

Lemma areSubsEqual_spec (v0 : Var) (vs : list Var) (i : nat) :
  areSubsEqual (v0 :: vs) i = true
  ↔ ∀ v, v ∈ v0 :: vs → subscripts v !! i = subscripts v0 !! i.
Proof.
  unfold areSubsEqual. rewrite forallb_forall. split.
  - intros H v Hv. apply list_elem_of_In in Hv. apply H in Hv.
    by apply bool_decide_eq_true in Hv.
  - intros H v Hv. apply list_elem_of_In in Hv. apply bool_decide_eq_true. by apply H.
Qed.

(** X3. [findNonAtoAVars()] gives a varName that more than one record carries
    one flag per subscript position of the first of these records: the flag
    is true exactly where some record with that name has another subscript
    than the first one.  The entry of a varName that at most one record
    carries is left as it was. *)
Theorem findNonAtoAVars_flags (st : State) (n : string) :
  (1 < length (varsWithName (variables st) n) →
   ∃ v0 flags, head (varsWithName (variables st) n) = Some v0
     ∧ expansionFlags (nonAtoANames (findNonAtoAVars st)) n = Some flags
     ∧ length flags = length (subscripts v0)
     ∧ ∀ i, i < length (subscripts v0) →
         ∃ b, flags !! i = Some b
           ∧ (b = true ↔ ∃ v, v ∈ variables st ∧ varName v = n
                              ∧ subscripts v !! i ≠ subscripts v0 !! i))
  ∧ (length (varsWithName (variables st) n) ≤ 1 →
     expansionFlags (nonAtoANames (findNonAtoAVars st)) n
     = expansionFlags (nonAtoANames st) n).
Proof.
  unfold expansionFlags. simpl. rewrite findNonAtoA_fold_value. split.
  - intros Hlen. rewrite decide_True; [|split; [apply varsWithName_nonempty; lia|done]].
    destruct (varsWithName (variables st) n) as [|v0 vs] eqn:E; [simpl in Hlen; lia|].
    exists v0, (expansionDims (v0 :: vs)). split; [done|]. split; [done|].
    unfold expansionDims. rewrite length_fmap, length_seq. split; [done|].
    intros i Hi. exists (negb (areSubsEqual (v0 :: vs) i)). split.
    { rewrite list_lookup_fmap, lookup_seq_lt by done. done. }
    rewrite negb_true_iff, <- not_true_iff_false, areSubsEqual_spec, <- Forall_forall. split.
    + intros Hne. apply not_Forall_Exists in Hne; [|intros v; apply _].
      apply Exists_exists in Hne as (v & Hv & Hdiff). exists v.
      rewrite <- E in Hv. apply list_elem_of_filter in Hv as [Hn Hv].
      split; [done|]. split; [done|]. exact Hdiff.
    + intros (v & Hv & Hname & Hdiff) Hall. rewrite Forall_forall in Hall.
      apply Hdiff, Hall. rewrite <- E. by apply list_elem_of_filter.
  - intros Hlen. rewrite decide_False; [done|]. intros [_ ?]. lia.
Qed.

Lemma findNonAtoAVars_flags_witness :
  1 < length (varsWithName (variables Ex.table1) "_x")
  ∧ ∃ v0 flags, head (varsWithName (variables Ex.table1) "_x") = Some v0
      ∧ expansionFlags (nonAtoANames (findNonAtoAVars Ex.table1)) "_x" = Some flags
      ∧ length flags = length (subscripts v0).
Proof.
  assert (H1 : 1 < length (varsWithName (variables Ex.table1) "_x")) by (vm_compute; lia).
  split; [exact H1|].
  destruct (findNonAtoAVars_flags Ex.table1 "_x") as [Hshared _].
  destruct (Hshared H1) as (v0 & flags & Hhead & Hflags & Hlen & _).
  exists v0, flags. split; [exact Hhead|]. split; [exact Hflags|exact Hlen].
Defined.

Example findNonAtoAVars_table1 :
  expansionFlags (nonAtoANames (findNonAtoAVars Ex.table1)) "_x" = Some [true]
  ∧ expansionFlags (nonAtoANames (findNonAtoAVars Ex.table1)) "_y" = None.
Proof. split; vm_compute; reflexivity. Qed.

(** ** Repeating the analysis *)

Lemma refIdForVar_set_refId (names : gmap string (list bool)) (r : string) (v : Var) :
  refIdForVar names (set_refId r v) = refIdForVar names v.
Proof. done. Qed.

Lemma varNames_fmap (g : Var → Var) (vars : list Var) :
  (∀ v, varName (g v) = varName v) → varNames (g <$> vars) = varNames vars.
Proof.
  intros Hg. unfold varNames. rewrite <- list_fmap_compose.
  assert ((varName ∘ g) <$> vars = varName <$> vars) as ->; [|done].
  apply list_fmap_ext. intros _ v _. apply Hg.
Qed.

Lemma forallb_fmap_ext {A} (p q : A → bool) (g : A → A) (l : list A) :
  (∀ x, p (g x) = q x) → forallb p (g <$> l) = forallb q l.
Proof. intros H. induction l as [|x l IH]; [done|]. rewrite fmap_cons. simpl. by rewrite H, IH. Qed.

Lemma expansionDims_fmap (g : Var → Var) (vs : list Var) :
  (∀ v, subscripts (g v) = subscripts v) → expansionDims (g <$> vs) = expansionDims vs.
Proof.
  intros Hg. destruct vs as [|v0 vs]; [done|].
  unfold expansionDims. rewrite fmap_cons, Hg. apply list_fmap_ext. intros _ i _.
  f_equal. unfold areSubsEqual.
  change (g v0 :: (g <$> vs)) with (g <$> (v0 :: vs)).
  apply forallb_fmap_ext. intros v. by rewrite !Hg.
Qed.

Lemma State_eq (st1 st2 : State) :
  variables st1 = variables st2 → nonAtoANames st1 = nonAtoANames st2 → st1 = st2.
Proof. destruct st1, st2. simpl. by intros -> ->. Qed.

(** X4. Detecting the non-apply-to-all names and assigning the refIds a
    second time changes nothing: both read only the varNames and the
    subscripts of the records, which they leave alone. *)
Theorem assignRefIds_idempotent (st : State) :
  assignRefIds (assignRefIds st) = assignRefIds st.
Proof.
  unfold assignRefIds.
  set (names1 := nonAtoANames (findNonAtoAVars st)).
  set (g := λ v, set_refId (refIdForVar names1 v) v).
  assert (Hvars : variables (setRefIds (findNonAtoAVars st)) = g <$> variables st).
  { by rewrite setRefIds_variables. }
  assert (Hnames : nonAtoANames (findNonAtoAVars (setRefIds (findNonAtoAVars st))) = names1).
  { apply map_eq. intros n. cbn [findNonAtoAVars nonAtoANames].
    change (nonAtoANames (setRefIds (findNonAtoAVars st))) with names1.
    rewrite findNonAtoA_fold_value, Hvars.
    rewrite varNames_fmap by done. rewrite varsWithName_fmap by done.
    rewrite length_fmap, expansionDims_fmap by done.
    unfold names1. cbn [findNonAtoAVars nonAtoANames]. rewrite findNonAtoA_fold_value.
    by destruct (decide _). }
  apply State_eq.
  - rewrite setRefIds_variables. rewrite Hnames.
    change (variables (findNonAtoAVars (setRefIds (findNonAtoAVars st))))
      with (variables (setRefIds (findNonAtoAVars st))).
    rewrite Hvars, <- list_fmap_compose. by apply list_fmap_ext.
  - exact Hnames.
Qed.

(** X5. Pruning the constant references a second time changes nothing. *)
Theorem removeConstRefs_idempotent (reg : gmap string Sub) (st : State) :
  removeConstRefs reg (removeConstRefs reg st) = removeConstRefs reg st.
Proof.
  apply State_eq; [|done].
  rewrite (removeConstRefs_variables reg (removeConstRefs reg st)).
  assert (Hk : key <$> variables (removeConstRefs reg st) = key <$> variables st).
  { rewrite removeConstRefs_variables, <- list_fmap_compose. by apply list_fmap_ext. }
  assert (Hfun : pruneRefs reg (variables (removeConstRefs reg st))
                 <$> variables (removeConstRefs reg st)
                 = pruneRefs reg (variables st) <$> variables (removeConstRefs reg st)).
  { apply list_fmap_ext. intros _ v _. by apply pruneRefs_keys. }
  rewrite Hfun. rewrite removeConstRefs_variables, <- list_fmap_compose.
  apply list_fmap_ext. intros _ v _. simpl.
  unfold pruneRefs, set_refs; cbn [references initReferences modelLHS varName subscripts
                                   refId varType hasInitValue].
  f_equal; apply list_filter_filter_l; done.
Qed.

(** ** References that bind to no record *)

Lemma varWithRefId_candidate (reg : gmap string Sub) (vars : list Var) (r : string) (c : Var) :
  c ∈ vars → candidate reg r c → is_Some (varWithRefId reg vars r).
Proof.
  intros Hc Hcand. unfold varWithRefId.
  destruct (findByRefId vars r) as [v|] eqn:Hdirect; [eauto|].
  destruct Hcand as [Hr|[Hname Hm]]; [by eapply findByRefId_None in Hdirect|].
  destruct (find _ (refIdsWithName vars _)) as [varRefId|] eqn:Hfind.
  - apply find_Some_elem in Hfind as [Hin _].
    unfold refIdsWithName in Hin. apply list_elem_of_fmap in Hin as (c' & -> & Hc').
    apply list_elem_of_filter in Hc' as [_ Hc']. by apply findByRefId_is_Some.
  - exfalso. eapply (find_None_elem _ _ (refId c)) in Hfind.
    + simpl in Hfind. rewrite Hm in Hfind. done.
    + unfold refIdsWithName. apply list_elem_of_fmap.
      exists c. split; [done|]. by apply list_elem_of_filter.
Qed.

(** X6. [varWithRefId(refId)] is [undefined] exactly when the table holds no
    candidate for the reference: no record with that refId, and no record
    with the reference's varName whose refId subscripts subsume the
    reference's. *)
Theorem varWithRefId_undefined (reg : gmap string Sub) (vars : list Var) (r : string) :
  varWithRefId reg vars r = None ↔ ∀ c, c ∈ vars → ¬ candidate reg r c.
Proof.
  split.
  - intros Hnone c Hc Hcand.
    destruct (varWithRefId_candidate reg vars r c Hc Hcand) as [v Hv]. congruence.
  - intros Hno. unfold varWithRefId.
    destruct (findByRefId vars r) as [v|] eqn:Hdirect.
    { apply findByRefId_Some in Hdirect as [Hv Hr]. exfalso. apply (Hno v Hv). by left. }
    destruct (find _ (refIdsWithName vars _)) as [varRefId|] eqn:Hfind; [|done].
    apply find_Some_elem in Hfind as [Hin Hmatch].
    unfold refIdsWithName in Hin. apply list_elem_of_fmap in Hin as (c & -> & Hc).
    apply list_elem_of_filter in Hc as [Hn Hc].
    exfalso. apply (Hno c Hc). by right.
Qed.

(** ** References to apply-to-all arrays *)

Lemma splitStep_inSubs (name : string) (acc : list string) (ts : list Token) :
  ∃ subs, foldl splitStep (true, name, acc) ts = (true, name, subs).
Proof.
  revert acc. induction ts as [|t ts IH]; intros acc; simpl; [eauto|].
  destruct t; apply IH.
Qed.

Lemma splitRefId_bare (reg : gmap string Sub) (name : string) :
  all_word_chars name = true → splitRefId reg name = mkParts name [].
Proof.
  intros Hname. unfold splitRefId.
  rewrite <- (string_app_nil_r name) at 1. rewrite scan_word by done.
  simpl. by rewrite splitStep_name.
Qed.

Lemma splitRefId_partName (reg : gmap string Sub) (name rest : string) :
  all_word_chars name = true →
  partName (splitRefId reg (name +:+ "[" +:+ rest)) = name.
Proof.
  intros Hname. unfold splitRefId. rewrite scan_word by done.
  change ("[" +:+ rest) with (String "["%char rest).
  cbn [scan]. change (Js.is_word_char "["%char) with false. cbn iota.
  rewrite decide_True by done. rewrite foldl_app, splitStep_name.
  change ([TBracket] ++ scan "" rest) with (TBracket :: scan "" rest). cbn [foldl splitStep].
  change ("" +:+ name) with name.
  destruct (splitStep_inSubs name [] (scan "" rest)) as [subs ->]. done.
Qed.

(** X7. A subscripted reference [name[...]] to an apply-to-all array binds to
    the array, whatever stands between the brackets: when the one record
    named [name] has the bare refId [name] and no record has the
    reference itself as its refId, [varWithRefId] returns that record. *)
Theorem varWithRefId_apply_to_all (reg : gmap string Sub) (vars : list Var)
    (name rest : string) (c : Var) :
  all_word_chars name = true →
  c ∈ vars → varName c = name → refId c = name →
  (∀ v, v ∈ vars → varName v = name ∨ refId v = name → v = c) →
  (∀ v, v ∈ vars → refId v ≠ name +:+ "[" +:+ rest) →
  varWithRefId reg vars (name +:+ "[" +:+ rest) = Some c.
Proof.
  intros Hname Hc Hcn Hcr Honly Hnodirect. unfold varWithRefId.
  destruct (findByRefId vars (name +:+ "[" +:+ rest)) as [v|] eqn:Hdirect.
  { apply findByRefId_Some in Hdirect as [Hv Hr]. by apply Hnodirect in Hr. }
  rewrite splitRefId_partName by done.
  assert (Hfirst : ∃ l, refIdsWithName vars name = name :: l).
  { unfold refIdsWithName. destruct (varsWithName vars name) as [|v l] eqn:E.
    - assert (Hin : c ∈ varsWithName vars name) by (by apply list_elem_of_filter).
      rewrite E in Hin. by apply elem_of_nil in Hin.
    - assert (Hin : v ∈ varsWithName vars name) by (rewrite E; left).
      apply list_elem_of_filter in Hin as [Hvn Hv].
      rewrite (Honly v Hv (or_introl Hvn)). rewrite fmap_cons, Hcr. eauto. }
  destruct Hfirst as [l ->]. cbn [find].
  rewrite (splitRefId_bare reg name Hname). cbn [partSubscripts subsMatch subsMatchFrom].
  destruct (findByRefId_is_Some vars c Hc) as [v Hv]. rewrite Hcr in Hv. rewrite Hv.
  apply findByRefId_Some in Hv as [Hvin Hvr]. f_equal. apply Honly; [done|by right].
Qed.

Lemma varWithRefId_apply_to_all_witness :
  varWithRefId Ex.subs1 (variables (assignRefIds Ex.table1)) "_y[_a2]"
  = Some (mkVar "y[DimA]" "_y" ["_dima"] "_y" "" false [] []).
Proof.
  apply (varWithRefId_apply_to_all Ex.subs1 (variables (assignRefIds Ex.table1))
           "_y" "_a2]").
  - reflexivity.
  - apply (bool_decide_unpack _). vm_compute. exact I.
  - reflexivity.
  - reflexivity.
  - intros v Hv Hn.
    assert (Hall : Forall (λ v, varName v = "_y" ∨ refId v = "_y"
                                → v = mkVar "y[DimA]" "_y" ["_dima"] "_y" "" false [] [])
                          (variables (assignRefIds Ex.table1)))
      by (apply (bool_decide_unpack _); vm_compute; exact I).
    rewrite Forall_forall in Hall. by apply Hall.
  - intros v Hv.
    assert (Hall : Forall (λ v, refId v ≠ "_y[_a2]") (variables (assignRefIds Ex.table1)))
      by (apply (bool_decide_unpack _); vm_compute; exact I).
    rewrite Forall_forall in Hall. by apply Hall.
Defined.

(** ** The parts of a reference identifier *)

Lemma all_word_chars_app (a b : string) :
  all_word_chars (a +:+ b) = all_word_chars a && all_word_chars b.
Proof.
  induction a as [|c a IH]; [done|].
  change (String c a +:+ b) with (String c (a +:+ b)). simpl. by rewrite IH, andb_assoc.
Qed.

Lemma string_app_not_empty (a : string) (c : ascii) : a +:+ String c "" ≠ "".
Proof. by destruct a. Qed.

Lemma flush_words (cur : string) : all_word_chars cur = true → Forall word_token (flush cur).
Proof.
  intros Hcur. unfold flush. destruct (decide (cur = "")); [constructor|].
  constructor; [by split|constructor].
Qed.

Lemma scan_words (cur s : string) :
  all_word_chars cur = true → Forall word_token (scan cur s).
Proof.
  revert cur. induction s as [|c s IH]; intros cur Hcur; simpl.
  - by apply flush_words.
  - destruct (Js.is_word_char c) eqn:Hc.
    + apply IH. rewrite all_word_chars_app, Hcur. simpl. by rewrite Hc.
    + rewrite !Forall_app. split; [by apply flush_words|]. split; [|by apply IH].
      destruct (decide _); repeat constructor.
Qed.

Lemma scan_no_bracket (cur s : string) :
  "["%char ∉ String.list_ascii_of_string s → TBracket ∉ scan cur s.
Proof.
  revert cur. induction s as [|c s IH]; intros cur Hno; simpl.
  - unfold flush. destruct (decide _); set_solver.
  - simpl in Hno. apply not_elem_of_cons in Hno as [Hc Hs].
    destruct (Js.is_word_char c); [by apply IH|].
    rewrite decide_False by done. rewrite !elem_of_app.
    intros [H|[H|H]]; [|by apply elem_of_nil in H|by apply IH in H].
    unfold flush in H. destruct (decide _); set_solver.
Qed.

Lemma splitStep_fold_words (acc : bool * string * list string) (ts : list Token) :
  Forall word_token ts →
  (acc.1.2 = "" ∨ is_word acc.1.2) → Forall is_word acc.2 →
  let r := foldl splitStep acc ts in (r.1.2 = "" ∨ is_word r.1.2) ∧ Forall is_word r.2.
Proof.
  intros Hts. revert acc. induction Hts as [|t ts Ht _ IH]; intros [[inSubs name] subs];
    simpl; [done|].
  intros Hname Hsubs. destruct t as [w|]; [destruct inSubs|]; apply IH; simpl; try done.
  - apply Forall_app. split; [done|]. by constructor.
  - by right.
Qed.

Lemma splitStep_fold_no_bracket (name : string) (ts : list Token) :
  TBracket ∉ ts → (foldl splitStep (false, name, []) ts).2 = [].
Proof.
  revert name. induction ts as [|t ts IH]; intros name Hno; [done|].
  apply not_elem_of_cons in Hno as [Ht Hts]. destruct t as [w|]; [|done].
  simpl. by apply IH.
Qed.

(** X8. Whatever the text, the varName [splitRefId] returns is empty or a
    word, and every subscript it returns is a non-empty word; a text without
    an opening bracket has no subscripts. *)
Theorem splitRefId_words (reg : gmap string Sub) (r : string) :
  (partName (splitRefId reg r) = "" ∨ is_word (partName (splitRefId reg r)))
  ∧ Forall is_word (partSubscripts (splitRefId reg r))
  ∧ ("["%char ∉ String.list_ascii_of_string r → partSubscripts (splitRefId reg r) = []).
Proof.
  unfold splitRefId.
  pose proof (splitStep_fold_words (false, "", []) (scan "" r)
                (scan_words "" r eq_refl) (or_introl eq_refl) (Forall_nil_2 _)) as Hw.
  pose proof (splitStep_fold_no_bracket "" (scan "" r)) as Hb.
  destruct (foldl splitStep (false, "", []) (scan "" r)) as [[inSubs name] subs].
  simpl in *. destruct Hw as [Hname Hsubs].
  split; [done|]. split.
  - unfold normalizeSubscripts. by rewrite sort_by_perm.
  - intros Hno. rewrite Hb; [done|]. by apply scan_no_bracket.
Qed.

(** ** The refId test *)

Lemma forEachLog_error {A} (f : A → list Event * option Js.JsError) (l : list A)
    (e : Js.JsError) :
  (forEachLog f l).2 = Some e → ∃ x, x ∈ l ∧ (f x).2 = Some e.
Proof.
  induction l as [|x l IH]; simpl; [done|].
  destruct (f x) as [events [e'|]] eqn:E; simpl.
  - intros [= ->]. exists x. rewrite E. split; [left|done].
  - destruct (forEachLog f l) as [events' err]. simpl in *. intros Herr.
    destruct (IH Herr) as (y & Hy & Hfy). exists y. split; [by right|done].
Qed.


Lemma forEachLog_no_error {A} (f : A → list Event * option Js.JsError) (l : list A) :
  (forEachLog f l).2 = None ↔ ∀ x, x ∈ l → (f x).2 = None.
Proof.
  induction l as [|x l IH]; simpl.
  - split; [|done]. by intros _ x ?%elem_of_nil.
  - destruct (f x) as [events [e|]] eqn:E; simpl.
    + split; [done|]. intros H. specialize (H x (list_elem_of_here _ _)). by rewrite E in H.
    + destruct (forEachLog f l) as [events' err]. simpl in *. rewrite IH. split.
      * intros H y [->|Hy]%elem_of_cons; [by rewrite E|by apply H].
      * intros H y Hy. apply H. by right.
Qed.

Lemma checkInstances_error (st : State) (v : Var) (e : Js.JsError) :
  (checkInstances st v).2 = Some e
  ↔ e = Js.ReferenceError "printVars"
    ∧ 1 < length (varsWithName (variables st) (varName v))
    ∧ hasSubscripts v && isNonAtoAName (nonAtoANames st) (varName v) = false.
Proof.
  unfold checkInstances.
  destruct (hasSubscripts v), (isNonAtoAName (nonAtoANames st) (varName v));
    repeat case_decide; simpl; naive_solver.
Qed.

(** X9. [printRefIdTest()] stops with a [ReferenceError] exactly when the
    table holds a scalar or an apply-to-all array with more than one record
    of its varName: the report of such a record goes through [printVars],
    a name the module never defines.  No other exception leaves the test. *)
Theorem printRefIdTest_throws (st : State) :
  ((printRefIdTest st).2 = Some (Js.ReferenceError "printVars")
   ↔ ∃ v, v ∈ variables st
          ∧ 1 < length (varsWithName (variables st) (varName v))
          ∧ hasSubscripts v && isNonAtoAName (nonAtoANames st) (varName v) = false)
  ∧ ((printRefIdTest st).2 = None ∨ (printRefIdTest st).2 = Some (Js.ReferenceError "printVars")).
Proof.
  assert (Hphase : (printRefIdTest st).2 = (forEachLog (checkInstances st) (variables st)).2).
  { unfold printRefIdTest. by destruct (forEachLog _ _) as [events [e|]]. }
  rewrite Hphase. split; [split|].
  - intros (v & Hv & Herr)%forEachLog_error. apply checkInstances_error in Herr. naive_solver.
  - intros (v & Hv & Hlen & Hkind).
    destruct ((forEachLog (checkInstances st) (variables st)).2) as [e|] eqn:E.
    + apply forEachLog_error in E as (w & _ & Hw). apply checkInstances_error in Hw.
      by destruct Hw as [-> _].
    + exfalso. rewrite forEachLog_no_error in E. specialize (E v Hv).
      assert (Hsome : (checkInstances st v).2 = Some (Js.ReferenceError "printVars"))
        by (by apply checkInstances_error).
      congruence.
  - destruct ((forEachLog (checkInstances st) (variables st)).2) as [e|] eqn:E; [|by left].
    apply forEachLog_error in E as (w & _ & Hw). apply checkInstances_error in Hw.
    right. by destruct Hw as [-> _].
Qed.





(** A reference with subscripts to an apply-to-all array binds through
    [varWithRefId], and is reported by the test all the same: the test looks
    for the refId itself. *)
Example printRefIdTest_strict :
  let vars := [ mkVar "y[DimA]" "_y" ["_dima"] "_y" "aux" false [] [];
                mkVar "z" "_z" [] "_z" "aux" false ["_y[_a1]"] [] ] in
  varWithRefId Ex.subs1 vars "_y[_a1]" = Some (mkVar "y[DimA]" "_y" ["_dima"] "_y" "aux" false [] [])
  ∧ printRefIdTest (mkState vars ∅) = ([Vlog "ERROR: no var for refId" "_y[_a1]"], None).
Proof. split; vm_compute; reflexivity. Qed.

(** ** The reference graph walk *)

Lemma allRefs_elem (vars : list Var) (v : Var) (r : string) :
  v ∈ vars → r ∈ references v → r ∈ allRefs vars.
Proof.
  intros Hv Hr. unfold allRefs. apply elem_of_concat. exists (references v).
  split; [done|]. apply list_elem_of_fmap. eauto.
Qed.

Lemma unvisited_decrease (vars : list Var) (stack : list string) (r : string) :
  r ∈ allRefs vars → r ∉ stack →
  length (unvisited vars (stack ++ [r])) < length (unvisited vars stack).
Proof.
  intros Hr Hstack. unfold unvisited.
  rewrite <- (list_filter_filter_l (λ r0, r0 ∉ stack ++ [r]) (λ r0, r0 ∉ stack)).
  - apply (length_filter_lt _ _ r); [by apply list_elem_of_filter|]. set_solver.
  - set_solver.
Qed.

(** The table is closed when every reference is the refId of a record. *)
Lemma printRefs_terminates (vars : list Var) (fuel : nat) :
  ∀ (v : option Var) (indent : nat) (stack : list string),
    (∀ v0, v = Some v0 → v0 ∈ vars) →
    length (unvisited vars stack) < fuel →
    ∃ events err, printRefs fuel vars v indent stack = Some (events, err)
      ∧ (err = None ∨ err = Some Js.TypeError)
      ∧ ((∀ w r, w ∈ vars → r ∈ references w → is_Some (findByRefId vars r)) →
         is_Some v → err = None).
Proof.
  induction fuel as [|fuel IH]; intros v indent stack Hv Hfuel; [lia|].
  destruct v as [v|]; simpl.
  2:{ exists [], (Some Js.TypeError). split; [done|]. split; [by right|].
      by intros _ [? ?]. }
  specialize (Hv v eq_refl).
  assert (Hrefs : ∀ r, r ∈ references v → r ∈ allRefs vars)
    by (intros r; by apply allRefs_elem).
  assert (Hclosed_v : (∀ w r, w ∈ vars → r ∈ references w → is_Some (findByRefId vars r)) →
                      ∀ r, r ∈ references v → is_Some (findByRefId vars r))
    by (intros H r; by apply H).
  revert Hrefs Hclosed_v. generalize (references v) as refs.
  induction refs as [|r refs IHrefs]; intros Hrefs Hclosed_v.
  { exists [], None. split; [done|]. split; [by left|done]. }
  destruct IHrefs as (events' & err' & Hloop & Herr' & Hclosed').
  { intros r' Hr'. apply Hrefs. by right. }
  { intros H r' Hr'. apply Hclosed_v; [done|by right]. }
  destruct (decide (r ∈ stack)) as [Hin|Hnew].
  { exists events', err'. split; [done|]. split; [done|]. done. }
  destruct (IH (findByRefId vars r) (S indent) (stack ++ [r])) as (events & err & Hrec & Herr & Hclosed).
  { intros v0 Hv0. by apply findByRefId_Some in Hv0 as [? _]. }
  { pose proof (unvisited_decrease vars stack r (Hrefs r (list_elem_of_here _ _)) Hnew). lia. }
  rewrite Hrec. destruct err as [e|].
  - eexists _, _. split; [done|]. split; [done|].
    intros Hall _. exfalso.
    assert (Some e = None); [|done]. apply Hclosed; [done|].
    apply Hclosed_v; [done|left].
  - rewrite Hloop. eexists _, _. split; [done|]. split; [done|]. done.
Qed.

(** X11. [printRefGraph(varName)] comes to an end on every table, also when
    the references form a cycle: a refId already on the path is not followed
    again.  The only exception it can end with is the [TypeError] of reading
    the references of a record that does not exist, and on a table whose
    references are all refIds of records it ends normally. *)
Theorem printRefGraph_terminates (vars : list Var) (name : string) :
  ∃ events err,
    printRefGraph (S (length (allRefs vars))) vars name = Some (events, err)
    ∧ (err = None ∨ err = Some Js.TypeError)
    ∧ ((∀ w r, w ∈ vars → r ∈ references w → is_Some (findByRefId vars r)) → err = None).
Proof.
  unfold printRefGraph.
  assert (Hroots : ∀ v, v ∈ varsWithName vars name → v ∈ vars).
  { intros v Hv. apply list_elem_of_filter in Hv. tauto. }
  revert Hroots. generalize (varsWithName vars name) as roots.
  induction roots as [|v roots IH]; intros Hroots; cbn [printRefGraphs].
  { exists [], None. split; [done|]. split; [by left|done]. }
  destruct IH as (events' & err' & Hrest & Herr' & Hclosed').
  { intros w Hw. apply Hroots. by right. }
  destruct (printRefs_terminates vars (S (length (allRefs vars))) (Some v) 1 [])
    as (events & err & Hrun & Herr & Hclosed).
  { intros v0 [= <-]. apply Hroots. left. }
  { unfold unvisited. pose proof (length_filter (λ r, r ∉ []) (allRefs vars)). lia. }
  rewrite Hrun. destruct err as [e|].
  - eexists _, _. split; [done|]. split; [done|].
    intros Hall. exfalso. assert (Some e = None); [|done]. by apply Hclosed.
  - rewrite Hrest. eexists _, _. split; [done|]. split; [done|]. done.
Qed.

(** Two variables that refer to each other, and a reference to nothing. *)
Example printRefGraph_cycle :
  let vars := [ mkVar "a" "_a" [] "_a" "aux" false ["_b"] [];
                mkVar "b" "_b" [] "_b" "aux" false ["_a"; "_c"] [] ] in
  printRefGraph 4 vars "_a"
  = Some ([ConsoleLog "_a"; ConsoleLog "  _b"; ConsoleLog "    _a"; ConsoleLog "    _c"],
          Some Js.TypeError).
Proof. vm_compute. reflexivity. Qed.

(** ** Checking the variables of the spec *)

Section checkSpecVars_facts.
Context {Points : Type} (lookupText : Points → string) (decanonicalize : string → string)
  (addEquation : string → State → Js.Result State).

Lemma Result_bind_Ok {A B} (a : A) (k : A → Js.Result B) : (Js.Ok a ≫= k) = k a.
Proof. done. Qed.

Lemma checkVar_skip (extData : gmap string Points) (specType : string)
    (acc : State * list Event) (n : string) :
  ¬ (has_bracket n = false ∧ findByRefId (variables acc.1) n = None) →
  checkVar lookupText decanonicalize addEquation extData specType acc n = Js.Ok acc.
Proof.
  intros Hskip. unfold checkVar. destruct (has_bracket n); [done|].
  destruct (findByRefId (variables acc.1) n); [done|]. by destruct Hskip.
Qed.

Lemma checkVar_missing (extData : gmap string Points) (specType : string)
    (acc : State * list Event) (n : string) :
  has_bracket n = false → findByRefId (variables acc.1) n = None → extData !! n = None →
  checkVar lookupText decanonicalize addEquation extData specType acc n
  = Js.Ok (acc.1, acc.2 ++ [notFound specType n]).
Proof. intros Hb Hfind Hext. unfold checkVar. by rewrite Hb, Hfind, Hext. Qed.

Lemma check_reports (extData : gmap string Points) (specType : string) (st : State)
    (names : option (list string)) (events : list Event) :
  (∀ n, n ∈ missingVars (variables st) names → extData !! n = None) →
  check lookupText decanonicalize addEquation extData names specType (st, events)
  = Js.Ok (st, events ++ (notFound specType <$> missingVars (variables st) names)).
Proof.
  unfold check, missingVars. destruct names as [l|]; cbn [from_option id]; [|by rewrite app_nil_r].
  revert events. induction l as [|n l IH]; intros events Hext; cbn [Js.foldM].
  - by rewrite app_nil_r.
  - rewrite filter_cons in Hext. rewrite filter_cons.
    destruct (decide (has_bracket n = false ∧ findByRefId (variables st) n = None))
      as [[Hb Hfind]|Hskip].
    + rewrite checkVar_missing; [|done|done|apply Hext; left].
      rewrite Result_bind_Ok. cbn [fst snd]. rewrite IH.
      * by rewrite fmap_cons, <- app_assoc.
      * intros n' Hn'. apply Hext. by right.
    + rewrite checkVar_skip by done. rewrite Result_bind_Ok. by apply IH.
Qed.

(** X12. [checkSpecVars] looks up the names of the spec's input and output
    lists that have no opening bracket.  When none of those that are the
    refId of no record has a series in the external data, no equation is
    added: the table is left as it is and one line is printed for each such
    name, the input names first, either list in its own order.  In particular
    nothing is printed when every such name is the refId of a record. *)
Theorem checkSpecVars_reports (extData : gmap string Points) (spec : SpecVars) (st : State) :
  (∀ n, n ∈ missingVars (variables st) (inputVars spec)
        ∨ n ∈ missingVars (variables st) (outputVars spec) → extData !! n = None) →
  checkSpecVars lookupText decanonicalize addEquation (Some spec) extData st
  = Js.Ok (st, (notFound "input" <$> missingVars (variables st) (inputVars spec))
               ++ (notFound "output" <$> missingVars (variables st) (outputVars spec))).
Proof.
  intros Hext. unfold checkSpecVars.
  rewrite check_reports by (intros n Hn; apply Hext; by left). rewrite Result_bind_Ok.
  rewrite check_reports by (intros n Hn; apply Hext; by right). done.
Qed.
End checkSpecVars_facts.

Lemma checkSpecVars_reports_witness :
  checkSpecVars (λ _ : unit, "") id (λ _ _, Js.Throw Js.TypeError)
    (Some (mkSpecVars (Some ["_x[_a1]"; "_y"; "_rate"]) (Some ["_total"; "_y"])))
    ∅ (assignRefIds Ex.table1)
  = Js.Ok (assignRefIds Ex.table1,
           [ConsoleError "input variable _rate not found in the model or external data sources";
            ConsoleError "output variable _total not found in the model or external data sources"]).
Proof.
  refine (eq_trans (checkSpecVars_reports _ _ _ ∅ _ _ _) _).
  - intros n _. apply lookup_empty.
  - vm_compute. reflexivity.
Defined.

(** ** What the expansion loop leaves alone, and where it stops *)

Lemma sameButValue_refl (d : Sub) : sameButValue d d.
Proof. split; [done|]. split; [done|]. destruct (value d) eqn:E; eauto. Qed.

Lemma sameButValue_trans (d1 d2 d3 : Sub) :
  sameButValue d1 d2 → sameButValue d2 d3 → sameButValue d1 d3.
Proof.
  intros (Hf & Hm & Hv) (Hf' & Hm' & Hv'). split; [congruence|]. split; [congruence|].
  destruct (value d1) as [v|i] eqn:E.
  - destruct Hv as [v' Hv]. by rewrite Hv in Hv'.
  - subst d2. by rewrite E in Hv'.
Qed.

Lemma expansionFrame_refl (order : list string) (reg : gmap string Sub) :
  expansionFrame order reg reg.
Proof.
  intros n. split; [done|]. destruct (reg !! n) as [d|] eqn:E; [|done].
  exists d. split; [done|]. apply sameButValue_refl.
Qed.

Lemma expansionFrame_trans (order : list string) (r1 r2 r3 : gmap string Sub) :
  expansionFrame order r1 r2 → expansionFrame order r2 r3 → expansionFrame order r1 r3.
Proof.
  intros H12 H23 n. destruct (H12 n) as [Ho Hn], (H23 n) as [Ho' Hn']. split.
  - intros Hnot. by rewrite Ho', Ho.
  - destruct (r1 !! n) as [d1|]; [|by rewrite Hn in Hn'].
    destruct Hn as (d2 & Hd2 & Hs). rewrite Hd2 in Hn'. destruct Hn' as (d3 & Hd3 & Hs').
    exists d3. split; [done|]. by eapply sameButValue_trans.
Qed.

Lemma expandDim_frame (order : list string) (found : bool) (reg : gmap string Sub)
    (name : string) :
  name ∈ order → expansionFrame order reg (expandDim (found, reg) name).2.
Proof.
  intros Hin.
  destruct (expandDim_cases found reg name) as [[-> _]|(d & v & Hd & Hv & _ & ->)];
    [apply expansionFrame_refl|].
  intros n. simpl. split.
  - intros Hn. rewrite lookup_insert_ne; [done|]. by intros ->.
  - destruct (decide (n = name)) as [->|Hne].
    + rewrite Hd, lookup_insert_eq. eexists. split; [done|].
      split; [done|]. split; [done|]. rewrite Hv. simpl. eauto.
    + rewrite lookup_insert_ne by done. destruct (reg !! n) as [d'|]; [|done].
      exists d'. split; [done|]. apply sameButValue_refl.
Qed.

Lemma expandPass_frame_go (order l : list string) (acc : bool * gmap string Sub) :
  (∀ n, n ∈ l → n ∈ order) → expansionFrame order acc.2 (foldl expandDim acc l).2.
Proof.
  revert acc. induction l as [|n l IH]; intros [found reg] Hl; simpl.
  - apply expansionFrame_refl.
  - eapply expansionFrame_trans; [apply (expandDim_frame order found reg n), Hl; left|].
    destruct (expandDim (found, reg) n) as [found' reg'] eqn:E. simpl.
    apply (IH (found', reg')). intros m Hm. apply Hl. by right.
Qed.

(** X13. The expansion loop changes nothing but the values and sizes of the
    dimensions it is given: a subscript that is not one of them, every index,
    and the family and mappings of every dimension are as before, and no
    name is added to the registry or removed from it. *)
Theorem expandDimensions_frame (fuel : nat) (order : list string)
    (reg reg' : gmap string Sub) :
  expandDimensions fuel order reg = Some reg' → expansionFrame order reg reg'.
Proof.
  revert reg. induction fuel as [|fuel IH]; intros reg; [done|]. simpl.
  destruct (expandPass reg order) as [found reg1] eqn:Hpass.
  assert (Hframe : expansionFrame order reg reg1).
  { change reg1 with (found, reg1).2. rewrite <- Hpass.
    by apply (expandPass_frame_go order order (false, reg)). }
  destruct found.
  - intros Hrun. eapply expansionFrame_trans; [exact Hframe|]. by apply IH.
  - by intros [= <-].
Qed.

Lemma expandDimensions_frame_witness :
  expansionFrame ["_all"; "_north"; "_south"] Ex.nested
    (<[ "_all" := Ex.dimDecl ["_n1"; "_n2"; "_s1"] "_all" [] ]> Ex.nested).
Proof.
  apply (expandDimensions_frame 2). vm_compute. reflexivity.
Defined.

(** X14. The registry the expansion loop stops with is a fixed point of the
    loop: one more pass finds nothing to expand, and running the loop again
    returns the same registry after that single pass.  This holds for cyclic
    definitions as well. *)
Theorem expandDimensions_fixed_point (fuel : nat) (order : list string)
    (reg reg' : gmap string Sub) :
  expandDimensions fuel order reg = Some reg' →
  expandPass reg' order = (false, reg')
  ∧ (∀ n v, n ∈ order → dimValue reg' n = Some v → expandValue reg' v = v)
  ∧ ∀ fuel', expandDimensions (S fuel') order reg' = Some reg'.
Proof.
  revert reg. induction fuel as [|fuel IH]; intros reg; [done|]. simpl.
  destruct (expandPass reg order) as [found reg1] eqn:Hpass.
  destruct found; [by apply IH|].
  intros [= <-]. unfold expandPass in Hpass.
  pose proof Hpass as Hpass'. apply pass_unchanged in Hpass' as [-> Hst].
  split; [done|]. split; [done|].
  intros fuel'. simpl. unfold expandPass. by rewrite Hpass.
Qed.

Lemma expandDimensions_fixed_point_witness :
  expandDimensions 2 ["_a"; "_b"] Ex.cyclic
  = Some (list_to_map [ ("_a", Ex.dimDecl ["_a"] "_a" []); ("_b", Ex.dimDecl ["_a"] "_b" []) ])
  ∧ expandPass (list_to_map [ ("_a", Ex.dimDecl ["_a"] "_a" []);
                              ("_b", Ex.dimDecl ["_a"] "_b" []) ]) ["_a"; "_b"]
    = (false, list_to_map [ ("_a", Ex.dimDecl ["_a"] "_a" []);
                            ("_b", Ex.dimDecl ["_a"] "_b" []) ]).
Proof.
  assert (H : expandDimensions 2 ["_a"; "_b"] Ex.cyclic
              = Some (list_to_map [ ("_a", Ex.dimDecl ["_a"] "_a" []);
                                    ("_b", Ex.dimDecl ["_a"] "_b" []) ]))
    by (vm_compute; reflexivity).
  split; [exact H|].
  destruct (expandDimensions_fixed_point 2 ["_a"; "_b"] Ex.cyclic _ H) as [Hpass _].
  exact Hpass.
Defined.

(** ** The values the expansion loop ends with *)

Lemma expandValue_app (reg : gmap string Sub) (v w : list string) :
  expandValue reg (v ++ w) = expandValue reg v ++ expandValue reg w.
Proof. unfold expandValue. by rewrite fmap_app, concat_app. Qed.

Lemma expandValue_compose (reg reg' : gmap string Sub) (v : list string) :
  (∀ e w, e ∈ v → dimValue reg e = Some w → dimValue reg' e = Some (expandValue reg' w)) →
  expandValue reg' (expandValue reg v) = expandValue reg' v.
Proof.
  induction v as [|e v IH]; intros H; [done|].
  rewrite !expandValue_cons, expandValue_app.
  rewrite IH by (intros e' w He'; apply H; by right). f_equal.
  destruct (dimValue reg e) as [w|] eqn:E.
  - by rewrite (H e w (list_elem_of_here _ _) E).
  - unfold expandValue. simpl. by rewrite app_nil_r.
Qed.

Section flatten.
Context (rank : string → nat) (reg0 reg' : gmap string Sub).

Local Abbreviation flat reg :=
  (∀ d v, dimValue reg d = Some v → dimValue reg' d = Some (expandValue reg' v)).

Lemma expandDim_flat (found : bool) (reg : gmap string Sub) (name : string) :
  expansionInv rank reg0 reg → flat (expandDim (found, reg) name).2 → flat reg.
Proof.
  intros (_ & Hrank & _) Hflat d v Hd.
  destruct (expandDim_cases found reg name) as [[Heq _]|(d0 & v0 & Hd0 & Hv0 & _ & Heq)];
    rewrite Heq in Hflat; simpl in Hflat; [by apply Hflat|].
  assert (Hname : dimValue reg name = Some v0).
  { apply dimValue_Some. destruct d0; simpl in *; subst; eauto. }
  destruct (decide (d = name)) as [->|Hne].
  - assert (v = v0) as -> by congruence.
    rewrite (Hflat name (expandValue reg v0))
      by (rewrite dimValue_insert; by rewrite decide_True).
    f_equal. apply expandValue_compose. intros e w He Hw. apply Hflat.
    rewrite dimValue_insert. rewrite decide_False; [done|].
    intros <-. assert (rank name < rank name); [|lia].
    eapply Hrank; [exact Hname|exact He|]. apply isDimension_true. eauto.
  - apply Hflat. rewrite dimValue_insert. by rewrite decide_False.
Qed.

Lemma pass_flat (l : list string) (acc : bool * gmap string Sub) :
  expansionInv rank reg0 acc.2 → flat (foldl expandDim acc l).2 → flat acc.2.
Proof.
  revert acc. induction l as [|n l IH]; intros [found reg] HI Hflat; [done|].
  simpl in *. eapply expandDim_flat; [done|].
  apply IH; [|done]. by apply expandDim_Inv.
Qed.
End flatten.

(** X15. For acyclic definitions the expansion loop ends with the values
    flattened in place: the final value of a dimension is its declared value
    in which every dimension name is replaced, where it stands, by the final
    value of that dimension, every other name staying where it is. *)
Theorem expandDimensions_flattens (rank : string → nat) (order : list string)
    (reg reg' : gmap string Sub) (fuel : nat) :
  ranked rank reg → listed reg order → sized reg →
  expandDimensions fuel order reg = Some reg' →
  ∀ d v, dimValue reg d = Some v → dimValue reg' d = Some (expandValue reg' v).
Proof.
  intros Hrank Hlisted Hsized.
  assert (HI : expansionInv rank reg reg) by done.
  revert HI. generalize reg at 2 3 4 as cur. revert reg' .
  induction fuel as [|fuel IH]; intros reg' cur HI; [done|]. simpl.
  destruct (expandPass cur order) as [found reg1] eqn:Hpass.
  assert (HI1 : expansionInv rank reg reg1).
  { change reg1 with (found, reg1).2. rewrite <- Hpass. by apply pass_Inv. }
  destruct found.
  - intros Hrun. apply (pass_flat rank reg reg' order (false, cur)); [done|].
    unfold expandPass in Hpass. rewrite Hpass. simpl. by apply IH.
  - intros [= <-]. unfold expandPass in Hpass. apply pass_unchanged in Hpass as [-> Hst].
    intros d v Hd. rewrite Hd. f_equal. symmetry. apply (Hst d); [|done].
    apply Hlisted. destruct HI as (Hdom & _). rewrite <- Hdom. apply isDimension_true. eauto.
Qed.

Lemma expandDimensions_flattens_witness :
  ranked Ex.nested_rank Ex.nested
  ∧ listed Ex.nested ["_all"; "_north"; "_south"]
  ∧ sized Ex.nested
  ∧ ∃ reg', expandDimensions 2 ["_all"; "_north"; "_south"] Ex.nested = Some reg'
      ∧ dimValue reg' "_all" = Some (expandValue reg' ["_north"; "_south"]).
Proof.
  assert (H1 : ranked Ex.nested_rank Ex.nested) by (apply ranked_check; vm_compute; reflexivity).
  assert (H2 : listed Ex.nested ["_all"; "_north"; "_south"])
    by (apply listed_check; vm_compute; reflexivity).
  assert (H3 : sized Ex.nested) by (apply sized_check; vm_compute; reflexivity).
  split; [exact H1|]. split; [exact H2|]. split; [exact H3|].
  eexists. split; [vm_compute; reflexivity|].
  refine (expandDimensions_flattens Ex.nested_rank _ Ex.nested _ 2 H1 H2 H3 _ "_all" _ _);
    vm_compute; reflexivity.
Defined.

Example expandDimensions_nested :
  (expandDimensions 2 ["_all"; "_north"; "_south"] Ex.nested ≫= λ reg', dimValue reg' "_all")
  = Some ["_n1"; "_n2"; "_s1"].
Proof. vm_compute. reflexivity. Qed.

(** ** Resolving the families again *)

Lemma set_family_twice (f g : string) (d : Sub) : set_family f (set_family g d) = set_family f d.
Proof. done. Qed.

Lemma resolveFamilies_erase (dimensionFamilies : option (gmap string string))
    (order : list string) (reg : gmap string Sub) (n : string) :
  set_family "" <$> resolveFamilies dimensionFamilies order reg !! n
  = set_family "" <$> reg !! n.
Proof.
  rewrite resolveFamilies_lookup. destruct (decide (n ∈ order)); [|done].
  unfold resolved. by destruct (reg !! n).
Qed.

(** X16. The family loop writes the family of the dimensions it is given and
    nothing else: values, sizes and mappings, the indices and every other
    subscript are as before.  The families it assigns do not depend on the
    families it finds, so that resolving the families a second time changes
    nothing. *)
Theorem resolveFamilies_idempotent (dimensionFamilies : option (gmap string string))
    (order : list string) (reg : gmap string Sub) :
  resolveFamilies dimensionFamilies order (resolveFamilies dimensionFamilies order reg)
  = resolveFamilies dimensionFamilies order reg
  ∧ (∀ n, set_family "" <$> resolveFamilies dimensionFamilies order reg !! n
          = set_family "" <$> reg !! n)
  ∧ (∀ n, n ∉ order → resolveFamilies dimensionFamilies order reg !! n = reg !! n)
  ∧ (∀ n i sz f m, reg !! n = Some (mkSub (IndexValue i) sz f m) →
       resolveFamilies dimensionFamilies order reg !! n = Some (mkSub (IndexValue i) sz f m)).
Proof.
  split; [|split; [|split]].
  - apply map_eq. intros n. rewrite (resolveFamilies_lookup _ _ (resolveFamilies _ _ _)).
    destruct (decide (n ∈ order)) as [Hn|Hn]; [|done].
    unfold resolved at 1. rewrite resolveFamilies_lookup, decide_True by done.
    unfold resolved. destruct (reg !! n) as [d|] eqn:E; [|done]. simpl.
    rewrite familyFor_again by (intros m; apply resolveFamilies_erase). done.
  - intros n. apply resolveFamilies_erase.
  - intros n Hn. rewrite resolveFamilies_lookup. by rewrite decide_False.
  - intros n i sz f m Hn. rewrite resolveFamilies_lookup.
    destruct (decide (n ∈ order)); [|done]. unfold resolved. by rewrite Hn.
Qed.

(** ** Ranges without mappings *)

Lemma invertDim_no_mappings (reg : gmap string Sub) (n : string) :
  (∀ d, reg !! n = Some d → mappings d = []) → invertDim reg n = Js.Ok reg.
Proof.
  intros H. unfold invertDim. destruct (reg !! n) as [[[v|i] sz f m]|] eqn:E; [|done..].
  specialize (H _ eq_refl). simpl in H. by subst m.
Qed.

Lemma invertMappings_no_mappings (order : list string) (reg : gmap string Sub) :
  (∀ n d, n ∈ order → reg !! n = Some d → mappings d = []) →
  invertMappings order reg = Js.Ok reg.
Proof.
  intros H. unfold invertMappings. induction order as [|n l IH]; [done|].
  cbn [Js.foldM]. rewrite invertDim_no_mappings by (intros d; apply H; left).
  apply IH. intros m d Hm. apply H. by right.
Qed.

Lemma addIndex_mappings (ind : string) (i : nat) (fam : string) (reg : gmap string Sub) :
  (∀ n d, reg !! n = Some d → mappings d = []) →
  ∀ n d, addIndex ind i fam reg !! n = Some d → mappings d = [].
Proof.
  intros H n d. unfold addIndex. rewrite lookup_insert.
  destruct (decide (ind = n)); [by intros [= <-]|apply H].
Qed.

Lemma defineIndices_mappings (order : list string) (reg : gmap string Sub) :
  (∀ n d, reg !! n = Some d → mappings d = []) →
  ∀ n d, defineIndices order reg !! n = Some d → mappings d = [].
Proof.
  unfold defineIndices. revert reg. induction order as [|name l IH]; intros reg H; [done|].
  simpl. apply IH.
  destruct (reg !! name) as [[[v|i] sz f m]|]; [|done..].
  destruct (decide (f = name)); [|done].
  clear IH. generalize (imap pair v). intros ps. revert reg H.
  induction ps as [|[i ind] ps IH]; intros reg H; [done|].
  simpl. apply IH. by apply addIndex_mappings.
Qed.

(** X17. Subscript ranges that declare no mapping and whose dimension names
    are acyclic are read without an exception: the expansion loop
    terminates, the inversion loop has nothing to do, and the registry
    returned is the one the index loop leaves, the dimensions listed as
    before. *)
Theorem readSubscriptRanges_no_mappings (rank : string → nat)
    (dimensionFamilies : option (gmap string string)) (r : Registry) :
  ranked rank (subs r) → listed (subs r) (dims r) → sized (subs r) →
  (∀ n d, subs r !! n = Some d → mappings d = []) →
  ∃ fuel reg1,
    expandDimensions fuel (dims r) (subs r) = Some reg1
    ∧ readSubscriptRanges fuel dimensionFamilies r
      = Some (Js.Ok (mkRegistry
                       (defineIndices (dims r)
                          (resolveFamilies dimensionFamilies (dims r) reg1))
                       (dims r))).
Proof.
  intros Hrank Hlisted Hsized Hnomap.
  destruct (expandDimensions_loop rank (subs r) (dims r)
              (S (max_list (rank <$> dims r))) 0 (subs r))
    as (fuel & reg1 & Hrun & _); try done.
  { intros n Hn. simpl. apply Nat.lt_succ_r, max_list_elem_of_le.
    apply list_elem_of_fmap. exists n. split; [done|]. by apply Hlisted. }
  { intros n Hn. lia. }
  exists fuel, reg1. split; [done|]. unfold readSubscriptRanges. rewrite Hrun.
  rewrite invertMappings_no_mappings; [done|].
  intros n d _. apply defineIndices_mappings. clear n d. intros n d Hd.
  pose proof (resolveFamilies_erase dimensionFamilies (dims r) reg1 n) as He.
  rewrite Hd in He. simpl in He.
  pose proof (expandDimensions_frame fuel (dims r) (subs r) reg1 Hrun n) as [_ Hf].
  destruct (subs r !! n) as [d0|] eqn:E0.
  - destruct Hf as (d1 & Hd1 & _ & Hm & _). rewrite Hd1 in He. simpl in He.
    assert (Hmd : mappings d = mappings d1).
    { apply (f_equal (fmap mappings)) in He. simpl in He. congruence. }
    rewrite Hmd, Hm. by eapply Hnomap.
  - rewrite Hf in He. done.
Qed.

Lemma readSubscriptRanges_no_mappings_witness :
  ∃ fuel reg1,
    expandDimensions fuel ["_all"; "_north"; "_south"] Ex.nested = Some reg1
    ∧ readSubscriptRanges fuel None (mkRegistry Ex.nested ["_all"; "_north"; "_south"])
      = Some (Js.Ok (mkRegistry
                       (defineIndices ["_all"; "_north"; "_south"]
                          (resolveFamilies None ["_all"; "_north"; "_south"] reg1))
                       ["_all"; "_north"; "_south"])).
Proof.
  apply (readSubscriptRanges_no_mappings Ex.nested_rank None
           (mkRegistry Ex.nested ["_all"; "_north"; "_south"])).
  - apply ranked_check. vm_compute. reflexivity.
  - apply listed_check. vm_compute. reflexivity.
  - apply sized_check. vm_compute. reflexivity.
  - intros n d Hd.
    assert (Hall : forallb (λ e : string * Sub, bool_decide (mappings e.2 = []))
                           (map_to_list Ex.nested) = true) by (vm_compute; reflexivity).
    pose proof (check_entries _ _ Hall n d Hd) as Hc. by apply bool_decide_eq_true in Hc.
Defined.

Example readSubscriptRanges_nested :
  (readSubscriptRanges 2 None (mkRegistry Ex.nested ["_all"; "_north"; "_south"]))
  = Some (Js.Ok (mkRegistry
       (list_to_map
          [ ("_all", Ex.dimDecl ["_n1"; "_n2"; "_s1"] "_all" []);
            ("_north", Ex.dimDecl ["_n1"; "_n2"] "_all" []);
            ("_south", Ex.dimDecl ["_s1"] "_all" []);
            ("_n1", Ex.indexSub 0 "_all"); ("_n2", Ex.indexSub 1 "_all");
            ("_s1", Ex.indexSub 2 "_all") ])
       ["_all"; "_north"; "_south"])).
Proof. vm_compute. reflexivity. Qed.

(** ** A mapping entry that is not an index of the map-to dimension *)

Section foreign.
Context (reg : gmap string Sub) (tv : list string) (sz : nat) (fam : string)
        (m : list (string * list (option string))).

Local Abbreviation toDim := (Some (mkSub (DimValue tv) sz fam m)).
Local Abbreviation slip := (Js.Throw (Js.ReferenceError "toSubName")).

Lemma fillIndex_cases (f : string) (inverted : list (option string)) (t : string) :
  (∃ p, Js.indexOf t tv = Some p ∧ p < sz
        ∧ fillIndex toDim f inverted t = Js.Ok (fillAt tv f inverted t))
  ∨ ((∀ p, Js.indexOf t tv = Some p → sz ≤ p) ∧ fillIndex toDim f inverted t = slip).
Proof.
  unfold fillIndex, fillAt. simpl. destruct (Js.indexOf t tv) as [p|] eqn:E; simpl.
  - destruct (decide (p < sz)); [left; eauto|right]. split; [|done].
    intros p' [= <-]. lia.
  - right. split; [|done]. by intros.
Qed.

Lemma fillIndices_cases (f : string) (ts : list string) (inverted : list (option string)) :
  (∃ inverted', Js.foldM (fillIndex toDim f) inverted ts = Js.Ok inverted'
                ∧ ∀ t, t ∈ ts → ∃ p, Js.indexOf t tv = Some p ∧ p < sz)
  ∨ Js.foldM (fillIndex toDim f) inverted ts = slip.
Proof.
  revert inverted. induction ts as [|t ts IH]; intros inverted; cbn [Js.foldM].
  - left. exists inverted. split; [done|]. by intros t ?%elem_of_nil.
  - destruct (fillIndex_cases f inverted t) as [(p & Hp & Hlt & Heq)|[_ Heq]]; rewrite Heq; [|by right].
    simpl. destruct (IH (fillAt tv f inverted t)) as [(inverted' & Heq' & Hall)|Heq']; rewrite Heq'; [|by right].
    left. exists inverted'. split; [done|].
    intros t' [->|Ht']%elem_of_cons; eauto.
Qed.

Lemma invertStep_cases (f : string) (osub : option string) (ts : list string)
    (inverted : list (option string)) :
  osub ≫= targets reg = Some ts →
  (∃ inverted', invertStep reg toDim inverted (f, osub) = Js.Ok inverted'
                ∧ ∀ t, t ∈ ts → ∃ p, Js.indexOf t tv = Some p ∧ p < sz)
  ∨ invertStep reg toDim inverted (f, osub) = slip.
Proof.
  intros Hts. destruct osub as [e|]; [|done]. simpl in Hts. unfold invertStep.
  destruct (targets_Some _ _ _ Hts) as [(sz' & f' & m' & He)|(i & sz' & f' & m' & He & ->)];
    rewrite He.
  - apply fillIndices_cases.
  - destruct (fillIndex_cases f inverted e) as [(p & Hp & Hlt & Heq)|[_ Heq]]; rewrite Heq; [|by right].
    left. eexists. split; [done|]. intros t ->%list_elem_of_singleton. eauto.
Qed.

Lemma invertSteps_slip (entries : list (string * option string))
    (inverted : list (option string)) (i : nat) (f : string) (osub : option string)
    (ts : list string) (t : string) :
  (∀ j e, j ≤ i → entries !! j = Some e → is_Some (e.2 ≫= targets reg)) →
  entries !! i = Some (f, osub) → osub ≫= targets reg = Some ts → t ∈ ts →
  (∀ p, Js.indexOf t tv = Some p → sz ≤ p) →
  Js.foldM (invertStep reg toDim) inverted entries = slip.
Proof.
  revert entries inverted. induction i as [|i IH]; intros [|[f0 o0] entries] inverted
    Hpre Hi Hts Ht Hbad; try done; cbn [Js.foldM].
  - simpl in Hi. injection Hi as -> ->.
    destruct (invertStep_cases f osub ts inverted Hts) as [(inverted' & _ & Hall)|Heq]; [|by rewrite Heq].
    destruct (Hall t Ht) as (p & Hp & Hlt). specialize (Hbad p Hp). lia.
  - destruct (Hpre 0 (f0, o0)) as [ts0 Hts0]; [lia|done|].
    destruct (invertStep_cases f0 o0 ts0 inverted Hts0) as [(inverted' & Heq & _)|Heq]; rewrite Heq; [|done].
    simpl. apply (IH entries inverted'); try done.
    intros j e Hj He. apply (Hpre (S j) e); [lia|done].
Qed.
End foreign.

(** X18. When the map-to name is a dimension and the mapping value names, for
    one of the map-from indices, a subscript that is not an index of that
    dimension (or stands past its size), the entries up to that one naming
    subscripts of the registry, the inversion of the mapping throws a
    [ReferenceError]: the branch written to report the entry builds its
    message from [toSubName], which is not in the scope of
    [setMappingValue], and the message is never printed. *)
Theorem invertMapping_foreign_index (reg : gmap string Sub) (fromValue : list string)
    (toDimName : string) (mappingValue : list (option string))
    (tv : list string) (sz : nat) (fam : string) (m : list (string * list (option string)))
    (i : nat) (ts : list string) (t : string) :
  reg !! toDimName = Some (mkSub (DimValue tv) sz fam m) →
  mappingValue ≠ [] →
  i < length fromValue →
  (∀ j, j ≤ i → is_Some (entryTargets reg mappingValue j)) →
  entryTargets reg mappingValue i = Some ts → t ∈ ts →
  (∀ p, Js.indexOf t tv = Some p → sz ≤ p) →
  invertMapping reg fromValue toDimName mappingValue
  = Js.Throw (Js.ReferenceError "toSubName").
Proof.
  intros HtoDim Hne Hi Hpre Hts Ht Hbad. unfold invertMapping.
  rewrite decide_False by done. rewrite HtoDim.
  destruct (lookup_lt_is_Some_2 fromValue i Hi) as [f Hf].
  apply (invertSteps_slip reg tv sz fam m _ [] i f (mjoin (mappingValue !! i)) ts t).
  - intros j e Hj He. apply list_lookup_imap_Some in He as (f' & Hf' & ->). simpl.
    by apply Hpre.
  - apply list_lookup_imap_Some. eauto.
  - exact Hts.
  - exact Ht.
  - exact Hbad.
Qed.

Lemma invertMapping_foreign_index_witness :
  invertMapping (defineIndices Ex.order2
                   (resolveFamilies None Ex.order2 (subs Ex.declared_foreign)))
    ["_f1"; "_f2"] "_t" [Some "_t1"; Some "_x1"]
  = Js.Throw (Js.ReferenceError "toSubName").
Proof.
  apply (invertMapping_foreign_index _ _ _ _ ["_t1"; "_t2"] 2 "_t" [] 1 ["_x1"] "_x1").
  - vm_compute. reflexivity.
  - discriminate.
  - simpl. lia.
  - intros [|[|j]] Hj; [vm_compute; eauto..|lia].
  - vm_compute. reflexivity.
  - left.
  - intros p Hp. vm_compute in Hp. discriminate.
Defined.

(** ** The indices defined from the family dimensions *)


Lemma inserts_lookup_other (l : list (string * Sub)) (reg : gmap string Sub) (n : string) :
  (∀ p, p ∈ l → p.1 ≠ n) → foldl (λ r p, <[p.1 := p.2]> r) reg l !! n = reg !! n.
Proof.
  revert reg. induction l as [|p l IH]; intros reg H; [done|]. simpl.
  rewrite IH by (intros q Hq; apply H; by right).
  rewrite lookup_insert_ne; [done|]. apply H. left.
Qed.

Lemma inserts_lookup_all (l : list (string * Sub)) (reg : gmap string Sub) (n : string)
    (s : Sub) :
  (∃ p, p ∈ l ∧ p.1 = n) → (∀ p, p ∈ l → p.1 = n → p.2 = s) →
  foldl (λ r p, <[p.1 := p.2]> r) reg l !! n = Some s.
Proof.
  revert reg. induction l as [|p l IH]; intros reg (q & Hq & Hkey) Hall.
  { by apply elem_of_nil in Hq. }
  simpl. destruct (decide (Exists (λ q', q'.1 = n) l)) as [Hlater|Hnone];
    rewrite Exists_exists in *.
  - apply IH; [done|]. intros q' Hq'. apply Hall. by right.
  - rewrite inserts_lookup_other by (intros q' Hq' Hk; apply Hnone; eauto).
    apply elem_of_cons in Hq as [->|Hq]; [|exfalso; apply Hnone; eauto].
    rewrite Hkey, lookup_insert_eq. f_equal. apply Hall; [left|done].
Qed.

Lemma addIndices_inserts (f : string) (g : nat → nat) (v : list string)
    (reg : gmap string Sub) :
  foldl (λ reg '(i, ind), addIndex ind i f reg) reg (imap (λ i, pair (g i)) v)
  = foldl (λ r p, <[p.1 := p.2]> r) reg
          (imap (λ i ind, (ind, mkSub (IndexValue (g i)) 1 f [])) v).
Proof.
  revert reg g. induction v as [|ind v IH]; intros reg g; [done|].
  cbn [imap foldl]. apply (IH _ (g ∘ S)).
Qed.

Lemma defineIndices_inserts (order : list string) (reg0 reg : gmap string Sub) :
  (∀ name, name ∈ order → reg !! name = reg0 !! name) →
  (∀ name p, name ∈ order → p ∈ indexDefs reg0 name → p.1 ∉ order) →
  defineIndices order reg
  = foldl (λ r p, <[p.1 := p.2]> r) reg (concat (indexDefs reg0 <$> order)).
Proof.
  unfold defineIndices. revert reg. induction order as [|name l IH]; intros reg Hsame Hfresh;
    [done|].
  rewrite fmap_cons. cbn [concat foldl]. rewrite foldl_app.
  assert (Hstep : match reg !! name with
                  | Some (mkSub (DimValue v) _ f _) =>
                      if decide (f = name)
                      then foldl (λ reg '(i, ind), addIndex ind i f reg) reg (imap pair v)
                      else reg
                  | _ => reg
                  end = foldl (λ r p, <[p.1 := p.2]> r) reg (indexDefs reg0 name)).
  { unfold indexDefs. rewrite <- (Hsame name) by left.
    destruct (reg !! name) as [[[v|i] sz f m]|]; [|done..].
    destruct (decide (f = name)); [|done]. apply (addIndices_inserts f id v reg). }
  rewrite Hstep. apply IH.
  - intros n Hn. rewrite inserts_lookup_other; [apply Hsame; by right|].
    intros p Hp Hk. apply (Hfresh name p); [left|done|]. rewrite Hk. by right.
  - intros n p Hn Hp Hin. apply (Hfresh n p); [by right|done|by right].
Qed.

Lemma indexDefs_elem (reg : gmap string Sub) (name : string) (p : string * Sub) :
  p ∈ indexDefs reg name
  ↔ ∃ v sz m i, reg !! name = Some (mkSub (DimValue v) sz name m)
                ∧ v !! i = Some p.1 ∧ p.2 = mkSub (IndexValue i) 1 name [].
Proof.
  unfold indexDefs. destruct (reg !! name) as [[[v|i] sz f m]|] eqn:E.
  - destruct (decide (f = name)) as [->|Hne].
    + rewrite list_elem_of_lookup. split.
      * intros (i & Hi). apply list_lookup_imap_Some in Hi as (ind & Hind & ->).
        exists v, sz, m, i. done.
      * intros (v' & sz' & m' & i & [= <- <- <-] & Hi & Hp). exists i.
        apply list_lookup_imap_Some. exists p.1. split; [done|].
        destruct p as [k s]. simpl in *. by subst s.
    + split; [by intros ?%elem_of_nil|]. intros (? & ? & ? & ? & [= ? ? ?] & _). congruence.
  - split; [by intros ?%elem_of_nil|]. by intros (? & ? & ? & ? & ? & _).
  - split; [by intros ?%elem_of_nil|]. by intros (? & ? & ? & ? & ? & _).
Qed.

(** X19. The index loop defines indices from the dimensions that are their
    own family, and from no other: when no name listed in such a dimension
    is itself one of the dimensions, every dimension is left as it is, a
    name listed in none of them is left as it is, and an index that one
    family dimension lists, once, is registered with its position in that
    dimension and with that dimension as its family. *)
Theorem defineIndices_positions (order : list string) (reg : gmap string Sub) :
  (∀ d v sz m e, d ∈ order → reg !! d = Some (mkSub (DimValue v) sz d m) → e ∈ v →
                 e ∉ order) →
  (∀ d, d ∈ order → defineIndices order reg !! d = reg !! d)
  ∧ (∀ n, (∀ d v sz m, d ∈ order → reg !! d = Some (mkSub (DimValue v) sz d m) → n ∉ v) →
          defineIndices order reg !! n = reg !! n)
  ∧ (∀ d v sz m i ind,
       d ∈ order → reg !! d = Some (mkSub (DimValue v) sz d m) →
       NoDup v → v !! i = Some ind →
       (∀ d' v' sz' m', d' ∈ order → d' ≠ d →
                        reg !! d' = Some (mkSub (DimValue v') sz' d' m') → ind ∉ v') →
       defineIndices order reg !! ind = Some (mkSub (IndexValue i) 1 d [])).
Proof.
  intros Hfresh.
  assert (Hdefs : ∀ p, p ∈ concat (indexDefs reg <$> order)
            ↔ ∃ d v sz m i, d ∈ order ∧ reg !! d = Some (mkSub (DimValue v) sz d m)
                            ∧ v !! i = Some p.1 ∧ p.2 = mkSub (IndexValue i) 1 d []).
  { intros p. rewrite elem_of_concat. split.
    - intros (l & Hp & (d & -> & Hd)%list_elem_of_fmap).
      apply indexDefs_elem in Hp as (v & sz & m & i & ? & ? & ?). eauto 10.
    - intros (d & v & sz & m & i & Hd & Hreg & Hi & Hp). exists (indexDefs reg d).
      split; [apply indexDefs_elem; eauto 10|]. apply list_elem_of_fmap. eauto. }
  rewrite (defineIndices_inserts order reg reg); [|done|].
  2:{ intros name p Hname (v & sz & m & i & Hreg & Hi & _)%indexDefs_elem.
      eapply Hfresh; [exact Hname|exact Hreg|]. by eapply list_elem_of_lookup_2. }
  split; [|split].
  - intros d Hd. apply inserts_lookup_other.
    intros p (d' & v & sz & m & i & Hd' & Hreg & Hi & _)%Hdefs Hk.
    apply (Hfresh d' v sz m p.1 Hd' Hreg); [by eapply list_elem_of_lookup_2|by rewrite Hk].
  - intros n Hn. apply inserts_lookup_other.
    intros p (d' & v & sz & m & i & Hd' & Hreg & Hi & _)%Hdefs Hk.
    apply (Hn d' v sz m Hd' Hreg). rewrite <- Hk. by eapply list_elem_of_lookup_2.
  - intros d v sz m i ind Hd Hreg Hnd Hi Honly. apply inserts_lookup_all.
    + exists (ind, mkSub (IndexValue i) 1 d []). split; [|done].
      apply Hdefs. exists d, v, sz, m, i. done.
    + intros p (d' & v' & sz' & m' & i' & Hd' & Hreg' & Hi' & Hp)%Hdefs Hk.
      destruct (decide (d' = d)) as [->|Hne].
      * assert (v' = v) as -> by congruence. rewrite Hk in Hi'.
        by rewrite (NoDup_lookup v i' i ind Hnd Hi' Hi) in Hp.
      * exfalso. apply (Honly d' v' sz' m' Hd' Hne Hreg').
        rewrite <- Hk. by eapply list_elem_of_lookup_2.
Qed.

Lemma defineIndices_positions_witness :
  defineIndices Ex.order1 (resolveFamilies None Ex.order1 Ex.ranges1) !! "_a2"
  = Some (mkSub (IndexValue 1) 1 "_dima" []).
Proof.
  assert (Hfresh : ∀ d v sz m e, d ∈ Ex.order1 →
            resolveFamilies None Ex.order1 Ex.ranges1 !! d = Some (mkSub (DimValue v) sz d m) →
            e ∈ v → e ∉ Ex.order1).
  { intros d v sz m e _ Hd He.
    assert (Hall : forallb (λ p : string * Sub,
                              match value p.2 with
                              | DimValue w => forallb (λ x, bool_decide (x ∉ Ex.order1)) w
                              | IndexValue _ => true
                              end)
                           (map_to_list (resolveFamilies None Ex.order1 Ex.ranges1)) = true)
      by (vm_compute; reflexivity).
    pose proof (check_entries _ _ Hall d _ Hd) as Hc.
    simpl in Hc. rewrite forallb_forall in Hc.
    apply list_elem_of_In in He. apply Hc in He. by apply bool_decide_eq_true in He. }
  destruct (defineIndices_positions Ex.order1 (resolveFamilies None Ex.order1 Ex.ranges1) Hfresh)
    as (_ & _ & Hpos).
  apply (Hpos "_dima" ["_a1"; "_a2"; "_a3"] 3 [] 1 "_a2").
  - apply (bool_decide_unpack _). vm_compute. exact I.
  - vm_compute. reflexivity.
  - apply (bool_decide_unpack _). vm_compute. exact I.
  - reflexivity.
  - intros d' v' sz' m' Hd' Hne Hreg. unfold Ex.order1 in Hd'.
    apply elem_of_cons in Hd' as [->|Hd']; [exfalso; apply Hne; reflexivity|].
    apply elem_of_cons in Hd' as [->|Hd']; [vm_compute in Hreg; discriminate|].
    apply elem_of_cons in Hd' as [->|Hd']; [vm_compute in Hreg; discriminate|].
    apply elem_of_cons in Hd' as [->|Hd']; [|apply elem_of_nil in Hd'; destruct Hd'].
    vm_compute in Hreg. injection Hreg as <- _ _.
    apply (bool_decide_unpack _). vm_compute. exact I.
Defined.

(** ** The spec as loaded *)

Lemma getProp_setField (name k : string) (x : Generate.Json)
    (properties : list (string * Generate.Json)) :
  Generate.getProp k (Generate.JObject (Generate.setField name x properties))
  = if decide (k = name) then Some x else Generate.getProp k (Generate.JObject properties).
Proof.
  unfold Generate.getProp. induction properties as [|p rest IH]; simpl.
  - case_bool_decide; simpl; [by rewrite decide_True|by rewrite decide_False].
  - destruct (decide (p.1 = name)) as [Hp|Hp]; simpl.
    + repeat case_bool_decide; destruct (decide (k = name)); simpl; congruence.
    + case_bool_decide as Hk; simpl.
      * rewrite decide_False by congruence. done.
      * exact IH.
Qed.

Lemma setField_keys (name : string) (x : Generate.Json)
    (properties : list (string * Generate.Json)) :
  (Generate.setField name x properties).*1
  = if decide (name ∈ properties.*1) then properties.*1 else properties.*1 ++ [name].
Proof.
  induction properties as [|p rest IH]; [done|].
  cbn [Generate.setField]. destruct (decide (p.1 = name)) as [Hp|Hp].
  - rewrite !fmap_cons. rewrite decide_True by (rewrite Hp; left). by rewrite Hp.
  - rewrite !fmap_cons, IH. destruct (decide (name ∈ rest.*1)) as [Hin|Hin].
    + rewrite decide_True by (by right). done.
    + rewrite decide_False; [done|]. intros [?|?]%elem_of_cons; congruence.
Qed.

Section loader.
Context (read : string → option string) (JSON_parse : string → option Generate.Json)
        (canonicalName : Generate.Json → option string).

(** X20. The loader hands on what it parsed: the empty object when the spec
    file cannot be read, the parsed value unchanged when it has no
    [dimensionFamilies] (or a falsy one); a file that holds [null] makes
    [parseSpec] throw a [TypeError], outside the [try] block. *)
Theorem parseSpec_passes (specFilename : string) :
  (read specFilename = None →
   Generate.parseSpec read JSON_parse canonicalName specFilename
   = Js.Ok (Generate.JObject []))
  ∧ (∀ text, read specFilename = Some text → JSON_parse text = Some Generate.JNull →
       Generate.parseSpec read JSON_parse canonicalName specFilename = Js.Throw Js.TypeError)
  ∧ (∀ text spec, read specFilename = Some text → JSON_parse text = Some spec →
       spec ≠ Generate.JNull →
       Generate.truthy (Generate.getProp "dimensionFamilies" spec) = false →
       Generate.parseSpec read JSON_parse canonicalName specFilename = Js.Ok spec).
Proof.
  unfold Generate.parseSpec, Generate.parseJsonFile. split; [|split].
  - by intros ->.
  - by intros text -> ->.
  - intros text spec -> -> Hnull Hfalsy. rewrite Hfalsy. by destruct spec.
Qed.

Lemma canonicalFamilies_fold (c : Generate.Json → string)
    (l : list (string * Generate.Json)) (acc : list (string * Generate.Json)) :
  (∀ p, p ∈ l → canonicalName (Generate.JString p.1) = Some (c (Generate.JString p.1))
                ∧ canonicalName p.2 = Some (c p.2)) →
  Js.foldM (λ f p,
              match canonicalName (Generate.JString p.1), canonicalName p.2 with
              | Some dimName, Some family =>
                  Js.Ok (Generate.setField dimName (Generate.JString family) f)
              | _, _ => Js.Throw Js.TypeError
              end) acc l
  = Js.Ok (foldl (λ f p, Generate.setField (c (Generate.JString p.1))
                           (Generate.JString (c p.2)) f) acc l).
Proof.
  revert acc. induction l as [|p l IH]; intros acc H; [done|].
  cbn [Js.foldM foldl]. destruct (H p (list_elem_of_here _ _)) as [H1 H2].
  rewrite H1, H2. rewrite Result_bind_Ok.
  apply IH. intros q Hq. apply H. by right.
Qed.

Lemma families_lookup (c : Generate.Json → string) (l : list (string * Generate.Json))
    (acc : list (string * Generate.Json)) (k : string) :
  Generate.getProp k
    (Generate.JObject (foldl (λ f p, Generate.setField (c (Generate.JString p.1))
                                       (Generate.JString (c p.2)) f) acc l))
  = match last (filter (λ p, c (Generate.JString p.1) = k) l) with
    | Some p => Some (Generate.JString (c p.2))
    | None => Generate.getProp k (Generate.JObject acc)
    end.
Proof.
  revert acc. induction l as [|p l IH]; intros acc; [done|].
  cbn [foldl]. rewrite IH, filter_cons, getProp_setField.
  destruct (decide (c (Generate.JString p.1) = k)) as [Hk|Hk].
  - rewrite last_cons. rewrite decide_True by done. by destruct (last _).
  - rewrite decide_False by done. done.
Qed.

(** X21. [parseSpec] replaces the [dimensionFamilies] object of the spec by
    its canonical form and leaves the other properties as they are: the
    entry under a canonical name is the canonical family of the last
    dimension of the object with that canonical name, and a name that is the
    canonical name of none of them has no entry. *)
Theorem parseSpec_canonical_families (c : Generate.Json → string) (specFilename text : string)
    (properties fams : list (string * Generate.Json)) :
  read specFilename = Some text →
  JSON_parse text = Some (Generate.JObject properties) →
  Generate.getProp "dimensionFamilies" (Generate.JObject properties)
  = Some (Generate.JObject fams) →
  (∀ p, p ∈ fams → canonicalName (Generate.JString p.1) = Some (c (Generate.JString p.1))
                   ∧ canonicalName p.2 = Some (c p.2)) →
  ∃ spec f,
    Generate.parseSpec read JSON_parse canonicalName specFilename = Js.Ok spec
    ∧ Generate.getProp "dimensionFamilies" spec = Some (Generate.JObject f)
    ∧ (∀ k, Generate.getProp k (Generate.JObject f)
            = (λ p, Generate.JString (c p.2))
              <$> last (filter (λ p, c (Generate.JString p.1) = k) fams))
    ∧ (∀ name, name ≠ "dimensionFamilies" →
               Generate.getProp name spec = Generate.getProp name (Generate.JObject properties))
    ∧ ∃ properties', spec = Generate.JObject properties' ∧ properties'.*1 = properties.*1.
Proof.
  intros Hread Hparse Hfams Hcanon.
  unfold Generate.parseSpec, Generate.parseJsonFile. rewrite Hread, Hparse, Hfams.
  cbn [Generate.truthy default from_option id]. unfold Generate.canonicalFamilies.
  cbn [Generate.enumerate]. rewrite (canonicalFamilies_fold c) by done.
  set (f := foldl _ [] fams).
  exists (Generate.setProp "dimensionFamilies" (Generate.JObject f)
            (Generate.JObject properties)), f.
  split; [done|]. cbn [Generate.setProp]. split; [|split; [|split]].
  - rewrite getProp_setField. by rewrite decide_True.
  - intros k. unfold f. rewrite families_lookup.
    by destruct (last _).
  - intros name Hname. rewrite getProp_setField. by rewrite decide_False.
  - eexists. split; [done|]. rewrite setField_keys. rewrite decide_True; [done|].
    unfold Generate.getProp in Hfams. destruct (find _ properties) as [p|] eqn:E; [|done].
    apply find_Some_elem in E as [Hin Hk]. apply bool_decide_eq_true in Hk.
    apply list_elem_of_fmap. exists p. done.
Qed.
End loader.

Lemma parseSpec_canonical_families_witness :
  ∃ spec f,
    Generate.parseSpec Ex.sample_files Ex.sample_parse Ex.sample_canonicalName "spec.json"
    = Js.Ok spec
    ∧ Generate.getProp "dimensionFamilies" spec = Some (Generate.JObject f)
    ∧ Generate.getProp "_sub_a" (Generate.JObject f) = Some (Generate.JString "_dim_a")
    ∧ Generate.getProp "outputVars" spec
      = Some (Generate.JArray [Generate.JString "y"]).
Proof.
  destruct (parseSpec_canonical_families Ex.sample_files Ex.sample_parse
              Ex.sample_canonicalName (λ x, default "" (Ex.sample_canonicalName x))
              "spec.json"
              ("{ " +:+ Ex.quoted "outputVars" +:+ ": [" +:+ Ex.quoted "y" +:+ "], "
               +:+ Ex.quoted "dimensionFamilies" +:+ ": { "
               +:+ Ex.quoted "Sub A" +:+ ": " +:+ Ex.quoted "Dim A" +:+ " } }")
              [("outputVars", Generate.JArray [Generate.JString "y"]);
               ("dimensionFamilies", Generate.JObject [("Sub A", Generate.JString "Dim A")])]
              [("Sub A", Generate.JString "Dim A")])
    as (spec & f & Hrun & Hfams & Hlookup & Hother & _).
  - reflexivity.
  - vm_compute. reflexivity.
  - reflexivity.
  - intros p ->%list_elem_of_singleton. split; reflexivity.
  - exists spec, f. split; [exact Hrun|]. split; [exact Hfams|]. split.
    + rewrite (Hlookup "_sub_a"). vm_compute. reflexivity.
    + rewrite (Hother "outputVars") by discriminate. reflexivity.
Defined.

(** ** Unique reference identifiers *)

Lemma sort_by_never {A} (l : list A) : Js.sort_by (λ _ _, false) l = l.
Proof. induction l as [|x l IH]; [done|]. simpl. rewrite IH. by destruct l. Qed.

Lemma normalizeSubscripts_empty (l : list string) : normalizeSubscripts ∅ l = l.
Proof.
  unfold normalizeSubscripts.
  replace (family_gt ∅) with (λ _ _ : string, false); [apply sort_by_never|].
  done.
Qed.

Lemma splitRefId_refIdForVar_raw (names : gmap string (list bool)) (v : Var) :
  all_word_chars (varName v) = true → Forall is_word (subscripts v) →
  splitRefId ∅ (refIdForVar names v)
  = mkParts (varName v) (if isNonAtoAName names (varName v) then subscripts v else []).
Proof.
  intros Hname Hsubs. unfold refIdForVar, hasSubscripts, splitRefId.
  destruct (decide (subscripts v = [])) as [Hnil|Hnil].
  - rewrite bool_decide_eq_true_2 by done. simpl.
    rewrite <- (string_app_nil_r (varName v)) at 1. rewrite scan_word by done.
    simpl. rewrite splitStep_name. rewrite Hnil. by destruct (isNonAtoAName _ _).
  - rewrite bool_decide_eq_false_2 by done. simpl.
    destruct (isNonAtoAName names (varName v)).
    + rewrite scan_word by done.
      change ("[" +:+ Js.join "," (subscripts v) +:+ "]")
        with (String "["%char (Js.join "," (subscripts v) +:+ "]")).
      cbn [scan]. change (Js.is_word_char "["%char) with false. cbn iota.
      rewrite decide_True by done. rewrite scan_subscripts by done.
      rewrite foldl_app, splitStep_name. simpl. rewrite splitStep_words. simpl.
      by rewrite normalizeSubscripts_empty.
    + rewrite <- (string_app_nil_r (varName v)) at 1. rewrite scan_word by done.
      simpl. by rewrite splitStep_name.
Qed.

(** X22. After the non-apply-to-all names have been detected and the refIds
    assigned, no two records of the table have the same refId, provided no
    two records have both the same varName and the same subscripts, the
    varNames are made of word characters and the subscripts are non-empty
    words. *)
Theorem assignRefIds_unique (st : State) :
  NoDup ((λ v, (varName v, subscripts v)) <$> variables st) →
  (∀ v, v ∈ variables st →
        all_word_chars (varName v) = true ∧ Forall is_word (subscripts v)) →
  NoDup (refId <$> variables (assignRefIds st)).
Proof.
  intros Hnd Hwords. unfold assignRefIds. rewrite setRefIds_variables.
  change (variables (findNonAtoAVars st)) with (variables st).
  set (names := nonAtoANames (findNonAtoAVars st)).
  rewrite <- list_fmap_compose.
  assert (Hpair : ∀ v w, v ∈ variables st → w ∈ variables st →
            varName v = varName w → subscripts v = subscripts w → v = w).
  { intros v w Hv Hw Hn Hs.
    apply list_elem_of_lookup in Hv as [i Hi]. apply list_elem_of_lookup in Hw as [j Hj].
    assert (i = j) as ->; [|congruence].
    eapply NoDup_lookup; [exact Hnd|..]; rewrite list_lookup_fmap.
    - by rewrite Hi.
    - rewrite Hj. simpl. by rewrite Hn, Hs. }
  apply NoDup_fmap_2_strong; [|by eapply NoDup_fmap_1].
  intros v w Hv Hw Heq. simpl in Heq.
  destruct (Hwords v Hv) as [Hvn Hvs], (Hwords w Hw) as [Hwn Hws].
  pose proof (splitRefId_refIdForVar_raw names v Hvn Hvs) as Pv.
  pose proof (splitRefId_refIdForVar_raw names w Hwn Hws) as Pw.
  rewrite Heq, Pw in Pv. injection Pv as Hn Hs.
  destruct (isNonAtoAName names (varName v)) eqn:Hshared.
  - rewrite Hn, Hshared in Hs. by apply Hpair.
  - apply not_true_iff_false in Hshared.
    assert (Hlen : ¬ 1 < length (varsWithName (variables st) (varName v))).
    { intros Hlen. apply Hshared. apply findNonAtoAVars_spec. by right. }
    assert (Hv' : v ∈ varsWithName (variables st) (varName v))
      by (by apply list_elem_of_filter).
    assert (Hw' : w ∈ varsWithName (variables st) (varName v))
      by (by apply list_elem_of_filter).
    destruct (varsWithName (variables st) (varName v)) as [|x [|y l]]; simpl in Hlen.
    + by apply elem_of_nil in Hv'.
    + apply list_elem_of_singleton in Hv', Hw'. congruence.
    + lia.
Qed.

Lemma assignRefIds_unique_witness :
  NoDup (refId <$> variables (assignRefIds Ex.table1)).
Proof.
  apply assignRefIds_unique.
  - apply (bool_decide_unpack _). vm_compute. exact I.
  - intros v Hv.
    assert (Hall : Forall (λ v, all_word_chars (varName v) = true
                                ∧ Forall (λ s, s ≠ "" ∧ all_word_chars s = true) (subscripts v))
                          (variables Ex.table1))
      by (apply (bool_decide_unpack _); vm_compute; exact I).
    rewrite Forall_forall in Hall. by apply Hall.
Defined.


(** ** What the inversion loop leaves alone *)

Lemma sameButMappings_refl (d : Sub) : sameButMappings d d.
Proof. repeat split. by destruct (value d). Qed.

Lemma sameButMappings_trans (d1 d2 d3 : Sub) :
  sameButMappings d1 d2 → sameButMappings d2 d3 → sameButMappings d1 d3.
Proof.
  intros (Hv & Hs & Hf & Hm & Hi) (Hv' & Hs' & Hf' & Hm' & Hi').
  repeat split; try congruence.
  rewrite Hv in Hi'. destruct (value d1); [done|]. congruence.
Qed.

Lemma inversionFrame_refl (order : list string) (reg : gmap string Sub) :
  inversionFrame order reg reg.
Proof.
  intros n. split; [done|]. destruct (reg !! n) as [d|]; [|done].
  exists d. split; [done|]. apply sameButMappings_refl.
Qed.

Lemma inversionFrame_trans (order : list string) (r1 r2 r3 : gmap string Sub) :
  inversionFrame order r1 r2 → inversionFrame order r2 r3 → inversionFrame order r1 r3.
Proof.
  intros H12 H23 n. destruct (H12 n) as [Ho Hn], (H23 n) as [Ho' Hn']. split.
  - intros Hnot. by rewrite Ho', Ho.
  - destruct (r1 !! n) as [d1|]; [|by rewrite Hn in Hn'].
    destruct Hn as (d2 & Hd2 & Hs). rewrite Hd2 in Hn'. destruct Hn' as (d3 & Hd3 & Hs').
    exists d3. split; [done|]. by eapply sameButMappings_trans.
Qed.

Lemma foldM_rel {A B} (R : A → A → Prop) (f : A → B → Js.Result A) (l : list B) :
  (∀ a, R a a) → (∀ a b c, R a b → R b c → R a c) →
  (∀ a x a', x ∈ l → f a x = Js.Ok a' → R a a') →
  ∀ a a', Js.foldM f a l = Js.Ok a' → R a a'.
Proof.
  intros Hrefl Htrans. induction l as [|x l IH]; intros Hstep a a'; cbn [Js.foldM].
  - by intros [= <-].
  - destruct (f a x) as [a1|e] eqn:E; [|done]. rewrite Result_bind_Ok. intros Hrun.
    eapply Htrans; [eapply Hstep; [left|exact E]|].
    apply IH; [|done]. intros b y b' Hy. apply Hstep. by right.
Qed.

Lemma mapping_set_keys (k : string) (x : list (option string))
    (m : list (string * list (option string))) :
  is_Some (mapping_get k m) → (mapping_set k x m).*1 = m.*1.
Proof.
  unfold mapping_get. induction m as [|e m IH]; [by intros [? ?]|].
  cbn [find mapping_set]. case_bool_decide as Hk.
  - intros _. rewrite decide_True by done. rewrite !fmap_cons. simpl. by rewrite Hk.
  - intros H. rewrite decide_False by done. rewrite !fmap_cons. by rewrite IH.
Qed.

Lemma invertDimMapping_frame (order : list string) (fromName : string)
    (reg reg' : gmap string Sub) (toDimName : string) :
  fromName ∈ order →
  invertDimMapping fromName reg toDimName = Js.Ok reg' → inversionFrame order reg reg'.
Proof.
  intros Hin. unfold invertDimMapping.
  destruct (reg !! fromName) as [[[v|i] sz f m]|] eqn:E;
    try (intros [= <-]; apply inversionFrame_refl).
  destruct (mapping_get toDimName m) as [mv|] eqn:Hmv;
    [|intros [= <-]; apply inversionFrame_refl].
  destruct (invertMapping reg v toDimName mv) as [inverted|e]; [|done].
  rewrite Result_bind_Ok. intros [= <-] n. split.
  - intros Hn. rewrite lookup_insert_ne; [done|]. by intros ->.
  - destruct (decide (n = fromName)) as [->|Hne].
    + rewrite E, lookup_insert_eq. eexists. split; [done|]. repeat split.
      simpl. apply mapping_set_keys. by rewrite Hmv.
    + rewrite lookup_insert_ne by done. destruct (reg !! n) as [d|]; [|done].
      exists d. split; [done|]. apply sameButMappings_refl.
Qed.

Lemma invertDim_frame (order : list string) (fromName : string)
    (reg reg' : gmap string Sub) :
  fromName ∈ order → invertDim reg fromName = Js.Ok reg' → inversionFrame order reg reg'.
Proof.
  intros Hin. unfold invertDim.
  destruct (reg !! fromName) as [[[v|i] sz f m]|];
    try (intros [= <-]; apply inversionFrame_refl).
  apply (foldM_rel (inversionFrame order)).
  - apply inversionFrame_refl.
  - apply inversionFrame_trans.
  - intros a x a' _. by apply invertDimMapping_frame.
Qed.

(** X23. When the inversion loop ends normally it has changed nothing but
    mapping values: every subscript is still there with its value, size and
    family, every dimension has mappings to the same map-to names in the
    same order, and the indices and the subscripts that are not among the
    dimensions of the loop are exactly as before. *)
Theorem invertMappings_frame (order : list string) (reg reg' : gmap string Sub) :
  invertMappings order reg = Js.Ok reg' → inversionFrame order reg reg'.
Proof.
  unfold invertMappings. apply (foldM_rel (inversionFrame order)).
  - apply inversionFrame_refl.
  - apply inversionFrame_trans.
  - intros a x a' Hx. by apply invertDim_frame.
Qed.

Lemma invertMappings_frame_witness :
  ∃ reg', invertMappings Ex.order2 Ex.indexed2 = Js.Ok reg'
          ∧ inversionFrame Ex.order2 Ex.indexed2 reg'.
Proof.
  eexists. split; [vm_compute; reflexivity|].
  apply invertMappings_frame. vm_compute. reflexivity.
Defined.

(** ** The shape of an inverted mapping *)

Lemma array_set_length {A} (i : nat) (x : A) (a : list (option A)) :
  length (Js.array_set i x a) = length a `max` S i.
Proof.
  unfold Js.array_set. destruct (decide (i < length a)).
  - rewrite length_insert. lia.
  - rewrite !length_app, length_replicate. simpl. lia.
Qed.

Lemma array_set_filled (i p : nat) (x : string) (a : list (option string)) :
  filled a p ∨ p = i → filled (Js.array_set i x a) p.
Proof.
  intros [[y Hy]| ->].
  - destruct (decide (i = p)) as [->|Hne].
    + exists x. apply array_set_eq.
    + exists y. by apply array_set_keep.
  - exists x. apply array_set_eq.
Qed.

Lemma array_set_values (names : list string) (i : nat) (x : string)
    (a : list (option string)) :
  x ∈ names → (∀ p y, a !! p = Some (Some y) → y ∈ names) →
  ∀ p y, Js.array_set i x a !! p = Some (Some y) → y ∈ names.
Proof.
  intros Hx Ha p y. unfold Js.array_set. destruct (decide (i < length a)).
  - destruct (decide (i = p)) as [->|Hne].
    + rewrite list_lookup_insert_eq by done. by intros [= <-].
    + rewrite list_lookup_insert_ne by done. apply Ha.
  - intros Hp. apply lookup_app_Some in Hp as [Hp|[_ Hp]]; [by eapply Ha|].
    apply lookup_app_Some in Hp as [Hp|[_ Hp]].
    + by apply lookup_replicate in Hp as [? _].
    + apply list_lookup_singleton_Some in Hp as [_ [= <-]]. done.
Qed.

Section shape.
Context (tv : list string) (sz : nat) (names : list string).

Local Abbreviation shaped := (shapedArray sz names).

Lemma fillEntry_shape (a : list (option string)) (f : string) (ts : list string) :
  f ∈ names → (∀ t, t ∈ ts → ∃ p, Js.indexOf t tv = Some p ∧ p < sz) →
  shaped a →
  shaped (fillEntry tv a (f, ts))
  ∧ (∀ p, filled a p → filled (fillEntry tv a (f, ts)) p)
  ∧ (∀ t p, t ∈ ts → Js.indexOf t tv = Some p → filled (fillEntry tv a (f, ts)) p).
Proof.
  intros Hf. unfold fillEntry. simpl. revert a.
  induction ts as [|t ts IH]; intros a Hts Ha; simpl.
  { split; [done|]. split; [done|]. by intros t p ?%elem_of_nil. }
  destruct (Hts t) as (p0 & Hp0 & Hlt); [left|].
  assert (Hstep : shaped (fillAt tv f a t)).
  { unfold fillAt. rewrite Hp0. simpl. destruct Ha as [Hlen Hval]. split.
    - rewrite array_set_length. lia.
    - by apply array_set_values. }
  destruct (IH (fillAt tv f a t)) as (Hshape & Hkeep & Hfill); [|done|].
  { intros t' Ht'. apply Hts. by right. }
  split; [done|]. split.
  - intros p Hp. apply Hkeep. unfold fillAt. apply array_set_filled. by left.
  - intros t' p [->|Ht']%elem_of_cons Hp; [|by eapply Hfill].
    apply Hkeep. unfold fillAt. rewrite Hp. simpl. apply array_set_filled. by right.
Qed.

Lemma fillEntries_shape (entries : list (string * list string)) (a : list (option string)) :
  (∀ e, e ∈ entries → e.1 ∈ names ∧ ∀ t, t ∈ e.2 → ∃ p, Js.indexOf t tv = Some p ∧ p < sz) →
  shaped a →
  shaped (foldl (fillEntry tv) a entries)
  ∧ (∀ p, filled a p → filled (foldl (fillEntry tv) a entries) p)
  ∧ (∀ e t p, e ∈ entries → t ∈ e.2 → Js.indexOf t tv = Some p →
              filled (foldl (fillEntry tv) a entries) p).
Proof.
  revert a. induction entries as [|[f ts] entries IH]; intros a Hentries Ha; simpl.
  { split; [done|]. split; [done|]. by intros e t p ?%elem_of_nil. }
  destruct (Hentries (f, ts)) as [Hf Hts]; [left|]. simpl in *.
  destruct (fillEntry_shape a f ts Hf Hts Ha) as (Hshape & Hkeep & Hfill).
  destruct (IH (fillEntry tv a (f, ts))) as (Hshape' & Hkeep' & Hfill'); [|done|].
  { intros e He. apply Hentries. by right. }
  split; [done|]. split; [by intros p Hp; apply Hkeep', Hkeep|].
  intros e t p [->|He]%elem_of_cons Ht Hp; [|by eapply Hfill'].
  apply Hkeep'. by eapply Hfill.
Qed.
End shape.

(** X24. The inverted value of a well-formed mapping is no longer than the
    map-to dimension and holds nothing but map-from indices and holes; the
    position of every map-to index that an entry of the mapping stands for
    is filled.  So when the entries stand for all the indices of the map-to
    dimension, the inverted value has one map-from index for each of them
    and no hole. *)
Theorem invertMapping_onto (reg : gmap string Sub) (fromValue : list string)
    (toDimName : string) (mappingValue : list (option string))
    (tv : list string) (sz : nat) (fam : string) (m : list (string * list (option string))) :
  reg !! toDimName = Some (mkSub (DimValue tv) sz fam m) →
  mappingValue ≠ [] →
  (∀ i, i < length fromValue →
        ∃ ts, entryTargets reg mappingValue i = Some ts
              ∧ ∀ t, t ∈ ts → ∃ p, Js.indexOf t tv = Some p ∧ p < sz) →
  ∃ inverted,
    invertMapping reg fromValue toDimName mappingValue = Js.Ok inverted
    ∧ length inverted ≤ sz
    ∧ (∀ p y, inverted !! p = Some (Some y) → y ∈ fromValue)
    ∧ (∀ i ts t p, i < length fromValue → entryTargets reg mappingValue i = Some ts →
                   t ∈ ts → Js.indexOf t tv = Some p → filled inverted p)
    ∧ ((∀ p, p < sz → ∃ i ts t, i < length fromValue
                                ∧ entryTargets reg mappingValue i = Some ts
                                ∧ t ∈ ts ∧ Js.indexOf t tv = Some p) →
       length inverted = sz ∧ ∀ p, p < sz → filled inverted p).
Proof.
  intros HtoDim Hne Hvalid.
  rewrite (invertMapping_valid reg fromValue toDimName mappingValue tv sz fam m) by done.
  set (entries := imap (λ i f, (f, default [] (entryTargets reg mappingValue i))) fromValue).
  assert (Hentries : ∀ e, e ∈ entries →
            e.1 ∈ fromValue ∧ ∀ t, t ∈ e.2 → ∃ p, Js.indexOf t tv = Some p ∧ p < sz).
  { intros e (i & Hi)%list_elem_of_lookup. unfold entries in Hi.
    apply list_lookup_imap_Some in Hi as (f & Hf & ->). simpl.
    split; [by eapply list_elem_of_lookup_2|].
    destruct (Hvalid i) as (ts & -> & Hts); [by eapply lookup_lt_Some|]. done. }
  destruct (fillEntries_shape tv sz fromValue entries [] Hentries) as ([Hlen Hval] & _ & Hfill).
  { split; [simpl; lia|]. intros p y. by rewrite lookup_nil. }
  assert (Hfilled : ∀ i ts t p, i < length fromValue →
            entryTargets reg mappingValue i = Some ts → t ∈ ts →
            Js.indexOf t tv = Some p → filled (foldl (fillEntry tv) [] entries) p).
  { intros i ts t p Hi Hts Ht Hp.
    destruct (lookup_lt_is_Some_2 fromValue i Hi) as [f Hf].
    apply (Hfill (f, ts) t p); [|done|done].
    apply list_elem_of_lookup. exists i. unfold entries.
    apply list_lookup_imap_Some. exists f. split; [done|]. by rewrite Hts. }
  eexists. split; [done|]. split; [done|]. split; [done|]. split; [done|].
  intros Honto.
  assert (Hall : ∀ p, p < sz → filled (foldl (fillEntry tv) [] entries) p).
  { intros p Hp. destruct (Honto p Hp) as (i & ts & t & Hi & Hts & Ht & Hpos).
    by eapply Hfilled. }
  split; [|done].
  destruct (decide (sz = 0)) as [->|Hpos]; [lia|].
  destruct (Hall (sz - 1)) as [y Hy]; [lia|]. apply lookup_lt_Some in Hy. lia.
Qed.

Lemma invertMapping_onto_witness :
  ∃ inverted,
    invertMapping Ex.indexed2 ["_f1"; "_f2"] "_t" [Some "_t2"; Some "_t1"] = Js.Ok inverted
    ∧ length inverted = 2 ∧ ∀ p, p < 2 → filled inverted p.
Proof.
  destruct (invertMapping_onto Ex.indexed2 ["_f1"; "_f2"] "_t" [Some "_t2"; Some "_t1"]
              ["_t1"; "_t2"] 2 "_t" [])
    as (inverted & Hrun & _ & _ & _ & Honto).
  - vm_compute. reflexivity.
  - discriminate.
  - intros [|[|i]] Hi; [| |simpl in Hi; lia].
    + exists ["_t2"]. split; [vm_compute; reflexivity|].
      intros t ->%list_elem_of_singleton. exists 1. split; [vm_compute; reflexivity|lia].
    + exists ["_t1"]. split; [vm_compute; reflexivity|].
      intros t ->%list_elem_of_singleton. exists 0. split; [vm_compute; reflexivity|lia].
  - exists inverted. split; [exact Hrun|]. apply Honto.
    intros [|[|p]] Hp; [| |lia].
    + exists 1, ["_t1"], "_t1". split; [simpl; lia|]. split; [vm_compute; reflexivity|].
      split; [left|vm_compute; reflexivity].
    + exists 0, ["_t2"], "_t2". split; [simpl; lia|]. split; [vm_compute; reflexivity|].
      split; [left|vm_compute; reflexivity].
Defined.

(** ** Subscript lists of different lengths *)

Lemma subsMatchFrom_app (reg : gmap string Sub) (subscripts refSubscripts extra : list string)
    (k : nat) :
  k + length subscripts ≤ length refSubscripts →
  subsMatchFrom reg k subscripts (refSubscripts ++ extra)
  = subsMatchFrom reg k subscripts refSubscripts.
Proof.
  revert k. induction subscripts as [|s l IH]; intros k Hlen; [done|].
  simpl in *. rewrite lookup_app_l by lia. rewrite IH by lia. done.
Qed.

(** X25. The comparison loop of [varWithRefId] runs over the subscripts of
    the candidate record: a reference with fewer subscripts than the
    candidate never matches it, the subscripts a reference has beyond those
    of the candidate play no part, and a subscript of the candidate that the
    registry does not know matches nothing, not even itself. *)
Theorem subsMatch_lengths (reg : gmap string Sub) (subscripts refSubscripts : list string) :
  (subsMatch reg subscripts refSubscripts = true → length subscripts ≤ length refSubscripts)
  ∧ (∀ extra, length subscripts ≤ length refSubscripts →
       subsMatch reg subscripts (refSubscripts ++ extra)
       = subsMatch reg subscripts refSubscripts)
  ∧ (∀ s, s ∈ subscripts → reg !! s = None → subsMatch reg subscripts refSubscripts = false).
Proof.
  split; [|split].
  - unfold subsMatch. rewrite subsMatchFrom_spec. intros H.
    destruct (decide (length subscripts ≤ length refSubscripts)) as [|Hgt]; [done|].
    destruct (lookup_lt_is_Some_2 subscripts (length refSubscripts)) as [s Hs]; [lia|].
    specialize (H _ _ Hs). simpl in H. rewrite lookup_ge_None_2 in H by lia. done.
  - intros extra Hlen. unfold subsMatch. by apply subsMatchFrom_app.
  - intros s Hs Hreg. apply not_true_iff_false. unfold subsMatch.
    rewrite subsMatchFrom_spec. intros H.
    apply list_elem_of_lookup in Hs as [pos Hpos]. specialize (H pos s Hpos).
    unfold posMatch in H. destruct (refSubscripts !! (0 + pos)) as [r|]; [|done].
    assert (isIndex reg s = false) as Hi by (unfold isIndex; by rewrite Hreg).
    assert (isDimension reg s = false) as Hd
      by (apply isDimension_false; unfold dimValue; by rewrite Hreg).
    rewrite Hi, Hd in H. done.
Qed.

(** ** A dimension listed in its own definition *)

Section diverge.
Context (d : string).

(** The dimension [d] lists itself beside at least one other name, and names
    no other dimension. *)
Local Abbreviation selfListed reg :=
  (∃ v, dimValue reg d = Some v ∧ d ∈ v ∧ 2 ≤ length v
        ∧ ∀ e, e ∈ v → e ≠ d → isDimension reg e = false).

Lemma expandValue_grows (reg : gmap string Sub) (v w : list string) :
  dimValue reg d = Some v → 2 ≤ length v →
  (∀ e, e ∈ w → e ≠ d → isDimension reg e = false) →
  length w ≤ length (expandValue reg w)
  ∧ (d ∈ w → length w < length (expandValue reg w)).
Proof.
  intros Hd Hlen. induction w as [|e w IH]; intros Hw.
  { split; [done|]. by intros ?%elem_of_nil. }
  destruct IH as [IH1 IH2]; [intros e' He'; apply Hw; by right|].
  rewrite expandValue_cons, length_app. simpl.
  destruct (decide (e = d)) as [->|Hne].
  - rewrite Hd. split; lia.
  - assert (dimValue reg e = None) as -> by (apply isDimension_false, Hw; [left|done]).
    simpl. split; [lia|]. intros [?|Hin]%elem_of_cons; [done|]. specialize (IH2 Hin). lia.
Qed.

Lemma expandDim_selfListed (found : bool) (reg : gmap string Sub) (name : string) :
  selfListed reg →
  selfListed (expandDim (found, reg) name).2
  ∧ (name = d → (expandDim (found, reg) name).1 = true).
Proof.
  intros (v & Hd & Hin & Hlen & Hothers).
  destruct (expandValue_grows reg v v Hd Hlen Hothers) as [_ Hgrow]. specialize (Hgrow Hin).
  destruct (decide (name = d)) as [->|Hne].
  - destruct (expandDim_cases found reg d) as [[_ Hid]|(d0 & v0 & Hd0 & Hv0 & _ & Heq)].
    { rewrite (Hid v Hd) in Hgrow. lia. }
    rewrite Heq. simpl. split; [|done].
    assert (v0 = v) as ->.
    { assert (dimValue reg d = Some v0); [|congruence].
      apply dimValue_Some. destruct d0; simpl in *; subst; eauto. }
    exists (expandValue reg v). split; [|split; [|split]].
    + rewrite dimValue_insert. by rewrite decide_True.
    + apply expandValue_elem. exists d. split; [done|]. right. eauto.
    + lia.
    + intros e He Hed.
      assert (Hdim : isDimension reg e = false).
      { apply expandValue_elem in He as (s & Hs & [[_ ->]|(w & Hw & He)]).
        - by apply Hothers.
        - destruct (decide (s = d)) as [->|Hsd].
          + assert (w = v) as -> by congruence. by apply Hothers.
          + apply Hothers in Hs; [|done]. apply isDimension_false in Hs. congruence. }
      pose proof (expandDim_isDimension found reg d e) as Hsame.
      rewrite Heq in Hsame. simpl in Hsame. by rewrite Hsame.
  - split; [|done]. exists v. split; [|split; [done|split; [done|]]].
    + rewrite expandDim_dimValue by done. done.
    + intros e He Hed. rewrite expandDim_isDimension. by apply Hothers.
Qed.

Lemma pass_selfListed (l : list string) (acc : bool * gmap string Sub) :
  selfListed acc.2 →
  selfListed (foldl expandDim acc l).2
  ∧ (d ∈ l → (foldl expandDim acc l).1 = true).
Proof.
  revert acc. induction l as [|n l IH]; intros [found reg] HI; simpl.
  { split; [done|]. by intros ?%elem_of_nil. }
  destruct (expandDim_selfListed found reg n HI) as [HI' Hflag].
  destruct (expandDim (found, reg) n) as [found' reg'] eqn:E. simpl in *.
  destruct (IH (found', reg') HI') as [HI'' Hlater]. split; [done|].
  intros [->|Hin]%elem_of_cons; [|by apply Hlater].
  rewrite (Hflag eq_refl). apply pass_flag_true.
Qed.
End diverge.

(** X26. A dimension that is listed in its own definition beside at least one
    other name, the other names being no dimensions, keeps the expansion loop
    running for ever: every pass makes its value longer, and no number of
    passes is enough. *)
Theorem expandDimensions_diverges (d : string) (order : list string)
    (reg : gmap string Sub) (v : list string) :
  d ∈ order → dimValue reg d = Some v → d ∈ v → 2 ≤ length v →
  (∀ e, e ∈ v → e ≠ d → isDimension reg e = false) →
  ∀ fuel, expandDimensions fuel order reg = None.
Proof.
  intros Hin Hd Hself Hlen Hothers fuel.
  assert (HI : ∃ v, dimValue reg d = Some v ∧ d ∈ v ∧ 2 ≤ length v
                    ∧ ∀ e, e ∈ v → e ≠ d → isDimension reg e = false) by eauto.
  clear v Hd Hself Hlen Hothers. revert reg HI.
  induction fuel as [|fuel IH]; intros reg HI; [done|]. simpl.
  destruct (pass_selfListed d order (false, reg) HI) as [HI' Hflag].
  unfold expandPass. destruct (foldl expandDim (false, reg) order) as [found reg'].
  simpl in *. rewrite (Hflag Hin). by apply IH.
Qed.

Lemma expandDimensions_diverges_witness :
  expandDimensions 1000 ["_a"]
    (list_to_map [("_a", Ex.dimDecl ["_a"; "_x"] "_a" [])]) = None.
Proof.
  refine (expandDimensions_diverges "_a" ["_a"] _ ["_a"; "_x"] _ _ _ _ _ 1000).
  - left.
  - vm_compute. reflexivity.
  - left.
  - simpl. lia.
  - intros e [->|He]%elem_of_cons Hne; [done|].
    apply list_elem_of_singleton in He as ->. vm_compute. reflexivity.
Defined.

(** ** Names registered by the variable reader *)

(** X27. A varName registered with [addNonAtoAVar] before the analysis stays
    registered, and every subscripted record of that name is given the refId
    [varName[s1,...,sn]], also when it is the only record of the name. *)
Theorem addNonAtoAVar_refId (st : State) (n : string) (flags : list bool) (v : Var) :
  v ∈ variables (assignRefIds (addNonAtoAVar n flags st)) →
  varName v = n → subscripts v ≠ [] →
  isNonAtoAName (nonAtoANames (assignRefIds (addNonAtoAVar n flags st))) n = true
  ∧ refId v = n +:+ "[" +:+ Js.join "," (subscripts v) +:+ "]".
Proof.
  unfold assignRefIds. intros Hv Hn Hsub.
  assert (Hreg : isNonAtoAName (nonAtoANames (findNonAtoAVars (addNonAtoAVar n flags st))) n
                 = true).
  { apply findNonAtoAVars_spec. left. simpl. rewrite lookup_insert_eq. eauto. }
  split; [exact Hreg|].
  rewrite setRefIds_variables in Hv. apply list_elem_of_fmap in Hv as (v0 & -> & Hv0).
  cbn [set_refId refId varName subscripts] in *.
  unfold refIdForVar, hasSubscripts. rewrite Hn, Hreg.
  by rewrite bool_decide_eq_false_2.
Qed.

Lemma addNonAtoAVar_refId_witness :
  refId (mkVar "y[DimA]" "_y" ["_dima"] "_y[_dima]" "" false [] []) = "_y[_dima]"
  ∧ isNonAtoAName (nonAtoANames (assignRefIds (addNonAtoAVar "_y" [true] Ex.table1))) "_y"
    = true.
Proof.
  destruct (addNonAtoAVar_refId Ex.table1 "_y" [true]
              (mkVar "y[DimA]" "_y" ["_dima"] "_y[_dima]" "" false [] [])) as [Hreg Hid].
  - apply (bool_decide_unpack _). vm_compute. exact I.
  - reflexivity.
  - discriminate.
  - split; [exact Hid|exact Hreg].
Defined.

(** ** Variables that depend on nothing of their kind *)

Lemma filter_all {A} (P : A → Prop) `{!∀ x, Decision (P x)} (l : list A) :
  (∀ x, x ∈ l → P x) → filter P l = l.
Proof.
  induction l as [|x l IH]; intros Hall; [done|].
  rewrite filter_cons, decide_True by (apply Hall; left).
  rewrite IH; [done|]. intros y Hy. apply Hall. by right.
Qed.

Lemma filter_none {A} (P : A → Prop) `{!∀ x, Decision (P x)} (l : list A) :
  (∀ x, x ∈ l → ¬ P x) → filter P l = [].
Proof.
  induction l as [|x l IH]; intros Hnone; [done|].
  rewrite filter_cons, decide_False by (apply Hnone; left).
  apply IH. intros y Hy. apply Hnone. by right.
Qed.

Lemma refPairs_none (reg : gmap string Sub) (vars : list Var) (type : string) (v : Var) :
  (∀ r, r ∈ references v → ∃ w, varWithRefId reg vars r = Some w ∧ varType w ≠ type) →
  refPairs reg vars type v = Js.Ok [].
Proof.
  intros Hrefs. unfold refPairs.
  destruct (Forall2_total (λ r w, varWithRefId reg vars r = Some w ∧ varType w ≠ type)
              (references v) Hrefs) as [ws Hws].
  assert (Hbind : Js.requireAll (varWithRefId reg vars <$> references v) = Js.Ok ws).
  { apply requireAll_fmap. eapply Forall2_impl; [exact Hws|]. by intros r w [? _]. }
  rewrite Hbind, Result_bind_Ok. rewrite filter_none; [done|].
  intros w Hw. by destruct (Forall2_elem_r _ _ _ _ Hws Hw) as (r & _ & _ & Hty).
Qed.

Lemma depGraph_none (reg : gmap string Sub) (vars : list Var) (type : string) :
  (∀ v r, v ∈ varsOfType type vars → r ∈ references v →
          ∃ w, varWithRefId reg vars r = Some w ∧ varType w ≠ type) →
  depGraph reg vars type = Js.Ok [].
Proof.
  intros Hrefs. unfold depGraph.
  assert (Hmap : Js.mapM (refPairs reg vars type) (varsOfType type vars)
                 = Js.Ok ((λ _, []) <$> varsOfType type vars)).
  { apply mapM_Ok. apply Forall2_fmap_r, Forall_Forall2_diag, Forall_forall.
    intros v Hv. apply refPairs_none. intros r. by apply Hrefs. }
  rewrite Hmap, Result_bind_Ok. f_equal. clear Hrefs Hmap.
  induction (varsOfType type vars) as [|x l IH]; [done|]. rewrite fmap_cons. exact IH.
Qed.

Lemma collectDeps_no_refs (reg : gmap string Sub) (vars : list Var) (queue : list Var)
    (depsMap : list (string * list string)) :
  (∀ v, v ∈ queue → initRefs v = []) →
  collectDeps (S (length queue)) reg vars (queue, depsMap) = Some depsMap.
Proof.
  revert depsMap. induction queue as [|v queue IH]; intros depsMap H; [done|].
  cbn [collectDeps fst snd length]. unfold addDepsToMap.
  rewrite decide_True by (apply H; left). apply IH. intros w Hw. apply H. by right.
Qed.

(** X28. Variables that depend on nothing of their kind come out in refId
    order: [sortVarsOfType] returns the records of the type sorted by refId
    when every reference of such a record binds to a record of another type,
    and [sortInitVars] returns the records with an init value sorted by refId
    when none of them has init references; [toposort] is taken to return the
    empty list for the empty graph. *)
Theorem sorters_independent (toposort : list (string * string) → option (list string))
    (reg : gmap string Sub) (vars : list Var) (type : string) :
  toposort [] = Some [] →
  ((∀ v r, v ∈ varsOfType type vars → r ∈ references v →
           ∃ w, varWithRefId reg vars r = Some w ∧ varType w ≠ type) →
   sortVarsOfType toposort reg vars type = Js.Ok (vsort (varsOfType type vars)))
  ∧ ((∀ v, v ∈ vars → hasInitValue v = true → initReferences v = []) →
     sortInitVars toposort (S (length (initVarsOf vars))) reg vars
     = Some (Js.Ok (vsort (initVarsOf vars)))).
Proof.
  intros Htopo. split.
  - intros Hrefs. unfold sortVarsOfType. rewrite depGraph_none by done.
    rewrite Result_bind_Ok, Htopo.
    change (Js.requireAll (varWithRefId reg vars <$> reverse [])) with (Js.Ok (@nil Var)).
    rewrite Result_bind_Ok. change (varsOfType type []) with (@nil Var).
    rewrite app_nil_r. f_equal. f_equal. apply filter_all. intros x _. apply not_elem_of_nil.
  - intros Hinit. unfold sortInitVars, initGraph.
    rewrite <- length_reverse. rewrite collectDeps_no_refs.
    + cbn [fmap option_fmap option_map]. change (depEdges []) with (@nil (string * string)).
      rewrite Htopo.
      change (Js.requireAll (varWithRefId reg vars <$> reverse [])) with (Js.Ok (@nil Var)).
      rewrite Result_bind_Ok.
      change (filter (λ v : Var, ¬ (varType v = "const" ∨ varType v = "lookup")) [])
        with (@nil Var).
      rewrite app_nil_r. do 3 f_equal.
      apply filter_all. intros x _. apply not_elem_of_nil.
    + intros v [Hv Hin]%elem_of_reverse%list_elem_of_filter.
      unfold initRefs. rewrite Hv. by apply Hinit.
Qed.

Lemma sorters_independent_witness :
  sortVarsOfType Ex.sample_toposort ∅ (variables Ex.table2) "const"
  = Js.Ok (vsort (varsOfType "const" (variables Ex.table2)))
  ∧ sortInitVars Ex.sample_toposort 3 ∅ Ex.table4
    = Some (Js.Ok (vsort (initVarsOf Ex.table4))).
Proof.
  destruct (sorters_independent Ex.sample_toposort ∅ (variables Ex.table2) "const" eq_refl)
    as [Hconst _].
  destruct (sorters_independent Ex.sample_toposort ∅ Ex.table4 "level" eq_refl)
    as [_ Hinit].
  split.
  - apply Hconst. intros v r Hv Hr. exfalso.
    assert (Hall : Forall (λ v, references v = []) (varsOfType "const" (variables Ex.table2)))
      by (apply (bool_decide_unpack _); vm_compute; exact I).
    rewrite Forall_forall in Hall. rewrite (Hall v Hv) in Hr. by apply elem_of_nil in Hr.
  - apply Hinit. intros v Hv _.
    assert (Hall : Forall (λ v, initReferences v = []) Ex.table4)
      by (apply (bool_decide_unpack _); vm_compute; exact I).
    rewrite Forall_forall in Hall. by apply Hall.
Defined.
